(** * phiera: a shallow embedding of the hierarchical lookup engine

    The development follows the Python sources
      - [phiera/util.py]      ([sym_lookup], [LookupDict.lookup]),
      - [phiera/backends.py]  ([Backend] and its three subclasses),
      - [phiera/phiera.py]    ([Merge], [ScopedHiera], [Hiera]).

    Python values are modelled by the inductive type [pyval]; a Python
    call that may raise is a function into [result]; code that mutates
    the engine (its document cache) takes the engine and returns it;
    context dictionaries, which Python shares by reference, live in a
    [heap] of dictionary objects.  What the engine obtains from outside
    the repository (file system, parsers, parts of the Python library)
    is a record [World], over which every statement is universal.
    [get_key] and [resolve] call each other without a bound in Python;
    here they take a [fuel] that bounds the depth of the calls.

    Scope of the model: strings are byte strings (ASCII text), mapping
    keys are strings, and YAML scalars other than null, booleans,
    integers and strings (floats, dates) are not represented. *)

From Stdlib Require Import ZArith Ascii String DecimalString Lia.
From stdpp Require Import base option list gmap strings.

Local Open Scope Z_scope.
#[local] Set Warnings "-register-all".

(** ** Python values *)

(** [VDict] is an insertion-ordered mapping ([LookupDict], a subclass of
    [OrderedDict]); [VSet] lists the elements of a [set] in one fixed
    order; [VOther] stands for an empty instance [typ()] of a type that
    is none of list, set, dict and str (the accumulator of a merge whose
    type [Merge.merge_value] cannot handle). *)
Inductive pyval : Type :=
  | VNone
  | VBool (b : bool)
  | VInt (n : Z)
  | VStr (s : string)
  | VList (l : list pyval)
  | VDict (d : list (string * pyval))
  | VSet (l : list pyval)
  | VOther.

(** Truth pyval of an object, as tested by [if v], [not v], [v or d]. *)
Definition truthy (v : pyval) : bool :=
  match v with
  | VNone => false
  | VBool b => b
  | VInt n => negb (n =? 0)
  | VStr s => negb (String.eqb s EmptyString)
  | VList l => negb (Nat.eqb (length l) 0)
  | VDict d => negb (Nat.eqb (length d) 0)
  | VSet l => negb (Nat.eqb (length l) 0)
  | VOther => false
  end.

Definition is_none (v : pyval) : bool :=
  match v with VNone => true | _ => false end.

Definition is_list (v : pyval) : bool :=
  match v with VList _ => true | _ => false end.

Definition is_dict (v : pyval) : bool :=
  match v with VDict _ => true | _ => false end.

Definition is_str (v : pyval) : bool :=
  match v with VStr _ => true | _ => false end.

(** Python [==]: booleans are the integers 0 and 1, sequences compare
    element-wise, ordered mappings compare entries in order, sets compare
    by mutual inclusion. *)
Fixpoint py_eq (a b : pyval) {struct a} : bool :=
  match a, b with
  | VNone, VNone => true
  | VBool x, VBool y => Bool.eqb x y
  | VInt x, VInt y => x =? y
  | VBool x, VInt y => (if x then 1 else 0) =? y
  | VInt x, VBool y => x =? (if y then 1 else 0)
  | VStr x, VStr y => String.eqb x y
  | VList l1, VList l2 =>
      (fix go (l1 l2 : list pyval) {struct l1} : bool :=
         match l1, l2 with
         | [], [] => true
         | x :: l1', y :: l2' => py_eq x y && go l1' l2'
         | _, _ => false
         end) l1 l2
  | VDict d1, VDict d2 =>
      (fix go (d1 d2 : list (string * pyval)) {struct d1} : bool :=
         match d1, d2 with
         | [], [] => true
         | (k1, x) :: d1', (k2, y) :: d2' =>
             String.eqb k1 k2 && py_eq x y && go d1' d2'
         | _, _ => false
         end) d1 d2
  | VSet s1, VSet s2 =>
      Nat.eqb (length s1) (length s2)
      && (fix go (s1 : list pyval) : bool :=
            match s1 with
            | [] => true
            | x :: s1' => existsb (fun y => py_eq x y) s2 && go s1'
            end) s1
  | VOther, VOther => true
  | _, _ => false
  end.

(** [x in l] for a list [l]. *)
Definition py_in (x : pyval) (l : list pyval) : bool :=
  existsb (fun y => py_eq x y) l.

(** ** Exceptions and results *)

(** Modelled from the spec: the exception class [InterpolationError] is
    imported from [phiera/exceptions.py], which is not among the sources;
    the spec calls it a distinct interpolation-failure signal, so it is a
    class of its own, unrelated to [KeyError].

    [Exception_ m] is an instance of the class [Exception] itself, as
    built by [raise Exception(...)]; the message records which text was
    formatted and with what.  [External] covers every other class raised
    by a collaborator (the file system, a parser, the [re] module). *)
Inductive exn : Type :=
  | KeyError (k : option string)
  | IndexError
  | ValueError
  | TypeError
  | AttributeError
  | InterpolationError (k : string)
  | Exception_ (m : message)
  | External (tag : string)
with message : Type :=
  | AliasInInterpolation (s : string)
  | InvalidAliasCall (s : pyval)
  | CouldNotResolve (s : pyval)
  | ResolvedNotString (s : pyval)
  | FailedToLoadFile (path : string) (cause : exn)
  | FailedToParseBase
  | InvalidBackend (name : pyval)
  | NoBackends
  | MissingHierarchy.

Definition is_KeyError (e : exn) : bool :=
  match e with KeyError _ => true | _ => false end.

Definition is_InterpolationError (e : exn) : bool :=
  match e with InterpolationError _ => true | _ => false end.

(** Outcome of a call: a returned pyval, a raised exception, or a
    recursion deeper than the fuel given to the model. *)
Inductive result (A : Type) : Type :=
  | Ok (a : A)
  | Raise (e : exn)
  | OutOfFuel.
Arguments Ok {A} a.
Arguments Raise {A} e.
Arguments OutOfFuel {A}.

Definition bind {A B : Type} (m : result A) (k : A -> result B) : result B :=
  match m with
  | Ok a => k a
  | Raise e => Raise e
  | OutOfFuel => OutOfFuel
  end.

Notation "'do' x <- m ; k" := (bind m (fun x => k))
  (at level 10, x name, m at level 100, k at level 200).

(** [for x in l: body] threading one loop variable. *)
Fixpoint for_each {A S : Type} (body : S -> A -> result S) (l : list A) (s : S)
  : result S :=
  match l with
  | [] => Ok s
  | x :: l' => do s' <- body s x; for_each body l' s'
  end.

(** ** Ordered mappings *)

Fixpoint odict_get {V : Type} (d : list (string * V)) (k : string) : option V :=
  match d with
  | [] => None
  | (k', v) :: d' => if String.eqb k' k then Some v else odict_get d' k
  end.

(** [d[k] = v]: an existing key keeps its position, a new key goes last. *)
Fixpoint odict_set {V : Type} (d : list (string * V)) (k : string) (v : V)
  : list (string * V) :=
  match d with
  | [] => [(k, v)]
  | (k', v') :: d' =>
      if String.eqb k' k then (k, v) :: d' else (k', v') :: odict_set d' k v
  end.

Definition odict_mem {V : Type} (d : list (string * V)) (k : string) : bool :=
  match odict_get d k with Some _ => true | None => false end.

(** ** [phiera/util.py] *)

Definition is_digit (c : ascii) : bool :=
  (48 <=? nat_of_ascii c)%nat && (nat_of_ascii c <=? 57)%nat.

Definition digit_val (c : ascii) : Z := Z.of_nat (nat_of_ascii c) - 48.

(** The characters [int] strips from both ends of its argument. *)
Definition is_space (c : ascii) : bool :=
  let n := nat_of_ascii c in
  (Nat.eqb n 32) || ((9 <=? n)%nat && (n <=? 13)%nat).

Fixpoint lstrip (s : string) : string :=
  match s with
  | String c s' => if is_space c then lstrip s' else s
  | EmptyString => EmptyString
  end.

(** [rstrip s]: [None] stands for a string of spaces only. *)
Fixpoint rstrip_aux (s : string) : option string :=
  match s with
  | EmptyString => None
  | String c s' =>
      match rstrip_aux s' with
      | Some t => Some (String c t)
      | None => if is_space c then None else Some (String c EmptyString)
      end
  end.

Definition rstrip (s : string) : string :=
  match rstrip_aux s with Some t => t | None => EmptyString end.

(** Decimal digits with single underscores between digits. *)
Fixpoint parse_digits (s : string) (acc : Z) (after_digit : bool) : option Z :=
  match s with
  | EmptyString => if after_digit then Some acc else None
  | String c s' =>
      if is_digit c then parse_digits s' (acc * 10 + digit_val c) true
      else if Ascii.eqb c "_" && after_digit then parse_digits s' acc false
      else None
  end.

(** [int(s)] for a string [s]: [None] is [ValueError]. *)
Definition py_int (s : string) : option Z :=
  match rstrip (lstrip s) with
  | String "-" t => option_map Z.opp (parse_digits t 0 false)
  | String "+" t => parse_digits t 0 false
  | t => parse_digits t 0 false
  end.

(** [s.split('.')] *)
Fixpoint split_dot (s : string) : list string :=
  match s with
  | EmptyString => [EmptyString]
  | String c s' =>
      if Ascii.eqb c "." then EmptyString :: split_dot s'
      else match split_dot s' with
           | h :: t => String c h :: t
           | [] => [String c EmptyString]
           end
  end.

(** [l[n]] for a list: negative indices count from the end. *)
Definition list_index (l : list pyval) (n : Z) : result pyval :=
  let i := if n <? 0 then n + Z.of_nat (length l) else n in
  if i <? 0 then Raise IndexError
  else match nth_error l (Z.to_nat i) with
       | Some v => Ok v
       | None => Raise IndexError
       end.

(** One step of the [reduce] in [LookupDict.lookup]:
    [obj[int(key) if type(obj) is list else key]]. *)
Definition lookup_step (obj : pyval) (key : string) : result pyval :=
  match obj with
  | VList l =>
      match py_int key with
      | Some n => list_index l n
      | None => Raise ValueError
      end
  | VDict d =>
      match odict_get d key with
      | Some v => Ok v
      | None => Raise (KeyError (Some key))
      end
  | _ => Raise TypeError
  end.

(** [LookupDict.lookup(self, key)] *)
Definition lookup (self : pyval) (key : string) : result pyval :=
  for_each lookup_step (split_dot key) self.

(** [sym_lookup(obj, key, default)]: [key in obj] is a membership test
    on a mapping, an element test on a list or set, a substring test on a
    string; subscripting anything but a mapping with a string raises. *)
Fixpoint is_prefix (p s : string) : bool :=
  match p, s with
  | EmptyString, _ => true
  | String a p', String b s' => Ascii.eqb a b && is_prefix p' s'
  | _, _ => false
  end.

Fixpoint is_substring (p s : string) : bool :=
  is_prefix p s
  || match s with
     | EmptyString => false
     | String _ s' => is_substring p s'
     end.

Definition py_contains (obj : pyval) (key : string) : result bool :=
  match obj with
  | VDict d => Ok (odict_mem d key)
  | VList l | VSet l => Ok (py_in (VStr key) l)
  | VStr s => Ok (is_substring key s)
  | _ => Raise TypeError
  end.

Definition py_getitem_str (obj : pyval) (key : string) : result pyval :=
  match obj with
  | VDict d =>
      match odict_get d key with
      | Some v => Ok v
      | None => Raise (KeyError (Some key))
      end
  | _ => Raise TypeError
  end.

Definition sym_lookup (obj : pyval) (key : string) (default : pyval)
  : result pyval :=
  do b1 <- py_contains obj key;
  if b1 then py_getitem_str obj key
  else
    do b2 <- py_contains obj (String ":" key);
    if b2 then py_getitem_str obj (String ":" key)
    else Ok default.

(** ** [Merge] (phiera.py) *)

(** The type handed to [Merge(typ, deep)]: [list], [set], [dict], [str],
    or a type whose instances are none of these (as [tuple] in the
    tests). *)
Inductive merge_typ : Type := TList | TSet | TDict | TStr | TOther.

Record Merge : Type := mkMerge {
  typ : merge_typ;
  deep : bool;
  value : pyval
}.

(** [Merge.__init__] *)
Definition Merge_init (t : merge_typ) (dp : bool) : Merge :=
  mkMerge t dp
    (match t with
     | TDict => VDict []
     | TList => VList []
     | TSet => VSet []
     | TStr => VStr EmptyString
     | TOther => VOther
     end).

Definition chars (s : string) : list pyval :=
  map (fun c => VStr (String c EmptyString)) (list_ascii_of_string s).

(** Iterating an object, as [list(value)] and [for x in value] do. *)
Definition py_iter (v : pyval) : result (list pyval) :=
  match v with
  | VList l | VSet l => Ok l
  | VStr s => Ok (chars s)
  | VDict d => Ok (map (fun kv => VStr (fst kv)) d)
  | _ => Raise TypeError
  end.

(** Lists and sets are unhashable; [LookupDict] defines [__hash__]. *)
Definition hashable (v : pyval) : bool :=
  match v with VList _ | VSet _ => false | _ => true end.

Fixpoint set_add_all (acc l : list pyval) : list pyval :=
  match l with
  | [] => acc
  | x :: l' => set_add_all (if py_in x acc then acc else acc ++ [x]) l'
  end.

(** [set(value)] *)
Definition py_set (v : pyval) : result (list pyval) :=
  do l <- py_iter v;
  if forallb hashable l then Ok (set_add_all [] l) else Raise TypeError.

(** [Merge.deep_merge(a, b)].  [deepcopy] is the identity on immutable
    model values.  The first argument is a mapping at every call of the
    source: [merge_value] passes its mapping accumulator, the recursion
    passes [result[k]] after testing that it is a mapping. *)
Fixpoint deep_merge (a : list (string * pyval)) (b : pyval) {struct b} : pyval :=
  match b with
  | VDict bd =>
      VDict
        ((fix loop (bd : list (string * pyval)) (result : list (string * pyval))
            {struct bd} : list (string * pyval) :=
            match bd with
            | [] => result
            | (k, v) :: bd' =>
                loop bd'
                  (match odict_get result k with
                   | Some (VDict rk) => odict_set result k (deep_merge rk v)
                   | Some (VList rk) =>
                       match v with
                       | VList vl =>
                           odict_set result k
                             (VList (rk ++ List.filter (fun x => negb (py_in x rk)) vl))
                       | _ => odict_set result k (VList (rk ++ [v]))
                       end
                   | _ => odict_set result k v
                   end)
            end) bd a)
  | _ => b
  end.

(** The loop of [deep_merge] over the entries of [b], as a function of
    its own (the same code as the local [loop] above). *)
Definition deep_merge_step (result : list (string * pyval)) (kv : string * pyval)
  : list (string * pyval) :=
  let (k, v) := kv in
  match odict_get result k with
  | Some (VDict rk) => odict_set result k (deep_merge rk v)
  | Some (VList rk) =>
      match v with
      | VList vl =>
          odict_set result k
            (VList (rk ++ List.filter (fun x => negb (py_in x rk)) vl))
      | _ => odict_set result k (VList (rk ++ [v]))
      end
  | _ => odict_set result k v
  end.

(** [Merge.merge_value(self, value)]; the tests are made in the order of
    the source: list, set, dict, str. *)
Definition merge_value (self : Merge) (v : pyval) : result Merge :=
  match value self with
  | VList l =>
      do xs <- py_iter v;
      Ok (mkMerge (typ self) (deep self) (VList (l ++ xs)))
  | VSet s =>
      do xs <- py_set v;
      Ok (mkMerge (typ self) (deep self) (VSet (set_add_all s xs)))
  | VDict d =>
      if deep self then
        Ok (mkMerge (typ self) (deep self) (deep_merge d v))
      else
        match v with
        | VDict items =>
            Ok (mkMerge (typ self) (deep self)
                  (VDict (fold_left
                            (fun acc kv =>
                               if odict_mem acc (fst kv) then acc
                               else odict_set acc (fst kv) (snd kv))
                            items d)))
        | _ => Raise AttributeError
        end
  | VStr _ => Ok (mkMerge (typ self) (deep self) v)
  | _ => Raise TypeError
  end.

(** ** The collaborators of the engine

    Everything the engine obtains from outside the repository: the file
    system, the decryption process, the YAML and JSON parsers, and three
    services of the Python library whose details the engine does not
    depend on. *)
Record World : Type := mkWorld {
  os_getcwd : string;
  os_path_dirname : string -> string;
  (** the last component of [os.path.splitext(f)] *)
  os_path_splitext_ext : string -> string;
  os_path_isdir : string -> bool;
  os_path_exists : string -> bool;
  (** [os.walk(path)]: the files of each directory visited, with its root *)
  os_walk : string -> list (string * list string);
  (** [open(path).read()] *)
  open_read : string -> result string;
  (** [subprocess.check_output(['sops', ..., '-d', path])] *)
  sops_decrypt : string -> result string;
  (** [yaml.load(stream, OrderedLoader)] *)
  yaml_load : string -> result pyval;
  (** [json.loads(data, object_pairs_hook=LookupDict)] *)
  json_loads : string -> result pyval;
  (** expansion by [re] of a replacement template that contains a
      backslash, given the groups (from group 0) of the match it
      replaces, or [None] when the pattern matched nowhere *)
  re_expand : string -> option (list string) -> result string;
  (** [str.format] on one replacement field that has an attribute, an
      index, a conversion or a format specification: the keyword
      arguments, the object found for the field name, then the text of
      the field *)
  format_field : gmap string pyval -> pyval -> string -> result string;
  (** [str(v)] for a container [v] *)
  py_repr : pyval -> string
}.

(** ** The three patterns of phiera.py *)

Definition dquote : ascii := ascii_of_nat 34.
Definition backslash : ascii := ascii_of_nat 92.

Fixpoint strip_prefix (p s : string) : option string :=
  match p, s with
  | EmptyString, _ => Some s
  | String a p', String b s' =>
      if Ascii.eqb a b then strip_prefix p' s' else None
  | _, _ => None
  end.

(** The optional [(?:::|)] of the three patterns. *)
Definition strip_colons (s : string) : string :=
  match strip_prefix "::" s with Some t => t | None => s end.

Inductive fname : Type := Scope | HieraF | LookupF | Literal | Alias.

Definition fname_text (f : fname) : string :=
  match f with
  | Scope => "scope" | HieraF => "hiera" | LookupF => "lookup"
  | Literal => "literal" | Alias => "alias"
  end.

Definition match_name (s : string) : option (fname * string) :=
  match strip_prefix "scope" s with
  | Some r => Some (Scope, r)
  | None =>
  match strip_prefix "hiera" s with
  | Some r => Some (HieraF, r)
  | None =>
  match strip_prefix "lookup" s with
  | Some r => Some (LookupF, r)
  | None =>
  match strip_prefix "literal" s with
  | Some r => Some (Literal, r)
  | None =>
  match strip_prefix "alias" s with
  | Some r => Some (Alias, r)
  | None => None
  end end end end end.

Definition is_quote (c : ascii) : bool :=
  Ascii.eqb c "'" || Ascii.eqb c dquote.

(** The longest prefix of characters satisfying [p], and what follows. *)
Fixpoint span (p : ascii -> bool) (s : string) : string * string :=
  match s with
  | EmptyString => (EmptyString, EmptyString)
  | String c s' =>
      if p c then let (a, b) := span p s' in (String c a, b)
      else (EmptyString, s)
  end.

(** The pattern [function] matched at the start of [s]: percent, brace,
    one of the five names, a parenthesis, a quote (single or double), an
    optional pair of colons, the longest run of characters that are not
    quotes, a quote, a closing parenthesis and brace.  The result is the
    two groups (name and run) and the text after the match. *)
Definition match_function (s : string) : option (fname * string * string) :=
  match strip_prefix "%{" s with
  | None => None
  | Some s1 =>
  match match_name s1 with
  | None => None
  | Some (f, s2) =>
  match s2 with
  | String "(" (String q s3) =>
      if is_quote q then
        let (body, s4) := span (fun c => negb (is_quote c)) s3 in
        match s4 with
        | String _ s5 =>
            match strip_prefix ")}" s5 with
            | Some rest => Some (f, strip_colons body, rest)
            | None => None
            end
        | EmptyString => None
        end
      else None
  | _ => None
  end end end.

(** The pattern [interpolate] matched at the start of [s]: percent,
    brace, an optional pair of colons, the longest run of characters
    other than the closing brace (the group), a closing brace. *)
Definition match_interpolate (s : string) : option (string * string) :=
  match strip_prefix "%{" s with
  | None => None
  | Some s1 =>
      let (body, s2) := span (fun c => negb (Ascii.eqb c "}")) s1 in
      match s2 with
      | String _ rest => Some (strip_colons body, rest)
      | EmptyString => None
      end
  end.

(** The character class of [rformat]: the letters, the digits, and the
    range written from the underscore to the vertical bar (codes 95 to
    124). *)
Definition rformat_class (c : ascii) : bool :=
  let n := nat_of_ascii c in
  ((97 <=? n)%nat && (n <=? 122)%nat)
  || ((65 <=? n)%nat && (n <=? 90)%nat)
  || ((95 <=? n)%nat && (n <=? 124)%nat)
  || is_digit c.

(** The pattern [rformat] matched at the start of [s]: percent, brace,
    an optional pair of colons, a non-empty run of characters of the
    class (the group), a closing brace. *)
Definition match_rformat (s : string) : option (string * string) :=
  match strip_prefix "%{" s with
  | None => None
  | Some s1 =>
      let (body, s2) := span rformat_class (strip_colons s1) in
      match body, s2 with
      | String _ _, String "}" rest => Some (body, rest)
      | _, _ => None
      end
  end.

Section Pattern.
Context {G : Type}.
(** a pattern matcher at the start of a string: groups and rest *)
Variable match_here : string -> option (G * string).

(** The leftmost match: text before it, groups, text after it. *)
Fixpoint re_search (s : string) : option (string * G * string) :=
  match match_here s with
  | Some (g, rest) => Some (EmptyString, g, rest)
  | None =>
      match s with
      | EmptyString => None
      | String c s' =>
          match re_search s' with
          | Some (pre, g, rest) => Some (String c pre, g, rest)
          | None => None
          end
      end
  end.

(** [pattern.findall(s)]: the groups of the successive matches.  A
    match of these patterns is never empty, so [n] at least the length
    of [s] bounds their number. *)
Fixpoint re_findall_upto (n : nat) (s : string) : list G :=
  match n with
  | O => []
  | S n' =>
      match re_search s with
      | Some (_, g, rest) => g :: re_findall_upto n' rest
      | None => []
      end
  end.

Definition re_findall (s : string) : list G :=
  re_findall_upto (String.length s) s.

(** [pattern.sub(repl, s)] (every match) for a template [repl] that is
    a function of the groups. *)
Fixpoint re_sub_all_upto (n : nat) (repl : G -> string) (s : string) : string :=
  match n with
  | O => s
  | S n' =>
      match re_search s with
      | Some (pre, g, rest) => pre +:+ repl g +:+ re_sub_all_upto n' repl rest
      | None => s
      end
  end.

Definition re_sub_all (repl : G -> string) (s : string) : string :=
  re_sub_all_upto (String.length s) repl s.
End Pattern.

Definition has_backslash (s : string) : bool :=
  existsb (fun c => Ascii.eqb c backslash) (list_ascii_of_string s).

(** The text of the leftmost match, between [pre] and [rest]. *)
Definition matched_text (s pre rest : string) : string :=
  substring (String.length pre)
    (String.length s - String.length pre - String.length rest) s.

Section Sub.
Variable W : World.
Context {G : Type}.
Variable match_here : string -> option (G * string).
Variable groups : G -> list string.

(** [pattern.sub(repl, s, 1)]: the leftmost match is replaced.  A
    template that is not a string is refused; a string without
    backslash is taken literally; any other is compiled by [re], also
    when nothing matches; a subject that is not a string is refused
    after the template was compiled. *)
Definition re_sub1 (repl : pyval) (s : pyval) : result string :=
  match repl with
  | VStr r =>
      match s with
      | VStr s =>
          match re_search match_here s with
          | Some (pre, g, rest) =>
              if has_backslash r then
                do t <- re_expand W r (Some (matched_text s pre rest :: groups g));
                Ok (pre +:+ t +:+ rest)
              else Ok (pre +:+ r +:+ rest)
          | None =>
              if has_backslash r then
                do _ <- re_expand W r None; Ok s
              else Ok s
          end
      | _ =>
          if has_backslash r then
            do _ <- re_expand W r None; Raise TypeError
          else Raise TypeError
      end
  | _ => Raise TypeError
  end.
End Sub.

Definition function_findall (s : string) : list (fname * string) :=
  re_findall match_function s.

Definition interpolate_findall (s : string) : list string :=
  re_findall match_interpolate s.

Definition function_groups (g : fname * string) : list string :=
  [fname_text (fst g); snd g].

Definition function_sub1 (W : World) (repl s : pyval) : result string :=
  re_sub1 W match_function function_groups repl s.

Definition interpolate_sub1 (W : World) (repl s : pyval) : result string :=
  re_sub1 W match_interpolate (fun g => [g]) repl s.

(** [rformat.sub] of the source: every match is replaced by its group
    between braces. *)
Definition rformat_sub (s : string) : string :=
  re_sub_all match_rformat (fun g => "{" +:+ g +:+ "}") s.

(** ** Context dictionaries and [str.format] *)

(** A context dictionary: variable name to value. *)
Abbreviation context_map := (gmap string pyval).

(** [d.update(other)]: the entries of [other] win. *)
Definition update (d other : context_map) : context_map := other ∪ d.

(** [{k: v for k, v in d.items() if v}] *)
Definition drop_falsy (d : context_map) : context_map :=
  filter (fun kv => truthy (snd kv) = true) d.

(** [context.get(name)] *)
Definition context_get (c : context_map) (name : string) : pyval :=
  match c !! name with Some v => v | None => VNone end.

Definition Z_to_string (n : Z) : string :=
  DecimalString.NilZero.string_of_int (Z.to_int n).

Section Format.
Variable W : World.

(** [str(v)], which is what an empty format specification gives. *)
Definition py_str (v : pyval) : string :=
  match v with
  | VStr s => s
  | VInt n => Z_to_string n
  | VBool true => "True"
  | VBool false => "False"
  | VNone => "None"
  | _ => py_repr W v
  end.

(** The scanner of one replacement field, after its opening brace:
    in the field name, inside an index, after the exclamation mark,
    after the conversion character, in the format specification at a
    given depth of braces. *)
Inductive field_state : Type :=
  | FName | FIndex | FBang | FConv | FSpec (depth : nat).

(** The text of the field and the text after its closing brace; a field
    that does not close raises [ValueError]. *)
Fixpoint parse_field (st : field_state) (s : string) : result (string * string) :=
  match s with
  | EmptyString => Raise ValueError
  | String c s' =>
      let continue st' :=
        do r <- parse_field st' s'; Ok (String c (fst r), snd r) in
      match st with
      | FName =>
          if Ascii.eqb c "{" then Raise ValueError
          else if Ascii.eqb c "}" then Ok (EmptyString, s')
          else if Ascii.eqb c "[" then continue FIndex
          else if Ascii.eqb c ":" then continue (FSpec 0)
          else if Ascii.eqb c "!" then continue FBang
          else continue FName
      | FIndex =>
          if Ascii.eqb c "]" then continue FName else continue FIndex
      | FBang => continue FConv
      | FConv =>
          if Ascii.eqb c "}" then Ok (EmptyString, s')
          else if Ascii.eqb c ":" then continue (FSpec 0)
          else Raise ValueError
      | FSpec depth =>
          if Ascii.eqb c "{" then continue (FSpec (S depth))
          else if Ascii.eqb c "}" then
            match depth with
            | O => Ok (EmptyString, s')
            | S d => continue (FSpec d)
            end
          else continue (FSpec depth)
      end
  end.

Definition field_special (c : ascii) : bool :=
  Ascii.eqb c "." || Ascii.eqb c "[" || Ascii.eqb c "!" || Ascii.eqb c ":".

(** The argument name of a field: its text up to the first attribute,
    index, conversion or specification. *)
Definition field_first (text : string) : string :=
  fst (span (fun c => negb (field_special c)) text).

Definition all_digits (s : string) : bool :=
  forallb is_digit (list_ascii_of_string s).

(** One replacement field of [str.format] called with keyword
    arguments [kwargs] only: there are no
    positional arguments, so an empty or numeric argument name raises
    [IndexError] ([ValueError] when the number exceeds the largest
    index); a name missing from [kwargs] raises [KeyError]. *)
Definition render_field (kwargs : context_map) (text : string) : result string :=
  let first := field_first text in
  if all_digits first then
    match parse_digits first 0 false with
    | Some n => if 9223372036854775807 <? n then Raise ValueError
                else Raise IndexError
    | None => Raise IndexError
    end
  else
    match kwargs !! first with
    | None => Raise (KeyError (Some first))
    | Some v =>
        if String.eqb first text then Ok (py_str v)
        else format_field W kwargs v text
    end.

(** [s.format] with keyword arguments [kwargs], on at most [n]
    characters of [s]. *)
Fixpoint py_format_upto (n : nat) (kwargs : context_map) (s : string)
  : result string :=
  match n with
  | O => match s with EmptyString => Ok EmptyString | _ => OutOfFuel end
  | S n' =>
      match s with
      | EmptyString => Ok EmptyString
      | String c s' =>
          if Ascii.eqb c "{" then
            match s' with
            | EmptyString => Raise ValueError
            | String c' s'' =>
                if Ascii.eqb c' "{" then
                  do r <- py_format_upto n' kwargs s''; Ok (String "{" r)
                else
                  do f <- parse_field FName s';
                  do out <- render_field kwargs (fst f);
                  do r <- py_format_upto n' kwargs (snd f);
                  Ok (out +:+ r)
            end
          else if Ascii.eqb c "}" then
            match s' with
            | String "}" s'' =>
                do r <- py_format_upto n' kwargs s''; Ok (String "}" r)
            | _ => Raise ValueError
            end
          else
            do r <- py_format_upto n' kwargs s'; Ok (String c r)
      end
  end.

Definition py_format (kwargs : context_map) (s : string) : result string :=
  py_format_upto (String.length s) kwargs s.
End Format.

(** [os.path.join(a, b)] (POSIX) *)
Fixpoint ends_with (c : ascii) (s : string) : bool :=
  match s with
  | EmptyString => false
  | String x EmptyString => Ascii.eqb x c
  | String _ s' => ends_with c s'
  end.

Definition path_join (a b : string) : string :=
  match b with
  | String "/" _ => b
  | _ =>
      match a with
      | EmptyString => b
      | _ => if ends_with "/" a then a +:+ b else a +:+ "/" +:+ b
      end
  end.

(** ** [phiera/backends.py] *)

Inductive backend_class : Type := YAMLBackend | SopsYAMLBackend | JSONBackend.

Definition NAME (c : backend_class) : string :=
  match c with
  | YAMLBackend => "yaml"
  | SopsYAMLBackend => "yaml.enc"
  | JSONBackend => "json"
  end.

Definition default_datadir : string :=
  "/etc/puppetlabs/code/environments/%{environment}/hieradata".

Record Backend : Type := mkBackend {
  cls : backend_class;
  obj : pyval;
  datadir : pyval
}.

(** [Backend.__init__(self, parent, obj)] *)
Definition Backend_init (c : backend_class) (o : pyval) : result Backend :=
  let o' := if truthy o then o else VDict [] in
  do d <- sym_lookup o' "datadir" (VStr default_datadir);
  Ok (mkBackend c o' d).

Definition read_file (W : World) (c : backend_class) (path : string)
  : result string :=
  match c with
  | SopsYAMLBackend => sops_decrypt W path
  | _ => open_read W path
  end.

(** [backend.load(data)] *)
Definition Backend_load (W : World) (c : backend_class) (data : string)
  : result pyval :=
  match c with
  | JSONBackend => json_loads W data
  | _ => yaml_load W data
  end.

(** ** [Hiera] (phiera.py) *)

(** Dictionary objects are shared by reference: a context dictionary is
    a location of the [heap], which holds its current entries. *)
Definition loc : Type := positive.
Abbreviation heap := (gmap loc context_map).

Definition heap_get (hp : heap) (l : loc) : context_map :=
  match hp !! l with Some d => d | None => ∅ end.

(** [d.update(kwargs)] on the dictionary object at [l]. *)
Definition heap_update (hp : heap) (l : loc) (kwargs : context_map) : heap :=
  <[l := update (heap_get hp l) kwargs]> hp.

(** The dictionary objects created once, when the functions are defined,
    as the default value of their parameter [context]. *)
Definition Hiera_init_default_context : loc := 1%positive.
Definition Hiera_scoped_default_context : loc := 2%positive.

(** The attributes of a [Hiera] object.  [reads] is a ghost attribute:
    the paths handed to [backend.read_file], in order. *)
Record Hiera : Type := mkHiera {
  base : pyval;
  base_path : string;
  backends : list (string * Backend);
  hierarchy : list string;
  context : loc;
  cache : gmap string pyval;
  reads : list string
}.

Definition set_cache (self : Hiera) (c : gmap string pyval) (r : list string)
  : Hiera :=
  mkHiera (base self) (base_path self) (backends self) (hierarchy self)
    (context self) c r.

Section Engine.
Variable W : World.

(** [Hiera.load_file(self, path, backend, ignore_cache)]: the outcome
    and the engine afterwards. *)
Definition load_file (self : Hiera) (path : string) (backend : Backend)
    (ignore_cache : bool) : result string * Hiera :=
  if negb (bool_decide (is_Some (cache self !! path))) || ignore_cache then
    let reads' := reads self ++ [path] in
    match (do raw <- read_file W (cls backend) path;
           Backend_load W (cls backend) raw) with
    | Ok doc => (Ok path, set_cache self (<[path := doc]> (cache self)) reads')
    | Raise e =>
        (Raise (Exception_ (FailedToLoadFile path e)),
         set_cache self (cache self) reads')
    | OutOfFuel => (OutOfFuel, set_cache self (cache self) reads')
    end
  else (Ok path, self).

(** The files of one directory in [load_directory]; the local variable
    [backend], once set, is kept for the files that follow. *)
Fixpoint load_files (self : Hiera) (root : string) (files : list string)
    (backend : option Backend)
  : result (list string * option Backend) * Hiera :=
  match files with
  | [] => (Ok ([], backend), self)
  | f :: files' =>
      let backend' :=
        match backend with
        | Some b => Some b
        | None => odict_get (backends self) (String ":" (os_path_splitext_ext W f))
        end in
      match backend' with
      | Some b =>
          match load_file self (path_join root f) b false with
          | (Ok p, self1) =>
              match load_files self1 root files' backend' with
              | (Ok (ps, b'), self2) => (Ok (p :: ps, b'), self2)
              | (Raise e, self2) => (Raise e, self2)
              | (OutOfFuel, self2) => (OutOfFuel, self2)
              end
          | (Raise e, self1) => (Raise e, self1)
          | (OutOfFuel, self1) => (OutOfFuel, self1)
          end
      | None => load_files self root files' None
      end
  end.

Fixpoint load_dirs (self : Hiera) (dirs : list (string * list string))
    (backend : option Backend) : result (list string) * Hiera :=
  match dirs with
  | [] => (Ok [], self)
  | (root, files) :: dirs' =>
      match load_files self root files backend with
      | (Ok (ps, backend'), self1) =>
          match load_dirs self1 dirs' backend' with
          | (Ok qs, self2) => (Ok (ps ++ qs), self2)
          | r => r
          end
      | (Raise e, self1) => (Raise e, self1)
      | (OutOfFuel, self1) => (OutOfFuel, self1)
      end
  end.

(** [list(self.load_directory(path, backend))] *)
Definition load_directory (self : Hiera) (path : string)
    (backend : option Backend) : result (list string) * Hiera :=
  load_dirs self (os_walk W path) backend.

(** [Hiera.can_resolve(self, s)] *)
Definition can_resolve (s : pyval) : bool :=
  match s with
  | VStr s =>
      negb (Nat.eqb (length (function_findall s)) 0)
      || negb (Nat.eqb (length (interpolate_findall s)) 0)
  | _ => false
  end.

(** The body of the loop of [resolve_interpolates]:
    [s = interpolate.sub((context.get(i) or ''), s, 1)]. *)
Definition bare_step (ctx : context_map) (s : string) (i : string)
  : result string :=
  let v := context_get ctx i in
  interpolate_sub1 W (if truthy v then v else VStr EmptyString) (VStr s).

(** [Hiera.resolve_interpolates(self, s, context)] *)
Definition resolve_interpolates (s : string) (ctx : context_map)
  : result string :=
  for_each (bare_step ctx) (interpolate_findall s) s.

Section Recursion.
(** [self.cache], the candidate paths and the context do not change
    during one lookup; the two variables are the recursive calls. *)
Variable self_cache : gmap string pyval.
Variable paths : list string.
Variable ctx : context_map.
Variable get_key_rec : option string -> option Merge -> result pyval.
Variable resolve_rec : pyval -> option Merge -> result pyval.

(** The loop of [resolve_function] over the calls. *)
Definition resolve_call (merge : option Merge) (s : pyval)
    (c : fname * string) : result pyval :=
  let (call, arg) := c in
  do replace <-
    match call with
    | HieraF | LookupF => get_key_rec (Some arg) merge
    | Scope => Ok (context_get ctx arg)
    | Literal => Ok (VStr arg)
    | Alias => Raise (Exception_ (InvalidAliasCall s))
    end;
  if negb (truthy replace) then Raise (Exception_ (CouldNotResolve s))
  else if is_str replace then
    do s' <- function_sub1 W replace s; Ok (VStr s')
  else
    match call with
    | Scope => Ok replace
    | _ => Raise (Exception_ (ResolvedNotString s))
    end.

(** [Hiera.resolve_function(self, s, paths, context, merge)] *)
Definition resolve_function (s : string) (merge : option Merge)
  : result pyval :=
  let calls := function_findall s in
  match calls with
  | [(Alias, k)] =>
      if negb (String.eqb (re_sub_all match_function (fun _ => EmptyString) s)
                 EmptyString)
      then Raise (Exception_ (AliasInInterpolation s))
      else
        match get_key_rec (Some k) merge with
        | Raise (KeyError _) => Raise (InterpolationError k)
        | r => r
        end
  | _ => for_each (resolve_call merge) calls (VStr s)
  end.

(** [Hiera.resolve_dict]: the entries are resolved in order. *)
Fixpoint resolve_dict (items new_obj : list (string * pyval))
    (merge : option Merge) : result (list (string * pyval)) :=
  match items with
  | [] => Ok new_obj
  | (k, v) :: items' =>
      do v' <- resolve_rec v merge;
      resolve_dict items' (odict_set new_obj k v') merge
  end.

(** [list(self.resolve_list(...))] *)
Fixpoint resolve_list (l : list pyval) (merge : option Merge)
  : result (list pyval) :=
  match l with
  | [] => Ok []
  | item :: l' =>
      do v <- resolve_rec item merge;
      do vs <- resolve_list l' merge;
      Ok (v :: vs)
  end.

(** [Hiera.resolve(self, s, paths, context, merge)] *)
Definition resolve_body (s : pyval) (merge : option Merge) : result pyval :=
  match s with
  | VDict d => do d' <- resolve_dict d [] merge; Ok (VDict d')
  | VList l => do l' <- resolve_list l merge; Ok (VList l')
  | VStr str =>
      if negb (can_resolve s) then Ok s
      else
        do base <- resolve_function str merge;
        match base with
        | VStr b => do b' <- resolve_interpolates b ctx; Ok (VStr b')
        | _ => Ok base
        end
  | _ => Ok s
  end.

(** [self.cache[path].lookup(key)] with its [except KeyError: pass]:
    the value of the local variable [cache] afterwards.  A document
    that is not a mapping has no method [lookup]. *)
Definition try_lookup (doc : pyval) (key : string) : result pyval :=
  match doc with
  | VDict _ =>
      match lookup doc key with
      | Raise (KeyError _) => Ok VNone
      | r => r
      end
  | _ => Raise AttributeError
  end.

(** The loop of [get_key] over the paths; [merges] holds the entry
    of the local dictionary [merges] for [key], when there is one. *)
Fixpoint get_key_loop (key : option string) (merge : option Merge)
    (ps : list string) (merges : option Merge) : result pyval :=
  match ps with
  | [] =>
      match merge, merges with
      | Some _, Some m =>
          if negb (is_none (value m)) then Ok (value m)
          else Raise (KeyError key)
      | _, _ => Raise (KeyError key)
      end
  | path :: ps' =>
      match self_cache !! path with
      | None => Raise (KeyError (Some path))
      | Some doc =>
          match key with
          | Some k =>
              if negb (is_none doc) then
                do found <- try_lookup doc k;
                if negb (is_none found) then
                  let merges' :=
                    match merge, merges with
                    | Some m, None => Some (Merge_init (typ m) (deep m))
                    | _, _ => merges
                    end in
                  do v <- resolve_rec found
                            (match merge with
                             | Some m => if deep m then merges' else merge
                             | None => merge
                             end);
                  match merge, merges' with
                  | Some _, Some acc =>
                      do acc' <- merge_value acc v;
                      get_key_loop key merge ps' (Some acc')
                  | _, _ => Ok v
                  end
                else get_key_loop key merge ps' merges
              else get_key_loop key merge ps' merges
          | None => get_key_loop key merge ps' merges
          end
      end
  end.

(** [Hiera.get_key(self, key, paths, context, merge)] *)
Definition get_key_body (key : option string) (merge : option Merge)
  : result pyval :=
  get_key_loop key merge paths None.
End Recursion.

(** [get_key] and [resolve] call each other; [fuel] bounds the depth
    of the calls. *)
Fixpoint get_key (fuel : nat) (self_cache : gmap string pyval)
    (key : option string) (paths : list string) (ctx : context_map)
    (merge : option Merge) {struct fuel} : result pyval :=
  match fuel with
  | O => OutOfFuel
  | S n =>
      get_key_body self_cache paths
        (fun s m => resolve n self_cache s paths ctx m) key merge
  end
with resolve (fuel : nat) (self_cache : gmap string pyval)
    (s : pyval) (paths : list string) (ctx : context_map)
    (merge : option Merge) {struct fuel} : result pyval :=
  match fuel with
  | O => OutOfFuel
  | S n =>
      resolve_body ctx
        (fun k m => get_key n self_cache k paths ctx m)
        (fun s m => resolve n self_cache s paths ctx m) s merge
  end.
End Engine.

Section Lookup.
Variable W : World.

(** The body of the two loops of [Hiera.get] for one backend and one
    level of the hierarchy: the paths it adds to [paths]. *)
Definition candidate (self : Hiera) (new_context : context_map)
    (backend : Backend) (level : string) : result (list string) * Hiera :=
  let rendered :=
    match datadir backend with
    | VStr d =>
        do d' <- py_format W new_context d;
        do p' <- py_format W new_context level;
        Ok (path_join (path_join (base_path self) d') p')
    | _ => Raise AttributeError
    end in
  match rendered with
  | Raise (KeyError _) => (Ok [], self)
  | Raise e => (Raise e, self)
  | OutOfFuel => (OutOfFuel, self)
  | Ok path =>
      if os_path_isdir W path then load_directory W self path (Some backend)
      else
        let file := path +:+ "." +:+ NAME (cls backend) in
        if os_path_exists W file then
          match load_file W self file backend false with
          | (Ok p, self1) => (Ok [p], self1)
          | (Raise e, self1) => (Raise e, self1)
          | (OutOfFuel, self1) => (OutOfFuel, self1)
          end
        else (Ok [], self)
  end.

(** The two loops, over the pairs in the order of the source: the
    backends outside, the levels of the hierarchy inside. *)
Fixpoint collect (self : Hiera) (new_context : context_map)
    (pairs : list (Backend * string)) : result (list string) * Hiera :=
  match pairs with
  | [] => (Ok [], self)
  | (backend, level) :: pairs' =>
      match candidate self new_context backend level with
      | (Ok ps, self1) =>
          match collect self1 new_context pairs' with
          | (Ok qs, self2) => (Ok (ps ++ qs), self2)
          | r => r
          end
      | r => r
      end
  end.

Definition candidate_pairs (self : Hiera) : list (Backend * string) :=
  flat_map (fun b => map (fun level => (snd b, level)) (hierarchy self))
    (backends self).

(** The context of one call of [get]: the defaults of the engine, then
    the argument [context], then the keyword arguments, without the
    entries whose value is falsy. *)
Definition assemble_context (hp : heap) (self : Hiera)
    (ctx kwargs : context_map) : context_map :=
  drop_falsy (update (update (update ∅ (heap_get hp (context self))) ctx) kwargs).

(** [try: return self.get_key(...) except KeyError: ...] *)
Definition or_default (throw : bool) (default : pyval) (r : result pyval)
  : result pyval :=
  match r with
  | Raise (KeyError k) => if throw then Raise (KeyError k) else Ok default
  | _ => r
  end.

(** [Hiera.get(self, key, default, merge, merge_deep, throw, context,
    kwargs)]; [merge] is a type or [None]. *)
Definition Hiera_get (fuel : nat) (hp : heap) (self : Hiera)
    (key : option string) (default : pyval) (merge : option merge_typ)
    (merge_deep throw : bool) (ctx kwargs : context_map)
  : result pyval * Hiera :=
  let new_context := assemble_context hp self ctx kwargs in
  match collect self new_context (candidate_pairs self) with
  | (Ok paths, self1) =>
      let merge' :=
        match merge with
        | Some t => Some (Merge_init t merge_deep)
        | None => None
        end in
      (or_default throw default
         (get_key W fuel (cache self1) key paths new_context merge'),
       self1)
  | (Raise e, self1) => (Raise e, self1)
  | (OutOfFuel, self1) => (OutOfFuel, self1)
  end.

(** [d.update(other)] for an argument that may be any object.  A
    mapping gives its entries.  Any other object is iterated, and each
    item is iterated in turn: it has to give exactly two objects, a
    hashable key and a value.  Python keeps a key that is not a string;
    such a key is no name of a placeholder or of a variable, so that no
    template and no call ever reads it, and the model leaves it out. *)
Definition update_pair (d : context_map) (item : pyval) : result context_map :=
  do kv <- py_iter item;
  match kv with
  | [k; v] =>
      if hashable k then
        Ok (match k with VStr name => <[name := v]> d | _ => d end)
      else Raise TypeError
  | _ => Raise ValueError
  end.

Definition update_from (d : context_map) (other : pyval) : result context_map :=
  match other with
  | VDict items =>
      Ok (fold_left (fun acc kv => <[fst kv := snd kv]> acc) items d)
  | _ => do items <- py_iter other; for_each update_pair items d
  end.

(** The names a keyword argument of [has] cannot have: [self] and [key]
    are parameters of [has] itself, and [throw] is passed by [has] to
    [get]; each raises [TypeError] when the call is made. *)
Definition has_refuses (kwargs : context_map) : bool :=
  bool_decide (is_Some (kwargs !! "self"))
  || bool_decide (is_Some (kwargs !! "key"))
  || bool_decide (is_Some (kwargs !! "throw")).

(** [Hiera.has(self, key, kwargs)], that is
    [self.get(key, throw=True, **kwargs)] with Python's binding of the
    keyword arguments: [default], [merge], [merge_deep] and [context]
    are bound to the parameters of [get] of these names, the others are
    context variables.  [context] goes through [new_context.update]
    before anything is loaded.  A truthy [merge] is handed to
    [Merge(merge, merge_deep)] once the candidate files are loaded: a
    truthy model value is an instance, not a type, so that [typ()]
    raises [TypeError]; a falsy one is no strategy. *)
Definition Hiera_has (fuel : nat) (hp : heap) (self : Hiera)
    (key : option string) (kwargs : context_map) : result bool * Hiera :=
  if has_refuses kwargs then (Raise TypeError, self)
  else
    let default := context_get kwargs "default" in
    let merge := context_get kwargs "merge" in
    let merge_deep := truthy (match kwargs !! "merge_deep" with
                              | Some v => v
                              | None => VBool false
                              end) in
    let variables :=
      delete "default"
        (delete "merge" (delete "merge_deep" (delete "context" kwargs))) in
    match (match kwargs !! "context" with
           | Some c => update_from ∅ c
           | None => Ok ∅
           end) with
    | Ok ctx =>
        if truthy merge then
          match collect self (assemble_context hp self ctx variables)
                  (candidate_pairs self) with
          | (Ok _, self1) => (Raise TypeError, self1)
          | (Raise e, self1) => (Raise e, self1)
          | (OutOfFuel, self1) => (OutOfFuel, self1)
          end
        else
          match Hiera_get fuel hp self key default None merge_deep true
                  ctx variables with
          | (Ok _, self1) => (Ok true, self1)
          | (Raise (KeyError _), self1) => (Ok false, self1)
          | (Raise e, self1) => (Raise e, self1)
          | (OutOfFuel, self1) => (OutOfFuel, self1)
          end
    | Raise e => (Raise e, self)
    | OutOfFuel => (OutOfFuel, self)
    end.

(** The base configuration handed to the constructor: a dictionary, the
    path of a file, or an open stream (its content). *)
Inductive base_config : Type :=
  | BaseDict (d : list (string * pyval))
  | BasePath (p : string)
  | BaseStream (content : string).

Definition default_backends : list backend_class :=
  [YAMLBackend; SopsYAMLBackend; JSONBackend].

Definition as_string (v : pyval) : result string :=
  match v with VStr s => Ok s | _ => Raise TypeError end.

(** The loop of [load] that builds [self.backends]. *)
Definition load_backend (classes : list backend_class) (base : pyval)
    (acc : list (string * Backend)) (backend : pyval)
  : result (list (string * Backend)) :=
  match List.filter (fun c => py_eq (VStr (NAME c)) backend) classes with
  | [] => Raise (Exception_ (InvalidBackend backend))
  | c :: _ =>
      do o <- sym_lookup base (NAME c) VNone;
      do b <- Backend_init c o;
      Ok (odict_set acc (NAME c) b)
  end.

(** [Hiera.load(self, backends)], called by the constructor without
    [base_path]; it ends with [self.get(None)]. *)
Definition Hiera_load (fuel : nat) (hp : heap) (config : base_config)
    (classes : list backend_class) (context : loc) : result Hiera :=
  do bb <-
    match config with
    | BaseDict d => Ok (VDict d, os_getcwd W)
    | BasePath p =>
        do content <- open_read W p;
        do b <- yaml_load W content;
        Ok (b, os_path_dirname W p)
    | BaseStream content =>
        do b <- yaml_load W content;
        Ok (b, os_getcwd W)
    end;
  let base := fst bb in
  if negb (truthy base) then Raise (Exception_ FailedToParseBase)
  else
    do names <- sym_lookup base "backends" VNone;
    do names' <- py_iter names;
    do bs <- for_each (load_backend classes base) names' [];
    if Nat.eqb (length bs) 0 then Raise (Exception_ NoBackends)
    else
      do hier <- sym_lookup base "hierarchy" VNone;
      if is_none hier then Raise (Exception_ MissingHierarchy)
      else
        do levels <- py_iter hier;
        do levels' <-
          for_each (fun acc path =>
                      do s <- as_string path; Ok (acc ++ [rformat_sub s]))
            levels [];
        do bs' <-
          for_each (fun acc b =>
                      do d <- as_string (datadir (snd b));
                      Ok (acc ++ [(fst b,
                                   mkBackend (cls (snd b)) (obj (snd b))
                                     (VStr (rformat_sub d)))]))
            bs [];
        let self := mkHiera base (snd bb) bs' levels' context ∅ [] in
        match Hiera_get fuel hp self None VNone None false false ∅ ∅ with
        | (Ok _, self1) => Ok self1
        | (Raise e, _) => Raise e
        | (OutOfFuel, _) => OutOfFuel
        end.

(** [Hiera.__init__(self, base_config, backends, base_path, context,
    kwargs)]: [context] is the dictionary object given by the caller,
    or [None] when the argument is omitted. *)
Definition Hiera_init (fuel : nat) (hp : heap) (config : base_config)
    (classes : option (list backend_class)) (context : option loc)
    (kwargs : context_map) : result Hiera * heap :=
  let c := match context with
           | Some l => l
           | None => Hiera_init_default_context
           end in
  let hp' := heap_update hp c kwargs in
  (Hiera_load fuel hp' config
     (match classes with
      | Some (c :: cs) => c :: cs
      | _ => default_backends
      end) c,
   hp').
End Lookup.

(** ** [ScopedHiera] (phiera.py) *)

(** The attribute [hiera] of a view refers to the parent engine; the
    methods below take the current state of that engine and return it. *)
Record ScopedHiera : Type := mkScopedHiera {
  scoped_context : loc
}.

(** [Hiera.scoped(self, context, kwargs)] *)
Definition Hiera_scoped (hp : heap) (context : option loc)
    (kwargs : context_map) : ScopedHiera * heap :=
  let c := match context with
           | Some l => l
           | None => Hiera_scoped_default_context
           end in
  (mkScopedHiera c, heap_update hp c kwargs).

Section Scoped.
Variable W : World.

(** The keyword arguments [ScopedHiera.has] hands to [Hiera.has]:
    [kwargs.update(self.context)]. *)
Definition ScopedHiera_has_kwargs (hp : heap) (view : ScopedHiera)
    (kwargs : context_map) : context_map :=
  update kwargs (heap_get hp (scoped_context view)).

(** [ScopedHiera.has(self, key, kwargs)] *)
Definition ScopedHiera_has (fuel : nat) (hp : heap) (view : ScopedHiera)
    (parent : Hiera) (key : option string) (kwargs : context_map)
  : result bool * Hiera :=
  Hiera_has W fuel hp parent key (ScopedHiera_has_kwargs hp view kwargs).

(** The context [ScopedHiera.get] hands to [Hiera.get]. *)
Definition ScopedHiera_get_context (hp : heap) (view : ScopedHiera)
    (ctx kwargs : context_map) : context_map :=
  update (update (update ∅ (heap_get hp (scoped_context view))) ctx) kwargs.

(** [ScopedHiera.get(self, key, default, merge, merge_deep, throw,
    context, kwargs)] *)
Definition ScopedHiera_get (fuel : nat) (hp : heap) (view : ScopedHiera)
    (parent : Hiera) (key : option string) (default : pyval)
    (merge : option merge_typ) (merge_deep throw : bool)
    (ctx kwargs : context_map) : result pyval * Hiera :=
  Hiera_get W fuel hp parent key default merge merge_deep throw
    (ScopedHiera_get_context hp view ctx kwargs) ∅.
End Scoped.

(** ** What a candidate path says about a key *)

(** The test [get_key] makes on one document: the key is absent when
    the document is empty ([None]), when the lookup raises [KeyError],
    or when the value found is [None]. *)
Definition lacks (doc : pyval) (key : string) : bool :=
  match doc with
  | VNone => true
  | VDict _ =>
      match lookup doc key with
      | Ok VNone => true
      | Raise (KeyError _) => true
      | _ => false
      end
  | _ => false
  end.

Definition path_lacks (c : gmap string pyval) (key path : string) : bool :=
  match c !! path with
  | Some doc => lacks doc key
  | None => false
  end.

(** The raw value a candidate path holds for the key, when it has one. *)
Definition path_holds (c : gmap string pyval) (key path : string)
  : option pyval :=
  match c !! path with
  | Some (VDict d) =>
      match lookup (VDict d) key with
      | Ok v => if is_none v then None else Some v
      | _ => None
      end
  | _ => None
  end.

(** The exceptions a step of the lookup can raise. *)
Definition lookup_error (e : exn) : Prop :=
  (exists seg, e = KeyError (Some seg)) \/ e = IndexError
  \/ e = ValueError \/ e = TypeError.

(** ** Bare interpolation, occurrence by occurrence

    What the substitution of every bare occurrence, from left to right,
    by the value of its variable gives: the text a falsy or absent
    variable contributes is empty. *)
Definition bare_value (ctx : context_map) (name : string) : string :=
  match context_get ctx name with
  | VStr r => r
  | _ => EmptyString
  end.

Definition interpolate_all (ctx : context_map) (s : string) : string :=
  re_sub_all match_interpolate (bare_value ctx) s.

Fixpoint string_forallb (p : ascii -> bool) (s : string) : bool :=
  match s with
  | EmptyString => true
  | String c s' => p c && string_forallb p s'
  end.

(** A replacement text without percent sign, opening brace or
    backslash. *)
Definition plain (r : string) : bool :=
  string_forallb
    (fun c => negb (Ascii.eqb c "%" || Ascii.eqb c "{" || Ascii.eqb c backslash))
    r.

(** A context value that is falsy, or a plain string. *)
Definition plain_value (v : pyval) : bool :=
  match v with
  | VStr r => plain r
  | _ => negb (truthy v)
  end.

(** Every percent sign of [t] is followed, in [t], by a character other
    than the opening brace. *)
Fixpoint clean (t : string) : bool :=
  match t with
  | EmptyString => true
  | String c t' =>
      negb (Ascii.eqb c "%"
            && match t' with
               | EmptyString => true
               | String c' _ => Ascii.eqb c' "{"
               end)
      && clean t'
  end.

(** ** Templates made of text and plain fields

    The placeholders of a template, for a template in which every brace
    belongs to a field [{name}] whose name has no brace, dot, bracket,
    exclamation mark or colon and is not a number: this is what
    [rformat] makes of the placeholders of the configuration. *)
Definition simple_name (name : string) : bool :=
  negb (all_digits name)
  && string_forallb
       (fun c => negb (field_special c || Ascii.eqb c "{" || Ascii.eqb c "}"))
       name.

Fixpoint template_fields_upto (n : nat) (t : string) : option (list string) :=
  match n with
  | O => match t with EmptyString => Some [] | _ => None end
  | S n' =>
      match t with
      | EmptyString => Some []
      | String c t' =>
          if Ascii.eqb c "{" then
            let (name, r) := span (fun c => negb (Ascii.eqb c "}")) t' in
            match r with
            | String _ rest =>
                if simple_name name then
                  option_map (cons name) (template_fields_upto n' rest)
                else None
            | EmptyString => None
            end
          else if Ascii.eqb c "}" then None
          else template_fields_upto n' t'
      end
  end.

Definition template_fields (t : string) : option (list string) :=
  template_fields_upto (String.length t) t.

(** A variable the keyword arguments do not provide. *)
Definition missing (kwargs : context_map) (name : string) : bool :=
  negb (bool_decide (is_Some (kwargs !! name))).

(** The string that is one alias call of [k], in single quotes, and
    nothing else. *)
Definition alias_call (k : string) : string := "%{alias('" +:+ k +:+ "')}".

(** [r'] is the outcome [r], or [r] ran out of fuel. *)
Definition refines {A : Type} (r r' : result A) : Prop :=
  r = OutOfFuel \/ r = r'.

(** ** Notions used to state the properties of the engine *)

(** The keys of an ordered mapping are distinct. *)
Fixpoint nodup_keys {V : Type} (d : list (string * V)) : bool :=
  match d with
  | [] => true
  | (k, _) :: d' => negb (odict_mem d' k) && nodup_keys d'
  end.

(** A value in which no string can be resolved, down to depth [n]:
    scalars, strings without function call or interpolation, and the
    lists and mappings of such values. *)
Fixpoint inert (n : nat) (v : pyval) : bool :=
  match n with
  | O => false
  | S n' =>
      match v with
      | VStr _ => negb (can_resolve v)
      | VList l => forallb (inert n') l
      | VDict d => nodup_keys d && forallb (fun kv => inert n' (snd kv)) d
      | _ => true
      end
  end.

(** The raw values the candidate paths hold for [key], in the order of
    the paths. *)
Fixpoint held_values (c : gmap string pyval) (key : string) (ps : list string)
  : list pyval :=
  match ps with
  | [] => []
  | p :: ps' =>
      match path_holds c key p with
      | Some v => v :: held_values c key ps'
      | None => held_values c key ps'
      end
  end.

(** The document of [path] either lacks [key] or holds a value for it:
    the lookup in it does not crash. *)
Definition path_decided (c : gmap string pyval) (key path : string) : bool :=
  path_lacks c key path
  || match path_holds c key path with Some _ => true | None => false end.

(** The value of [k] in the first of the mappings [ds] that has it. *)
Fixpoint first_binding (ds : list (list (string * pyval))) (k : string)
  : option pyval :=
  match ds with
  | [] => None
  | d :: ds' =>
      match odict_get d k with
      | Some v => Some v
      | None => first_binding ds' k
      end
  end.

(** The body of the loop of [merge_value] on a mapping without [deep]:
    [if k not in self.value: self.value[k] = v]. *)
Definition shallow_step (acc : list (string * pyval)) (kv : string * pyval)
  : list (string * pyval) :=
  if odict_mem acc (fst kv) then acc else odict_set acc (fst kv) (snd kv).

(** [deep_merge] of the mappings [ds] into [acc], one after the other. *)
Fixpoint deep_merge_all (acc : list (string * pyval))
    (ds : list (list (string * pyval))) : pyval :=
  match ds with
  | [] => VDict acc
  | d :: ds' =>
      match deep_merge acc (VDict d) with
      | VDict r => deep_merge_all r ds'
      | other => other
      end
  end.

(** The attributes of an engine that [load] sets and [get] reads. *)
Definition config (self : Hiera)
  : pyval * string * list (string * Backend) * list string * loc :=
  (base self, base_path self, backends self, hierarchy self, context self).

(** What loading keeps from [self] to [self1]: the configuration and
    the documents already cached; and every path handed back is
    cached. *)
Definition load_keeps (self self1 : Hiera) (ps : option (list string)) : Prop :=
  config self1 = config self
  /\ cache self ⊆ cache self1
  /\ match ps with
     | Some ps => Forall (fun p => is_Some (cache self1 !! p)) ps
     | None => True
     end.

Definition paths_of {A : Type} (r : result A) (f : A -> list string)
  : option (list string) :=
  match r with Ok a => Some (f a) | _ => None end.

(** The files [os.walk(path)] lists, joined to their directories. *)
Definition walk_paths (W : World) (path : string) : list string :=
  flat_map (fun d => map (path_join (fst d)) (snd d)) (os_walk W path).

(** An outcome other than a raised [KeyError]. *)
Definition not_key_error {A : Type} (r : result A) : Prop :=
  match r with Raise (KeyError _) => False | _ => True end.

(** A text without percent sign and without brace. *)
Definition text_only (s : string) : bool :=
  string_forallb
    (fun c => negb (Ascii.eqb c "%" || Ascii.eqb c "{" || Ascii.eqb c "}")) s.

(** The union of the lists [ls] into the set [acc], one after the
    other, each first made a set of its own as [set(value)] does. *)
Definition set_union_all (acc : list pyval) (ls : list (list pyval))
  : list pyval :=
  fold_left (fun acc l => set_add_all acc (set_add_all [] l)) ls acc.

(** The keyword arguments of a call of [has] that are all context
    variables: none has the name of a parameter of [has] or of [get]. *)
Definition plain_keywords (kwargs : context_map) : bool :=
  forallb (fun name => negb (bool_decide (is_Some (kwargs !! name))))
    ["self"; "key"; "throw"; "default"; "merge"; "merge_deep"; "context"].

(** [backend.load(backend.read_file(path))] *)
Definition parse_file (W : World) (b : Backend) (path : string)
  : result pyval :=
  do raw <- read_file W (cls b) path; Backend_load W (cls b) raw.

(** [load_file] on each path of a list, in order, with one backend,
    until one fails: the paths handed back and the engine afterwards. *)
Fixpoint load_each (W : World) (self : Hiera) (paths : list string)
    (b : Backend) : result (list string) * Hiera :=
  match paths with
  | [] => (Ok [], self)
  | p :: paths' =>
      match load_file W self p b false with
      | (Ok p', self1) =>
          match load_each W self1 paths' b with
          | (Ok ps, self2) => (Ok (p' :: ps), self2)
          | r => r
          end
      | (Raise e, self1) => (Raise e, self1)
      | (OutOfFuel, self1) => (OutOfFuel, self1)
      end
  end.

(** The files one candidate of [get] loads, given the path its
    templates render to: the files of the walk of a directory, or the
    one file with the extension of the backend when it exists. *)
Definition candidate_files (W : World) (path : string) (b : Backend)
  : list string :=
  if os_path_isdir W path then walk_paths W path
  else if os_path_exists W (path +:+ "." +:+ NAME (cls b))
       then [path +:+ "." +:+ NAME (cls b)]
       else [].

(** The paths one backend and one level of the hierarchy contribute,
    read off the file system alone: none when a template does not
    render. *)
Definition candidate_paths (W : World) (base_path : string)
    (ctx : context_map) (b : Backend) (level : string) : list string :=
  match datadir b with
  | VStr d =>
      match py_format W ctx d, py_format W ctx level with
      | Ok d', Ok p' =>
          candidate_files W (path_join (path_join base_path d') p') b
      | _, _ => []
      end
  | _ => []
  end.

(** The candidate paths of an engine: for each backend in turn, the
    paths of each level of the hierarchy in turn. *)
Definition backend_major_paths (W : World) (self : Hiera)
    (ctx : context_map) : list string :=
  concat
    (map (fun kb =>
            concat (map (candidate_paths W (base_path self) ctx (snd kb))
                      (hierarchy self)))
       (backends self)).

(** Null, booleans, integers and strings. *)
Definition is_scalar (v : pyval) : bool :=
  match v with
  | VNone | VBool _ | VInt _ | VStr _ => true
  | _ => false
  end.

(** No two elements are equal (Python [==]). *)
Fixpoint distinct (l : list pyval) : bool :=
  match l with
  | [] => true
  | x :: l' => negb (py_in x l') && distinct l'
  end.

(** ** A small installation, for examples

    One YAML backend on [/data], a hierarchy of two levels (the
    environment, then [common]), three readable documents and one file
    that does not parse.  The content of a file is modelled by its
    path. *)
Definition example_documents : list (string * pyval) :=
  [("/data/prod.yaml",
    VDict [("k", VStr "prod");
           ("servers", VList [VStr "a"; VStr "b"]);
           ("pool", VStr "%{alias('servers')}");
           ("mixed", VStr "x%{alias('servers')}");
           ("dangling", VStr "%{alias('nope')}")]);
   ("/data/dev.yaml", VDict [("k", VStr "dev"); ("only_dev", VInt 1)]);
   ("/data/common.yaml", VDict [("k", VStr "common"); ("c", VInt 3)])].

Definition example_files : list string :=
  ["/data/prod.yaml"; "/data/dev.yaml"; "/data/common.yaml";
   "/data/broken.yaml"].

Definition example_world : World :=
  mkWorld "/" (fun p => p) (fun p => p)
    (fun _ => false)
    (fun p => existsb (String.eqb p) example_files)
    (fun _ => [])
    (fun p => if existsb (String.eqb p) example_files then Ok p
              else Raise (External "FileNotFoundError"))
    (fun _ => Raise (External "CalledProcessError"))
    (fun content =>
       match odict_get example_documents content with
       | Some doc => Ok doc
       | None => Raise (External "YAMLError")
       end)
    (fun _ => Raise (External "JSONDecodeError"))
    (fun _ _ => Raise (External "re.error"))
    (fun _ _ _ => Raise ValueError)
    (fun _ => "<repr>").

Definition example_config : base_config :=
  BaseDict [("backends", VList [VStr "yaml"]);
            ("yaml", VDict [("datadir", VStr "/data")]);
            ("hierarchy", VList [VStr "%{env}"; VStr "common"])].

(** The engine [Hiera(example_config)] builds, before any document is
    loaded. *)
Definition example_engine : Hiera :=
  mkHiera
    (VDict [("backends", VList [VStr "yaml"]);
            ("yaml", VDict [("datadir", VStr "/data")]);
            ("hierarchy", VList [VStr "%{env}"; VStr "common"])])
    "/"
    [("yaml", mkBackend YAMLBackend (VDict [("datadir", VStr "/data")])
                (VStr "/data"))]
    ["{env}"; "common"]
    Hiera_init_default_context ∅ [].

(** Three documents that hold the same keys, for the merge strategies. *)
Definition example_layers : gmap string pyval :=
  list_to_map
    [("/a.yaml",
      VDict [("l", VList [VInt 1; VInt 2]);
             ("d", VDict [("x", VInt 1); ("n", VDict [("p", VInt 1)])]);
             ("s", VStr "a")]);
     ("/b.yaml", VDict [("other", VInt 0)]);
     ("/c.yaml",
      VDict [("l", VList [VInt 2; VInt 3]);
             ("d", VDict [("x", VInt 2); ("y", VInt 3);
                          ("n", VDict [("q", VInt 2)])]);
             ("s", VStr "c")])].

Definition example_layer_paths : list string :=
  ["/a.yaml"; "/b.yaml"; "/c.yaml"].

(** The same installation with a directory [/data/nodes] of two files,
    one of them with the extension of another backend. *)
Definition example_tree_world : World :=
  mkWorld "/" (fun p => p)
    (fun f => if String.eqb f "db.json" then ".json" else ".yaml")
    (fun p => String.eqb p "/data/nodes")
    (fun p => existsb (String.eqb p) example_files)
    (fun p => if String.eqb p "/data/nodes"
              then [("/data/nodes", ["web.yaml"; "db.json"])] else [])
    (fun p => Ok p)
    (fun _ => Raise (External "CalledProcessError"))
    (fun content =>
       if String.eqb content "/data/nodes/web.yaml"
       then Ok (VDict [("role", VStr "web")])
       else if String.eqb content "/data/nodes/db.json"
       then Ok (VDict [("role", VStr "db")])
       else match odict_get example_documents content with
            | Some doc => Ok doc
            | None => Raise (External "YAMLError")
            end)
    (fun _ => Raise (External "JSONDecodeError"))
    (fun _ _ => Raise (External "re.error"))
    (fun _ _ _ => Raise ValueError)
    (fun _ => "<repr>").

(** ** A second installation, with two backends and a directory

    The extension of a file name is its text from the last dot on; a
    file system is given by its directories (with what a walk lists),
    its files and the documents the parsers find in them. *)
Fixpoint file_ext (f : string) : string :=
  match f with
  | EmptyString => EmptyString
  | String c f' =>
      match file_ext f' with
      | EmptyString => if Ascii.eqb c "." then f else EmptyString
      | e => e
      end
  end.

Definition world_of (dirs : list (string * list (string * list string)))
    (files : list string) (docs : list (string * pyval)) : World :=
  mkWorld "/" (fun p => p) file_ext
    (fun p => match odict_get dirs p with Some _ => true | None => false end)
    (fun p => existsb (String.eqb p) files)
    (fun p => match odict_get dirs p with Some w => w | None => [] end)
    (fun p => if existsb (String.eqb p) files then Ok p
              else Raise (External "FileNotFoundError"))
    (fun _ => Raise (External "CalledProcessError"))
    (fun content =>
       match odict_get docs content with
       | Some doc => Ok doc
       | None => Raise (External "YAMLError")
       end)
    (fun content =>
       match odict_get docs content with
       | Some doc => Ok doc
       | None => Raise (External "JSONDecodeError")
       end)
    (fun _ _ => Raise (External "re.error"))
    (fun _ _ _ => Raise ValueError)
    (fun _ => "<repr>").

Definition site_documents : list (string * pyval) :=
  [("/site/prod.yaml", VDict [("motd", VStr "prod")]);
   ("/site/common.yaml",
    VDict [("url", VStr "http://%{scope('host')}/%{env}");
           ("motd", VStr "common");
           ("ref", VStr "see %{hiera('nowhere')}")]);
   ("/site/prod.json", VDict [("url", VStr "json"); ("port", VInt 8080)]);
   ("/site/common.json", VDict [("port", VInt 80)]);
   ("/site/nodes/web.yaml", VDict [("role", VStr "web")]);
   ("/site/nodes/db.yaml", VDict [("role", VStr "db")]);
   ("/shadow/prod.yaml", VDict [("k", VStr "scalar")]);
   ("/shadow/common.yaml", VDict [("k", VDict [("x", VInt 1)])])].

Definition site_world : World :=
  world_of
    [("/site/nodes", [("/site/nodes", ["web.yaml"; "broken.yaml"; "db.yaml"])])]
    ["/site/prod.yaml"; "/site/common.yaml"; "/site/prod.json";
     "/site/common.json"; "/site/nodes/web.yaml"; "/site/nodes/broken.yaml";
     "/site/nodes/db.yaml"; "/shadow/prod.yaml"; "/shadow/common.yaml"]
    site_documents.

Definition site_yaml : Backend :=
  mkBackend YAMLBackend (VDict [("datadir", VStr "/site")]) (VStr "/site").

Definition site_json : Backend :=
  mkBackend JSONBackend (VDict [("datadir", VStr "/site")]) (VStr "/site").

(** Two backends on [/site], the environment above [common]. *)
Definition site_engine : Hiera :=
  mkHiera
    (VDict [("backends", VList [VStr "yaml"; VStr "json"]);
            ("yaml", VDict [("datadir", VStr "/site")]);
            ("json", VDict [("datadir", VStr "/site")]);
            ("hierarchy", VList [VStr "%{env}"; VStr "common"])])
    "/"
    [("yaml", site_yaml); ("json", site_json)]
    ["{env}"; "common"]
    Hiera_init_default_context ∅ [].

(** One backend on [/site], [common] above the directory [nodes]. *)
Definition nodes_engine : Hiera :=
  mkHiera
    (VDict [("backends", VList [VStr "yaml"]);
            ("yaml", VDict [("datadir", VStr "/site")]);
            ("hierarchy", VList [VStr "common"; VStr "nodes"])])
    "/"
    [("yaml", site_yaml)]
    ["common"; "nodes"]
    Hiera_init_default_context ∅ [].

(** One backend on [/shadow]: the environment overrides a mapping of
    [common] by a string. *)
Definition shadow_engine : Hiera :=
  mkHiera
    (VDict [("backends", VList [VStr "yaml"]);
            ("yaml", VDict [("datadir", VStr "/shadow")]);
            ("hierarchy", VList [VStr "%{env}"; VStr "common"])])
    "/"
    [("yaml", mkBackend YAMLBackend (VDict [("datadir", VStr "/shadow")])
                (VStr "/shadow"))]
    ["{env}"; "common"]
    Hiera_init_default_context ∅ [].

(** Three documents in which lists come before a string. *)
Definition example_mixed_layers : gmap string pyval :=
  list_to_map
    [("/a.yaml", VDict [("m", VList [VInt 1; VInt 2])]);
     ("/b.yaml", VDict [("m", VList [VStr "x"])]);
     ("/c.yaml", VDict [("m", VStr "yz")])].

(** * Properties *)

#[local] Arguments String.append !s1 s2 : simpl nomatch.

(** ** Ordered mappings *)

Lemma odict_get_set_eq {V : Type} (d : list (string * V)) k v :
  odict_get (odict_set d k v) k = Some v.
Proof.
  induction d as [|[k' v'] d IH]; simpl.
  - now rewrite String.eqb_refl.
  - destruct (String.eqb k' k) eqn:E; simpl.
    + now rewrite String.eqb_refl.
    + now rewrite E.
Qed.

Lemma odict_get_set_ne {V : Type} (d : list (string * V)) k k' v :
  k' <> k -> odict_get (odict_set d k' v) k = odict_get d k.
Proof.
  intros Hne. induction d as [|[k2 v2] d IH]; simpl.
  - destruct (String.eqb k' k) eqn:E; [|reflexivity].
    apply String.eqb_eq in E. contradiction.
  - destruct (String.eqb k2 k') eqn:E; simpl.
    + apply String.eqb_eq in E. subst k2.
      destruct (String.eqb k' k) eqn:E2; [|reflexivity].
      apply String.eqb_eq in E2. contradiction.
    + destruct (String.eqb k2 k); [reflexivity|apply IH].
Qed.

Lemma odict_get_None_notin {V : Type} (d : list (string * V)) k :
  ~ In k (map fst d) -> odict_get d k = None.
Proof.
  induction d as [|[k' v'] d IH]; simpl; [reflexivity|].
  intros Hn. destruct (String.eqb k' k) eqn:E.
  - apply String.eqb_eq in E. tauto.
  - apply IH. tauto.
Qed.

(** ** [LookupDict.lookup] *)

Lemma list_index_outcome l n :
  (exists v, list_index l n = Ok v) \/ list_index l n = Raise IndexError.
Proof.
  unfold list_index.
  destruct ((if n <? 0 then n + Z.of_nat (length l) else n) <? 0); [now right|].
  destruct (nth_error _ _); [left; eauto | now right].
Qed.

Lemma lookup_step_outcome o seg :
  (exists v, lookup_step o seg = Ok v)
  \/ (exists e, lookup_step o seg = Raise e /\ lookup_error e).
Proof.
  unfold lookup_error.
  destruct o; simpl; try (right; eexists; split; [reflexivity|tauto]).
  - destruct (py_int seg).
    + destruct (list_index_outcome l z) as [[v ->]| ->]; [left; eauto|].
      right; eexists; split; [reflexivity|tauto].
    + right; eexists; split; [reflexivity|tauto].
  - destruct (odict_get d seg); [left; eauto|].
    right; eexists; split; [reflexivity|]. left; eauto.
Qed.

Lemma for_each_lookup_outcome segs o :
  (exists v, for_each lookup_step segs o = Ok v)
  \/ (exists e, for_each lookup_step segs o = Raise e /\ lookup_error e).
Proof.
  revert o. induction segs as [|seg segs IH]; intros o; simpl.
  - left; eauto.
  - destruct (lookup_step_outcome o seg) as [[v ->]|[e [-> He]]]; simpl.
    + apply IH.
    + right; eauto.
Qed.

(** ** [Merge.deep_merge] *)

Lemma deep_merge_fold a bd :
  deep_merge a (VDict bd) = VDict (fold_left deep_merge_step bd a).
Proof.
  simpl. f_equal. revert a.
  induction bd as [|[k v] bd IH]; intros a; simpl; [reflexivity|].
  rewrite IH. reflexivity.
Qed.

Lemma deep_merge_step_other result k k' v :
  k' <> k -> odict_get (deep_merge_step result (k', v)) k = odict_get result k.
Proof.
  intros Hne. unfold deep_merge_step.
  destruct (odict_get result k') as [[]|]; try destruct v;
    now apply odict_get_set_ne.
Qed.

Lemma fold_deep_merge_step_other bd result k :
  ~ In k (map fst bd) ->
  odict_get (fold_left deep_merge_step bd result) k = odict_get result k.
Proof.
  revert result. induction bd as [|[k' v] bd IH]; intros result Hn; simpl.
  - reflexivity.
  - simpl in Hn. rewrite IH by tauto.
    apply deep_merge_step_other. intros ->. tauto.
Qed.

(** C5. Deep merge, for a key whose value on the accumulator side is a
    sequence [acc]: when the new side holds a sequence for the key, the
    result holds [acc], in order, followed by the new elements that are
    not equal to an element of [acc]; when the new side holds anything
    else, that value is appended to [acc].  In particular the deep merge
    of [{list: [1, 2]}] and [{list: [2, 3]}] is [{list: [1, 2, 3]}]. *)
Theorem deep_merge_sequences (a b : list (string * pyval)) (k : string)
    (acc : list pyval) (v : pyval) :
  NoDup (map fst b) ->
  odict_get a k = Some (VList acc) ->
  odict_get b k = Some v ->
  (exists result,
     deep_merge a (VDict b) = VDict result
     /\ odict_get result k
        = Some (match v with
                | VList new =>
                    VList (acc ++ List.filter (fun x => negb (py_in x acc)) new)
                | _ => VList (acc ++ [v])
                end))
  /\ deep_merge [("list", VList [VInt 1; VInt 2])]
       (VDict [("list", VList [VInt 2; VInt 3])])
     = VDict [("list", VList [VInt 1; VInt 2; VInt 3])].
Proof.
  intros Hnd Ha Hb. split; [|reflexivity].
  rewrite deep_merge_fold. eexists; split; [reflexivity|].
  revert a Ha Hnd Hb.
  induction b as [|[k' v'] b IH]; intros a Ha Hnd Hb; [discriminate|].
  simpl in Hnd. apply NoDup_cons in Hnd as [Hk' Hnd].
  simpl in Hb. cbn [fold_left].
  destruct (String.eqb k' k) eqn:E.
  - apply String.eqb_eq in E. subst k'. injection Hb as ->.
    change (map fst b) with (List.map fst b) in Hk'.
    rewrite fold_deep_merge_step_other.
    + unfold deep_merge_step. rewrite Ha.
      destruct v; apply odict_get_set_eq.
    + intros Hin. apply Hk'. apply list_elem_of_In. exact Hin.
  - apply IH; [|exact Hnd|exact Hb].
    rewrite deep_merge_step_other; [exact Ha|].
    intros ->. rewrite String.eqb_refl in E. discriminate.
Qed.

Lemma deep_merge_sequences_witness :
  exists result,
    deep_merge [("list", VList [VInt 1; VInt 2]); ("n", VList [VInt 1])]
      (VDict [("n", VInt 1); ("list", VList [VInt 2; VInt 3; VInt 3])])
    = VDict result
    /\ odict_get result "list"
       = Some (VList [VInt 1; VInt 2; VInt 3; VInt 3]).
Proof.
  refine (proj1 (deep_merge_sequences
            [("list", VList [VInt 1; VInt 2]); ("n", VList [VInt 1])]
            [("n", VInt 1); ("list", VList [VInt 2; VInt 3; VInt 3])]
            "list" [VInt 1; VInt 2] (VList [VInt 2; VInt 3; VInt 3]) _ _ _)).
  - repeat constructor; intros H; inversion H; subst;
      try discriminate; match goal with H' : _ ∈ [] |- _ => inversion H' end.
  - reflexivity.
  - reflexivity.
Defined.

(** ** [get_key] and the document lookup *)

Lemma get_key_eq W fuel cache key paths ctx merge :
  get_key W (S fuel) cache key paths ctx merge
  = get_key_loop cache (fun s m => resolve W fuel cache s paths ctx m)
      key merge paths None.
Proof. reflexivity. Qed.

Lemma resolve_eq W fuel cache s paths ctx merge :
  resolve W (S fuel) cache s paths ctx merge
  = resolve_body W ctx
      (fun k m => get_key W fuel cache k paths ctx m)
      (fun s m => resolve W fuel cache s paths ctx m) s merge.
Proof. reflexivity. Qed.

Lemma lookup_outcome doc key :
  (exists v, lookup doc key = Ok v)
  \/ (exists e, lookup doc key = Raise e /\ lookup_error e).
Proof. apply for_each_lookup_outcome. Qed.

(** When each exception of a lookup step arises. *)
Lemma lookup_step_cases o seg :
  lookup_step o seg
  = match o with
    | VDict d =>
        match odict_get d seg with
        | Some v => Ok v
        | None => Raise (KeyError (Some seg))
        end
    | VList l =>
        match py_int seg with
        | None => Raise ValueError
        | Some n =>
            if (n <? - Z.of_nat (length l)) || (Z.of_nat (length l) <=? n)
            then Raise IndexError
            else list_index l n
        end
    | _ => Raise TypeError
    end.
Proof.
  destruct o; try reflexivity. simpl.
  destruct (py_int seg) as [n|]; [|reflexivity].
  destruct ((n <? - Z.of_nat (length l)) || (Z.of_nat (length l) <=? n)) eqn:E;
    [|reflexivity].
  unfold list_index.
  apply orb_true_iff in E as [E|E].
  - apply Z.ltb_lt in E.
    replace (n <? 0) with true by (symmetry; apply Z.ltb_lt; lia).
    replace (n + Z.of_nat (length l) <? 0) with true
      by (symmetry; apply Z.ltb_lt; lia).
    reflexivity.
  - apply Z.leb_le in E.
    replace (n <? 0) with false by (symmetry; apply Z.ltb_ge; lia).
    replace (n <? 0) with false by (symmetry; apply Z.ltb_ge; lia).
    destruct (nth_error l (Z.to_nat n)) eqn:Hn; [|reflexivity].
    assert (Z.to_nat n < length l)%nat by (apply nth_error_Some; congruence).
    lia.
Qed.

(** C3. The claim fails on this input: the lookup of [servers.5] in a
    document whose list [servers] has two elements raises [IndexError],
    no signal of absence, and [get] raises it whatever the default. *)
Lemma lookup_index_crash :
  lookup (VDict [("servers", VList [VStr "a"; VStr "b"])]) "servers.5"
  = Raise IndexError
  /\ fst (Hiera_get example_world 5 ∅ example_engine (Some "servers.5")
            (VInt 42) None false false ∅ {["env" := VStr "prod"]})
     = Raise IndexError.
Proof. split; vm_compute; reflexivity. Qed.

(** ** The scan of [get_key] *)

Section Scan.
Variable c : gmap string pyval.
Variable R : pyval -> option Merge -> result pyval.

Lemma get_key_loop_lacks key merge p ps merges :
  path_lacks c key p = true ->
  get_key_loop c R (Some key) merge (p :: ps) merges
  = get_key_loop c R (Some key) merge ps merges.
Proof.
  unfold path_lacks, lacks. cbn [get_key_loop].
  destruct (c !! p) as [doc|]; [|discriminate].
  destruct doc; try discriminate; [reflexivity|].
  cbn [is_none negb try_lookup].
  destruct (lookup (VDict d) key) as [v|e|]; try discriminate.
  - destruct v; try discriminate. reflexivity.
  - destruct e; try discriminate. reflexivity.
Qed.

Lemma get_key_loop_skip key merge pre ps merges :
  forallb (path_lacks c key) pre = true ->
  get_key_loop c R (Some key) merge (pre ++ ps) merges
  = get_key_loop c R (Some key) merge ps merges.
Proof.
  induction pre as [|p pre IH]; [reflexivity|].
  cbn [forallb]. intros H. apply andb_true_iff in H as [Hp Hpre].
  rewrite <- app_comm_cons, get_key_loop_lacks by exact Hp. auto.
Qed.

Lemma get_key_loop_all_lack key merge ps :
  forallb (path_lacks c key) ps = true ->
  get_key_loop c R (Some key) merge ps None = Raise (KeyError (Some key)).
Proof.
  intros H. rewrite <- (app_nil_r ps), get_key_loop_skip by exact H.
  cbn [get_key_loop]. destruct merge; reflexivity.
Qed.

Lemma get_key_loop_holds key p ps v :
  path_holds c key p = Some v ->
  get_key_loop c R (Some key) None (p :: ps) None = R v None.
Proof.
  unfold path_holds. cbn [get_key_loop].
  destruct (c !! p) as [doc|]; [|discriminate].
  destruct doc; try discriminate.
  cbn [is_none negb try_lookup].
  destruct (lookup (VDict d) key) as [w|e|]; try discriminate.
  destruct (is_none w) eqn:Hw; [discriminate|].
  intros [= ->]. destruct v; try discriminate; cbn; destruct (R _ None); reflexivity.
Qed.
End Scan.

(** C1. The claim fails on this input.  The document of the
    environment holds a string under [k], the document of [common]
    holds a mapping with [x] under [k]: the earliest candidate path
    that contains [k.x] is the second.  The lookup of [k.x] in the
    first document raises [TypeError], which [get_key] does not catch
    as it catches [KeyError]: [get] raises instead of returning the
    value of the second path, which it returns when the first document
    is not a candidate. *)
Lemma first_match_crash :
  fst (collect site_world shadow_engine
         (assemble_context ∅ shadow_engine ∅ {["env" := VStr "prod"]})
         (candidate_pairs shadow_engine))
  = Ok ["/shadow/prod.yaml"; "/shadow/common.yaml"]
  /\ lookup (VDict [("k", VStr "scalar")]) "k.x" = Raise TypeError
  /\ lookup (VDict [("k", VDict [("x", VInt 1)])]) "k.x" = Ok (VInt 1)
  /\ fst (Hiera_get site_world 5 ∅ shadow_engine (Some "k.x") VNone None
            false false ∅ {["env" := VStr "prod"]})
     = Raise TypeError
  /\ fst (Hiera_get site_world 5 ∅ shadow_engine (Some "k.x") VNone None
            false false ∅ ∅)
     = Ok (VInt 1).
Proof. repeat split; vm_compute; reflexivity. Qed.

(** A raw value that is neither a container nor a string with markup
    is returned as it is, with fuel for the two calls ([get_key], then
    [resolve]). *)
Lemma resolve_plain W fuel cache v paths ctx merge :
  is_dict v || is_list v || can_resolve v = false ->
  resolve W (S fuel) cache v paths ctx merge = Ok v.
Proof.
  intros H. rewrite resolve_eq. unfold resolve_body.
  destruct v; try reflexivity; try discriminate.
  cbn [is_dict is_list orb] in H. rewrite H. reflexivity.
Qed.

Lemma first_match_plain W fuel hp self key default merge_deep throw ctx kwargs
    self1 pre post p v :
  collect W self (assemble_context hp self ctx kwargs) (candidate_pairs self)
  = (Ok (pre ++ p :: post), self1) ->
  forallb (path_lacks (cache self1) key) pre = true ->
  path_holds (cache self1) key p = Some v ->
  is_dict v || is_list v || can_resolve v = false ->
  Hiera_get W (S (S fuel)) hp self (Some key) default None merge_deep throw
    ctx kwargs
  = (Ok v, self1).
Proof.
  intros Hc Hpre Hp Hv. unfold Hiera_get. rewrite Hc.
  rewrite get_key_eq, get_key_loop_skip by exact Hpre.
  rewrite (get_key_loop_holds _ _ _ _ _ _ Hp).
  rewrite resolve_plain by exact Hv. reflexivity.
Qed.

(** C2. The claim fails on this input.  No candidate document holds
    [servers.5]: the list [servers] of the one has two elements, the
    other has no [servers].  The lookup raises [IndexError], which is
    not the exception [get_key] and [get] handle: [get] with a default
    raises instead of returning it, and [has] raises instead of
    answering false.  A segment that is no number raises [ValueError]
    in the same way.  This is the defect of C3 and C1: the lookup in a
    document signals absence by [KeyError] only. *)
Lemma absent_key_not_defaulted :
  fst (collect example_world example_engine
         (assemble_context ∅ example_engine ∅ {["env" := VStr "prod"]})
         (candidate_pairs example_engine))
  = Ok ["/data/prod.yaml"; "/data/common.yaml"]
  /\ path_holds (cache (snd (collect example_world example_engine
                              (assemble_context ∅ example_engine ∅
                                 {["env" := VStr "prod"]})
                              (candidate_pairs example_engine))))
       "servers.5" "/data/prod.yaml" = None
  /\ path_holds (cache (snd (collect example_world example_engine
                              (assemble_context ∅ example_engine ∅
                                 {["env" := VStr "prod"]})
                              (candidate_pairs example_engine))))
       "servers.5" "/data/common.yaml" = None
  /\ fst (Hiera_get example_world 5 ∅ example_engine (Some "servers.5")
            (VInt 42) None false false ∅ {["env" := VStr "prod"]})
     = Raise IndexError
  /\ fst (Hiera_has example_world 5 ∅ example_engine (Some "servers.5")
            {["env" := VStr "prod"]})
     = Raise IndexError
  /\ fst (Hiera_get example_world 5 ∅ example_engine (Some "servers.first")
            (VInt 42) None false false ∅ {["env" := VStr "prod"]})
     = Raise ValueError.
Proof. repeat split; vm_compute; reflexivity. Qed.

(** ** Alias calls *)

Lemma span_all p k c r :
  string_forallb p k = true -> p c = false ->
  span p (k +:+ String c r) = (k, String c r).
Proof.
  intros Hk Hc. induction k as [|x k IH].
  - cbn [String.append span]. now rewrite Hc.
  - cbn [string_forallb] in Hk. apply andb_true_iff in Hk as [Hx Hk].
    change (String x k +:+ String c r) with (String x (k +:+ String c r)).
    cbn [span]. rewrite Hx, (IH Hk). reflexivity.
Qed.

Lemma match_function_alias_call k :
  string_forallb (fun c => negb (is_quote c)) k = true ->
  match_function (alias_call k) = Some (Alias, strip_colons k, EmptyString).
Proof.
  intros Hk. unfold alias_call, match_function.
  change ("%{alias('" +:+ k +:+ "')}")
    with (String "%" (String "{" ("alias('" +:+ k +:+ "')}"))).
  cbn [strip_prefix]. rewrite !Ascii.eqb_refl.
  change ("alias('" +:+ k +:+ "')}") with ("alias" +:+ String "(" (String "'" (k +:+ "')}"))).
  assert (match_name ("alias" +:+ String "(" (String "'" (k +:+ "')}")))
          = Some (Alias, String "(" (String "'" (k +:+ "')}")))) as -> by reflexivity.
  assert (is_quote "'" = true) as -> by reflexivity.
  change (k +:+ "')}") with (k +:+ String "'" ")}").
  rewrite (span_all _ k "'" ")}" Hk eq_refl). reflexivity.
Qed.

Lemma alias_call_shape k :
  string_forallb (fun c => negb (is_quote c)) k = true ->
  function_findall (alias_call k) = [(Alias, strip_colons k)]
  /\ re_sub_all match_function (fun _ => EmptyString) (alias_call k) = EmptyString.
Proof.
  intros Hk. pose proof (match_function_alias_call k Hk) as Hm.
  unfold function_findall, re_findall, re_sub_all.
  assert (exists n, String.length (alias_call k) = S n) as [n ->]
    by (unfold alias_call; cbn; eauto).
  cbn [re_findall_upto re_sub_all_upto].
  assert (re_search match_function (alias_call k)
          = Some (EmptyString, (Alias, strip_colons k), EmptyString)) as ->.
  { unfold alias_call in *.
    change ("%{alias('" +:+ k +:+ "')}")
      with (String "%" (String "{" ("alias('" +:+ k +:+ "')}"))) in *.
    cbn [re_search]. rewrite Hm. reflexivity. }
  destruct n; split; reflexivity.
Qed.

(** Every alias call of a key without quotes is of the kind the theorem
    below speaks of; a leading pair of colons is not part of the key. *)
Lemma alias_whole_value W fuel cache paths ctx merge k :
  string_forallb (fun c => negb (is_quote c)) k = true ->
  resolve W (S fuel) cache (VStr (alias_call k)) paths ctx merge
  = match get_key W fuel cache (Some (strip_colons k)) paths ctx merge with
    | Ok (VStr b) => do b' <- resolve_interpolates W b ctx; Ok (VStr b')
    | Ok v => Ok v
    | Raise (KeyError _) => Raise (InterpolationError (strip_colons k))
    | r => r
    end.
Proof.
  intros Hk. destruct (alias_call_shape k Hk) as [Hcalls Hsub].
  rewrite resolve_eq. unfold resolve_body, can_resolve, resolve_function.
  rewrite Hcalls, Hsub. cbn [length Nat.eqb negb orb String.eqb bind].
  destruct (get_key W fuel cache (Some (strip_colons k)) paths ctx merge)
    as [v|e|]; [destruct v| destruct e|]; reflexivity.
Qed.

(** C4, as the code has it.  For a string whose only function call is an
    alias of [k]: when the string is that call and nothing else,
    resolving it gives what [get_key] gives for [k], whatever its type
    (a string so obtained then goes through the interpolation of bare
    variables, like every string), and a [KeyError] of that lookup
    becomes an [InterpolationError]; when the string has any other
    character, a plain [Exception] is raised, not an
    [InterpolationError]. *)
Theorem alias_resolution (W : World) (fuel : nat) (cache : gmap string pyval)
    (paths : list string) (ctx : context_map) (merge : option Merge)
    (s k : string) :
  function_findall s = [(Alias, k)] ->
  resolve W (S fuel) cache (VStr s) paths ctx merge
  = if String.eqb (re_sub_all match_function (fun _ => EmptyString) s)
         EmptyString
    then
      match get_key W fuel cache (Some k) paths ctx merge with
      | Ok (VStr b) => do b' <- resolve_interpolates W b ctx; Ok (VStr b')
      | Ok v => Ok v
      | Raise (KeyError _) => Raise (InterpolationError k)
      | r => r
      end
    else Raise (Exception_ (AliasInInterpolation s)).
Proof.
  intros Hcalls. rewrite resolve_eq. unfold resolve_body, can_resolve.
  rewrite Hcalls. cbn [length Nat.eqb negb orb].
  unfold resolve_function. rewrite Hcalls.
  destruct (String.eqb _ EmptyString); cbn [negb bind]; [|reflexivity].
  destruct (get_key W fuel cache (Some k) paths ctx merge) as [v|e|];
    [destruct v| destruct e|]; reflexivity.
Qed.

Lemma alias_resolution_witness :
  resolve example_world 4 (<["/data/prod.yaml" :=
              VDict [("servers", VList [VStr "a"; VStr "b"])]]> ∅)
    (VStr "%{alias('servers')}") ["/data/prod.yaml"] ∅ None
  = Ok (VList [VStr "a"; VStr "b"]).
Proof.
  rewrite (alias_resolution example_world 3 _ _ ∅ None
             "%{alias('servers')}" "servers").
  - vm_compute. reflexivity.
  - vm_compute. reflexivity.
Defined.

(** C4 as stated fails: an alias call with one more character raises
    the plain [Exception], which is not an [InterpolationError]. *)
Lemma alias_with_text_is_plain_exception :
  fst (Hiera_get example_world 5 ∅ example_engine (Some "mixed") VNone None
         false false ∅ {["env" := VStr "prod"]})
  = Raise (Exception_ (AliasInInterpolation "x%{alias('servers')}"))
  /\ is_InterpolationError
       (Exception_ (AliasInInterpolation "x%{alias('servers')}")) = false.
Proof. split; vm_compute; reflexivity. Qed.

(** A failed alias lookup does raise [InterpolationError], and a whole
    alias keeps the type of its target. *)
Example alias_dangling :
  fst (Hiera_get example_world 5 ∅ example_engine (Some "dangling") VNone
         None false false ∅ {["env" := VStr "prod"]})
  = Raise (InterpolationError "nope").
Proof. vm_compute. reflexivity. Qed.

Example alias_keeps_list :
  fst (Hiera_get example_world 5 ∅ example_engine (Some "pool") VNone
         None false false ∅ {["env" := VStr "prod"]})
  = Ok (VList [VStr "a"; VStr "b"]).
Proof. vm_compute. reflexivity. Qed.

(** ** Strings *)

Lemma strapp_assoc (a b c : string) : (a +:+ b) +:+ c = a +:+ (b +:+ c).
Proof. induction a as [|x a IH]; simpl; [reflexivity|now rewrite IH]. Qed.

Lemma strapp_nil_r (a : string) : a +:+ EmptyString = a.
Proof. induction a as [|x a IH]; simpl; [reflexivity|now rewrite IH]. Qed.

Lemma strlen_app (a b : string) :
  String.length (a +:+ b) = (String.length a + String.length b)%nat.
Proof. induction a as [|x a IH]; simpl; [reflexivity|now rewrite IH]. Qed.

Lemma strip_prefix_app p s r : strip_prefix p s = Some r -> s = p +:+ r.
Proof.
  revert s. induction p as [|a p IH]; intros s; simpl.
  - now intros [= ->].
  - destruct s as [|b s]; [discriminate|].
    destruct (Ascii.eqb a b) eqn:E; [|discriminate].
    apply Ascii.eqb_eq in E. subst b. intros H. now rewrite (IH _ H).
Qed.

Lemma span_app p s : s = fst (span p s) +:+ snd (span p s).
Proof.
  induction s as [|c s IH]; simpl; [reflexivity|].
  destruct (p c); [|reflexivity].
  destruct (span p s) as [a b]. simpl in *. now rewrite <- IH.
Qed.

Lemma strip_colons_length s : (String.length (strip_colons s) <= String.length s)%nat.
Proof.
  unfold strip_colons. destruct (strip_prefix "::" s) as [t|] eqn:E; [|lia].
  apply strip_prefix_app in E. subst s. simpl. lia.
Qed.

(** ** The pattern [interpolate] *)

Lemma match_interpolate_Some s name rest :
  match_interpolate s = Some (name, rest) ->
  exists body, s = "%{" +:+ body +:+ String "}" rest.
Proof.
  unfold match_interpolate.
  destruct (strip_prefix "%{" s) as [s1|] eqn:E; [|discriminate].
  apply strip_prefix_app in E.
  pose proof (span_app (fun c => negb (Ascii.eqb c "}")) s1) as Hs.
  destruct (span _ s1) as [body s2] eqn:Hsp. simpl in Hs.
  destruct s2 as [|c r]; [discriminate|]. intros [= _ <-].
  assert (c = "}"%char) as ->.
  { clear -Hsp. revert body Hsp. induction s1 as [|x s1 IH]; intros body; simpl.
    - discriminate.
    - destruct (Ascii.eqb x "}") eqn:Ex; simpl.
      + intros [= _ <- _]. now apply Ascii.eqb_eq in Ex.
      + destruct (span _ s1) as [a b]. intros [= <- ->]. eapply IH. reflexivity. }
  exists body. rewrite E, Hs. reflexivity.
Qed.

Lemma re_search_decomp s pre name rest :
  re_search match_interpolate s = Some (pre, name, rest) ->
  exists body, s = pre +:+ "%{" +:+ body +:+ String "}" rest
               /\ match_interpolate ("%{" +:+ body +:+ String "}" rest)
                  = Some (name, rest).
Proof.
  revert pre. induction s as [|c s IH]; intros pre; cbn [re_search].
  - destruct (match_interpolate EmptyString) as [[g r]|] eqn:E; [|discriminate].
    intros [= <- <- <-]. destruct (match_interpolate_Some _ _ _ E) as [body Hb].
    exists body. split; [exact Hb|]. now rewrite <- Hb.
  - destruct (match_interpolate (String c s)) as [[g r]|] eqn:E.
    + intros [= <- <- <-]. destruct (match_interpolate_Some _ _ _ E) as [body Hb].
      exists body. split; [exact Hb|]. now rewrite <- Hb.
    + destruct (re_search match_interpolate s) as [[[pre' g] r]|]; [|discriminate].
      intros [= <- <- <-]. destruct (IH pre' eq_refl) as [body [Hb Hm]].
      exists body. split; [|exact Hm]. rewrite Hb at 1. reflexivity.
Qed.

Lemma re_search_rest_shorter s pre name rest :
  re_search match_interpolate s = Some (pre, name, rest) ->
  (String.length rest < String.length s)%nat.
Proof.
  intros H. destruct (re_search_decomp _ _ _ _ H) as [body [-> _]].
  rewrite !strlen_app. simpl. lia.
Qed.

Lemma match_interpolate_clean_head c t u :
  clean (String c t) = true -> match_interpolate (String c t +:+ u) = None.
Proof.
  cbn [clean]. intros H. apply andb_true_iff in H as [H _].
  unfold match_interpolate.
  change (String c t +:+ u) with (String c (t +:+ u)). cbn [strip_prefix].
  destruct (Ascii.eqb "%" c) eqn:Ec; [|reflexivity].
  apply Ascii.eqb_eq in Ec. subst c. rewrite Ascii.eqb_refl in H.
  destruct t as [|c' t]; [discriminate|].
  change (String c' t +:+ u) with (String c' (t +:+ u)).
  cbn [strip_prefix]. rewrite Ascii.eqb_sym. cbn [andb negb] in H.
  destruct (Ascii.eqb c' "{"); [discriminate|reflexivity].
Qed.

Lemma re_search_clean_app t u :
  clean t = true ->
  re_search match_interpolate (t +:+ u)
  = match re_search match_interpolate u with
    | Some (pre, g, rest) => Some (t +:+ pre, g, rest)
    | None => None
    end.
Proof.
  induction t as [|c t IH]; intros Hc.
  - simpl. destruct (re_search match_interpolate u) as [[[? ?] ?]|]; reflexivity.
  - change (String c t +:+ u) with (String c (t +:+ u)).
    cbn [re_search].
    change (String c (t +:+ u)) with (String c t +:+ u).
    rewrite match_interpolate_clean_head by exact Hc.
    cbn [clean] in Hc. apply andb_true_iff in Hc as [_ Hc].
    rewrite IH by exact Hc.
    destruct (re_search match_interpolate u) as [[[? ?] ?]|]; reflexivity.
Qed.

Lemma clean_app a b : clean a = true -> clean b = true -> clean (a +:+ b) = true.
Proof.
  induction a as [|c a IH]; intros Ha Hb; [exact Hb|].
  cbn [clean] in Ha. apply andb_true_iff in Ha as [H1 H2].
  change (String c a +:+ b) with (String c (a +:+ b)). cbn [clean].
  rewrite IH by assumption. rewrite andb_true_r.
  destruct a as [|c' a]; [|exact H1].
  destruct (Ascii.eqb c "%"); [discriminate|reflexivity].
Qed.

Lemma plain_clean r : plain r = true -> clean r = true.
Proof.
  unfold plain. induction r as [|c r IH]; [reflexivity|].
  cbn [string_forallb clean]. intros H. apply andb_true_iff in H as [H1 H2].
  rewrite IH by exact H2. rewrite andb_true_r.
  destruct (Ascii.eqb c "%"); [discriminate|reflexivity].
Qed.

Lemma plain_no_backslash r : plain r = true -> has_backslash r = false.
Proof.
  unfold plain, has_backslash. induction r as [|c r IH]; [reflexivity|].
  cbn [string_forallb list_ascii_of_string existsb].
  intros H. apply andb_true_iff in H as [H1 H2]. rewrite IH by exact H2.
  destruct (Ascii.eqb c backslash); [|reflexivity].
  rewrite !orb_true_r in H1. discriminate.
Qed.

Lemma is_substring_tail p c s :
  is_substring p (String c s) = false -> is_substring p s = false.
Proof.
  cbn [is_substring]. intros H. apply orb_false_iff in H as [_ H]. exact H.
Qed.

Lemma is_substring_suffix p a b :
  is_substring p (a +:+ b) = false -> is_substring p b = false.
Proof.
  induction a as [|c a IH]; [intros H; exact H|].
  change (String c a +:+ b) with (String c (a +:+ b)).
  intros H. apply IH. eapply is_substring_tail. exact H.
Qed.

Lemma span_close x y :
  snd (span (fun c => negb (Ascii.eqb c "}")) (x +:+ String "}" y))
  <> EmptyString.
Proof.
  induction x as [|c x IH].
  - cbn. discriminate.
  - change (String c x +:+ String "}" y) with (String c (x +:+ String "}" y)).
    cbn [span]. destruct (negb (Ascii.eqb c "}")); [|discriminate].
    destruct (span _ (x +:+ String "}" y)) as [a b]. exact IH.
Qed.

Lemma match_interpolate_open x y :
  match_interpolate ("%{" +:+ x +:+ String "}" y) <> None.
Proof.
  unfold match_interpolate.
  change ("%{" +:+ x +:+ String "}" y)
    with (String "%" (String "{" (x +:+ String "}" y))).
  cbn [strip_prefix]. rewrite !Ascii.eqb_refl.
  pose proof (span_close x y) as H.
  destruct (span _ (x +:+ String "}" y)) as [a b]. simpl in H.
  destruct b; [contradiction|discriminate].
Qed.

Lemma re_search_empty_pre s g r :
  re_search match_interpolate s = Some (EmptyString, g, r) ->
  match_interpolate s = Some (g, r).
Proof.
  destruct s as [|c s]; cbn [re_search].
  - destruct (match_interpolate EmptyString) as [[? ?]|]; [|discriminate].
    now intros [= <- <-].
  - destruct (match_interpolate (String c s)) as [[? ?]|].
    + now intros [= <- <-].
    + destruct (re_search match_interpolate s) as [[[? ?] ?]|]; discriminate.
Qed.

Lemma re_search_pre_clean s pre name rest :
  re_search match_interpolate s = Some (pre, name, rest) ->
  is_substring "%%{" s = false ->
  clean pre = true.
Proof.
  revert pre. induction s as [|c s IH]; intros pre; cbn [re_search].
  - destruct (match_interpolate EmptyString) as [[? ?]|]; [|discriminate].
    now intros [= <- _ _].
  - destruct (match_interpolate (String c s)) as [[? ?]|] eqn:Em.
    + now intros [= <- _ _].
    + destruct (re_search match_interpolate s) as [[[pre' g] r]|] eqn:Es;
        [|discriminate].
      intros [= <- <- <-] Hsub.
      cbn [clean]. rewrite (IH pre' eq_refl (is_substring_tail _ _ _ Hsub)).
      rewrite andb_true_r.
      destruct (Ascii.eqb c "%") eqn:Ec; [|reflexivity].
      apply Ascii.eqb_eq in Ec. subst c. cbn [andb].
      destruct pre' as [|c' pre''].
      * exfalso. apply re_search_empty_pre in Es.
        destruct (match_interpolate_Some _ _ _ Es) as [body Hb]. subst s.
        cbn in Hsub. discriminate.
      * destruct (Ascii.eqb c' "{") eqn:Ec'; [|reflexivity].
        exfalso. apply Ascii.eqb_eq in Ec'. subst c'.
        destruct (re_search_decomp _ _ _ _ Es) as [body [Hb _]]. subst s.
        revert Em.
        change (String "%" (String "{" pre'' +:+ "%{" +:+ body +:+ String "}" r))
          with ("%{" +:+ pre'' +:+ "%{" +:+ body +:+ String "}" r).
        rewrite <- (strapp_assoc pre'' "%{"), <- (strapp_assoc _ body).
        apply match_interpolate_open.
Qed.

Section Bare.
Variable W : World.
Variable ctx : context_map.

Lemma bare_step_plain T u pre name' rest name :
  plain_value (context_get ctx name) = true ->
  clean T = true ->
  re_search match_interpolate u = Some (pre, name', rest) ->
  bare_step W ctx (T +:+ u) name = Ok ((T +:+ pre) +:+ bare_value ctx name +:+ rest)
  /\ clean (bare_value ctx name) = true.
Proof.
  intros Hv HT Hu. unfold bare_step, bare_value, interpolate_sub1, re_sub1.
  assert (exists r,
            (if truthy (context_get ctx name) then context_get ctx name
             else VStr EmptyString) = VStr r
            /\ match context_get ctx name with
               | VStr r0 => r0
               | _ => EmptyString
               end = r
            /\ plain r = true) as [r [-> [-> Hr]]].
  { destruct (context_get ctx name) as [| | |r| | | |]; cbn [plain_value] in Hv;
      try (apply negb_true_iff in Hv; rewrite Hv; exists EmptyString;
           repeat split; reflexivity).
    exists r. repeat split; [|exact Hv]. cbn. destruct r; reflexivity. }
  rewrite re_search_clean_app, Hu by exact HT.
  rewrite (plain_no_backslash _ Hr). split; [reflexivity|].
  apply plain_clean, Hr.
Qed.

Lemma bare_steps n : forall s T,
  (String.length s <= n)%nat ->
  clean T = true ->
  is_substring "%%{" s = false ->
  forallb (fun name => plain_value (context_get ctx name))
    (re_findall_upto match_interpolate n s) = true ->
  for_each (bare_step W ctx) (re_findall_upto match_interpolate n s) (T +:+ s)
  = Ok (T +:+ re_sub_all_upto match_interpolate n (bare_value ctx) s).
Proof.
  induction n as [|n IH]; intros s T Hlen HT Hsub Hall; [reflexivity|].
  cbn [re_findall_upto re_sub_all_upto] in *.
  destruct (re_search match_interpolate s) as [[[pre name] rest]|] eqn:Hs;
    [|reflexivity].
  cbn [forallb] in Hall. apply andb_true_iff in Hall as [Hv Hall].
  cbn [for_each].
  destruct (bare_step_plain T s pre name rest name Hv HT Hs) as [-> Hr].
  cbn [bind].
  pose proof (re_search_rest_shorter _ _ _ _ Hs) as Hlt.
  destruct (re_search_decomp _ _ _ _ Hs) as [body [Hb _]].
  rewrite <- strapp_assoc.
  rewrite IH.
  - now rewrite !strapp_assoc.
  - lia.
  - apply clean_app; [apply clean_app; [exact HT|]|exact Hr].
    eapply re_search_pre_clean; eassumption.
  - rewrite Hb in Hsub.
    rewrite <- (strapp_assoc pre), <- (strapp_assoc _ body) in Hsub.
    change (String "}" rest) with ("}" +:+ rest) in Hsub.
    rewrite <- (strapp_assoc _ "}") in Hsub.
    eapply is_substring_suffix. exact Hsub.
  - exact Hall.
Qed.
End Bare.

(** [resolve_interpolates] makes one
    substitution per bare occurrence found in the string it is given,
    each on the leftmost occurrence of the text at that moment.  When
    the value of every variable that occurs is falsy or absent (it
    contributes the empty string, without error) or a string without
    percent sign, opening brace or backslash, and no occurrence is
    preceded by a percent sign, the result is the string in which every
    occurrence, from left to right, is replaced by the value of its
    variable. *)
Lemma bare_interpolation (W : World) (s : string) (ctx : context_map) :
  forallb (fun name => plain_value (context_get ctx name))
    (interpolate_findall s) = true ->
  is_substring "%%{" s = false ->
  resolve_interpolates W s ctx = Ok (interpolate_all ctx s).
Proof.
  intros Hall Hsub.
  exact (bare_steps W ctx (String.length s) s EmptyString (le_n _) eq_refl
           Hsub Hall).
Qed.

Lemma bare_interpolation_witness :
  resolve_interpolates example_world "http://%{host}:%{::port}/%{missing}"
    (<["host" := VStr "h"]> (<["port" := VStr "80"]> ∅))
  = Ok "http://h:80/".
Proof.
  rewrite (bare_interpolation example_world); vm_compute; reflexivity.
Defined.

(** C9. The claim fails on these inputs.  Each substitution is made on
    the leftmost occurrence of the text at that moment: a value that
    itself holds an occurrence makes the next substitution replace that
    occurrence instead of the next one of the original string, where
    the replacement of each occurrence by its value gives another
    string.  And a truthy value that is not a string is refused by the
    substitution with [TypeError] instead of being written as a
    string. *)
Lemma bare_interpolation_not_occurrence_wise :
  resolve_interpolates example_world "%{a}%{c}"
    (<["a" := VStr "%{b}"]> (<["c" := VStr "C"]> ∅))
  = Ok "C%{c}"
  /\ interpolate_all (<["a" := VStr "%{b}"]> (<["c" := VStr "C"]> ∅))
       "%{a}%{c}"
     = "%{b}C"
  /\ resolve_interpolates example_world "port %{port}"
       (<["port" := VInt 8080]> ∅)
     = Raise TypeError.
Proof. repeat split; vm_compute; reflexivity. Qed.

(** ** [str.format] on templates of plain fields *)

Lemma span_stop p s a c r :
  span p s = (a, String c r) -> p c = false.
Proof.
  revert a. induction s as [|x s IH]; intros a; cbn [span]; [discriminate|].
  destruct (p x) eqn:Ex.
  - destruct (span p s) as [a' b'] eqn:Hs. intros [= <- ->]. eapply IH. reflexivity.
  - intros [= <- <- <-]. exact Ex.
Qed.

Lemma parse_field_plain name rest :
  string_forallb
    (fun c => negb (field_special c || Ascii.eqb c "{" || Ascii.eqb c "}")) name
  = true ->
  parse_field FName (name +:+ String "}" rest) = Ok (name, rest).
Proof.
  induction name as [|c name IH]; intros H.
  - reflexivity.
  - cbn [string_forallb] in H. apply andb_true_iff in H as [Hc H].
    change (String c name +:+ String "}" rest)
      with (String c (name +:+ String "}" rest)).
    cbn [parse_field]. rewrite IH by exact H. cbn [bind fst snd].
    apply negb_true_iff in Hc. unfold field_special in Hc.
    repeat (apply orb_false_iff in Hc as [Hc ?]).
    repeat match goal with E : Ascii.eqb _ _ = false |- _ => rewrite E; clear E end.
    reflexivity.
Qed.

Lemma field_first_plain name :
  string_forallb
    (fun c => negb (field_special c || Ascii.eqb c "{" || Ascii.eqb c "}")) name
  = true ->
  field_first name = name.
Proof.
  unfold field_first. induction name as [|c name IH]; intros H; [reflexivity|].
  cbn [string_forallb] in H. apply andb_true_iff in H as [Hc H].
  cbn [span]. apply negb_true_iff in Hc.
  apply orb_false_iff in Hc as [Hc _]. apply orb_false_iff in Hc as [Hc _].
  rewrite Hc. cbn [negb]. specialize (IH H).
  destruct (span _ name) as [a b]. cbn [fst] in *. now rewrite IH.
Qed.

Section PlainTemplates.
Variable W : World.
Variable kwargs : context_map.

Lemma render_field_plain name :
  simple_name name = true ->
  render_field W kwargs name
  = match kwargs !! name with
    | Some v => Ok (py_str W v)
    | None => Raise (KeyError (Some name))
    end.
Proof.
  unfold simple_name, render_field. intros H.
  apply andb_true_iff in H as [Hd Hp]. apply negb_true_iff in Hd.
  rewrite (field_first_plain _ Hp), Hd, String.eqb_refl. reflexivity.
Qed.

Lemma py_format_plain n : forall t names,
  template_fields_upto n t = Some names ->
  (forall y, List.find (missing kwargs) names = Some y ->
             py_format_upto W n kwargs t = Raise (KeyError (Some y)))
  /\ (List.find (missing kwargs) names = None ->
      exists out, py_format_upto W n kwargs t = Ok out).
Proof.
  induction n as [|n IH]; intros t names; cbn [template_fields_upto py_format_upto].
  - destruct t; [|discriminate]. intros [= <-]. cbn. split; [discriminate|eauto].
  - destruct t as [|c t]; [intros [= <-]; cbn; split; [discriminate|eauto]|].
    destruct (Ascii.eqb c "{") eqn:Ec.
    + destruct (span _ t) as [name r] eqn:Hsp.
      destruct r as [|x rest]; [discriminate|].
      destruct (simple_name name) eqn:Hn; [|discriminate].
      destruct (template_fields_upto n rest) as [names'|] eqn:Hr; [|discriminate].
      intros [= <-].
      pose proof (span_app (fun c => negb (Ascii.eqb c "}")) t) as Ht.
      rewrite Hsp in Ht. cbn [fst snd] in Ht.
      pose proof (span_stop _ _ _ _ _ Hsp) as Hx.
      apply negb_false_iff, Ascii.eqb_eq in Hx. subst x.
      pose proof Hn as Hn'. unfold simple_name in Hn'.
      apply andb_true_iff in Hn' as [Hd Hp].
      assert (Hpf : parse_field FName t = Ok (name, rest))
        by (rewrite Ht; apply parse_field_plain, Hp).
      assert (exists c' t', t = String c' t' /\ Ascii.eqb c' "{" = false)
        as [c' [t' [Et Ec']]].
      { destruct name as [|c' name'].
        - exists "}"%char, rest. split; [exact Ht|reflexivity].
        - exists c', (name' +:+ String "}" rest). split; [exact Ht|].
          cbn [string_forallb] in Hp. apply andb_true_iff in Hp as [Hp _].
          apply negb_true_iff in Hp.
          apply orb_false_iff in Hp as [Hp _]. apply orb_false_iff in Hp as [_ Hp].
          exact Hp. }
      rewrite Et, Ec', <- Et, Hpf. cbn [bind fst snd].
      rewrite (render_field_plain _ Hn).
      cbn [List.find]. unfold missing at 1 3.
      destruct (IH rest names' Hr) as [IH1 IH2].
      destruct (kwargs !! name) as [v|] eqn:Hk.
      * rewrite bool_decide_eq_true_2 by eauto. cbn [negb bind]. split.
        -- intros y Hy. now rewrite (IH1 y Hy).
        -- intros Hnone. destruct (IH2 Hnone) as [out ->]. cbn. eauto.
      * rewrite bool_decide_eq_false_2 by (intros [? ?]; discriminate).
        cbn [negb bind]. split; [|discriminate]. now intros y [= <-].
    + destruct (Ascii.eqb c "}"); [discriminate|].
      intros Hr. destruct (IH t names Hr) as [IH1 IH2]. split.
      * intros y Hy. now rewrite (IH1 y Hy).
      * intros Hnone. destruct (IH2 Hnone) as [out ->]. cbn. eauto.
Qed.

Lemma find_missing names x :
  In x names -> kwargs !! x = None ->
  exists y, List.find (missing kwargs) names = Some y /\ kwargs !! y = None.
Proof.
  induction names as [|z names IH]; [contradiction|].
  intros Hin Hx. cbn [List.find]. unfold missing at 1.
  destruct (kwargs !! z) as [v|] eqn:Hz.
  - rewrite bool_decide_eq_true_2 by eauto. cbn [negb].
    destruct Hin as [->|Hin]; [congruence|]. auto.
  - rewrite bool_decide_eq_false_2 by (intros [? ?]; discriminate).
    cbn [negb]. eauto.
Qed.

(** A template of plain fields that names a variable missing from
    [kwargs] makes [format] raise [KeyError]; one whose variables are
    all present is rendered. *)
Lemma py_format_missing t names x :
  template_fields t = Some names -> In x names -> kwargs !! x = None ->
  exists y, py_format W kwargs t = Raise (KeyError (Some y)).
Proof.
  intros Ht Hin Hx. unfold py_format.
  destruct (py_format_plain _ _ _ Ht) as [H _].
  destruct (find_missing _ _ Hin Hx) as [y [Hy _]]. eauto.
Qed.

Lemma py_format_outcome t names :
  template_fields t = Some names ->
  (exists y, py_format W kwargs t = Raise (KeyError (Some y)))
  \/ (exists out, py_format W kwargs t = Ok out).
Proof.
  intros Ht. unfold py_format.
  destruct (py_format_plain _ _ _ Ht) as [H1 H2].
  destruct (List.find (missing kwargs) names); eauto.
Qed.
End PlainTemplates.

(** ** The context of a call and the candidates it skips *)

Lemma assemble_context_truthy hp self ctx kwargs x v :
  assemble_context hp self ctx kwargs !! x = Some v -> truthy v = true.
Proof.
  unfold assemble_context, drop_falsy. intros H.
  apply map_lookup_filter_Some in H as [_ H]. exact H.
Qed.

Lemma assemble_context_drops hp self ctx kwargs x :
  (forall v,
     update (update (update ∅ (heap_get hp (context self))) ctx) kwargs !! x
     = Some v -> truthy v = false) ->
  assemble_context hp self ctx kwargs !! x = None.
Proof.
  intros H. unfold assemble_context, drop_falsy.
  apply map_lookup_filter_None. 
  destruct (update _ kwargs !! x) as [v|] eqn:E; [right|left; reflexivity].
  intros v' [= <-]. cbn. rewrite (H v eq_refl). discriminate.
Qed.

(** The context of a call holds no entry whose value is falsy, and a
    candidate whose datadir or level names a variable that the context
    of the call lacks (because it was never given, or because its value
    is falsy) is skipped: it adds no path, raises nothing and leaves the
    engine as it was.  The templates are those the configuration gives
    rise to: text and plain fields. *)
Lemma falsy_context_skips (W : World) (hp : heap) (self st : Hiera)
    (ctx kwargs : context_map) (backend : Backend) (level d : string)
    (dn ln : list string) (name : string) :
  datadir backend = VStr d ->
  template_fields d = Some dn ->
  template_fields level = Some ln ->
  In name (dn ++ ln) ->
  (forall v,
     update (update (update ∅ (heap_get hp (context self))) ctx) kwargs !! name
     = Some v -> truthy v = false) ->
  (forall x v, assemble_context hp self ctx kwargs !! x = Some v ->
               truthy v = true)
  /\ assemble_context hp self ctx kwargs !! name = None
  /\ candidate W st (assemble_context hp self ctx kwargs) backend level
     = (Ok [], st).
Proof.
  intros Hd Hdn Hln Hin Hfalsy.
  pose proof (assemble_context_drops _ _ _ _ _ Hfalsy) as Hnone.
  split; [intros x v; apply assemble_context_truthy|].
  split; [exact Hnone|].
  unfold candidate. rewrite Hd.
  apply in_app_or in Hin as [Hin|Hin].
  - destruct (py_format_missing W _ _ _ _ Hdn Hin Hnone) as [y ->]. reflexivity.
  - destruct (py_format_outcome W (assemble_context hp self ctx kwargs) _ _ Hdn)
      as [[y ->]|[out ->]]; [reflexivity|].
    destruct (py_format_missing W _ _ _ _ Hln Hin Hnone) as [y ->]. reflexivity.
Qed.

Lemma falsy_context_skips_witness :
  candidate example_world example_engine
    (assemble_context ∅ example_engine ∅ (<["env" := VStr EmptyString]> ∅))
    (mkBackend YAMLBackend (VDict []) (VStr "/data")) "{env}"
  = (Ok [], example_engine).
Proof.
  refine (proj2 (proj2 (falsy_context_skips example_world ∅ example_engine
            example_engine ∅ (<["env" := VStr EmptyString]> ∅)
            (mkBackend YAMLBackend (VDict []) (VStr "/data")) "{env}" "/data"
            [] ["env"] "env" eq_refl eq_refl eq_refl _ _))).
  - left. reflexivity.
  - intros v. vm_compute. intros [= <-]. reflexivity.
Defined.

(** C6. The claim fails on this input.  The level
    [nodes/%{::trusted.certname}] is not rewritten by [rformat], whose
    character class has no dot; [format] then reads an empty field name
    and raises [IndexError], which [get] does not catch as it catches
    [KeyError]: the constructor, which ends with [get(None)], raises
    instead of skipping the level.  A placeholder whose name is a
    number is rewritten and raises [IndexError] as well.  With the
    placeholder [%{env}] in its place the engine is built, the level
    being skipped for want of the variable. *)
Lemma dotted_placeholder_crash :
  rformat_sub "nodes/%{::trusted.certname}" = "nodes/%{::trusted.certname}"
  /\ py_format example_world ∅ "nodes/%{::trusted.certname}" = Raise IndexError
  /\ fst (Hiera_init example_world 3 ∅
            (BaseDict [("backends", VList [VStr "yaml"]);
                       ("yaml", VDict [("datadir", VStr "/data")]);
                       ("hierarchy",
                        VList [VStr "nodes/%{::trusted.certname}";
                               VStr "common"])])
            None None ∅)
     = Raise IndexError
  /\ rformat_sub "%{0}" = "{0}"
  /\ py_format example_world ∅ "{0}" = Raise IndexError
  /\ fst (Hiera_init example_world 3 ∅
            (BaseDict [("backends", VList [VStr "yaml"]);
                       ("yaml", VDict [("datadir", VStr "/data")]);
                       ("hierarchy", VList [VStr "%{0}"; VStr "common"])])
            None None ∅)
     = Raise IndexError
  /\ fst (Hiera_init example_world 3 ∅
            (BaseDict [("backends", VList [VStr "yaml"]);
                       ("yaml", VDict [("datadir", VStr "/data")]);
                       ("hierarchy", VList [VStr "%{env}"; VStr "common"])])
            None None ∅)
     = Ok (set_cache example_engine
             (<["/data/common.yaml" :=
                  VDict [("k", VStr "common"); ("c", VInt 3)]]> ∅)
             ["/data/common.yaml"]).
Proof. repeat split; vm_compute; reflexivity. Qed.

(** With a falsy environment only the level [common] is searched. *)
Example falsy_environment_falls_back :
  fst (Hiera_get example_world 3 ∅ example_engine (Some "k") VNone None
         false false ∅ (<["env" := VInt 0]> ∅))
  = Ok (VStr "common").
Proof. vm_compute. reflexivity. Qed.

(** ** Loading documents *)

Lemma load_file_cached W self path backend doc :
  cache self !! path = Some doc ->
  load_file W self path backend false = (Ok path, self).
Proof.
  intros H. unfold load_file.
  rewrite bool_decide_eq_true_2 by (rewrite H; eauto). reflexivity.
Qed.

Lemma load_file_failure W self path backend e :
  cache self !! path = None ->
  (do raw <- read_file W (cls backend) path;
   Backend_load W (cls backend) raw) = Raise e ->
  load_file W self path backend false
  = (Raise (Exception_ (FailedToLoadFile path e)),
     set_cache self (cache self) (reads self ++ [path])).
Proof.
  intros H He. unfold load_file.
  rewrite bool_decide_eq_false_2 by (rewrite H; intros [? ?]; discriminate).
  cbn [negb orb]. rewrite He. reflexivity.
Qed.

Lemma collect_app W ctx pre : forall self ps self1 rest,
  collect W self ctx pre = (Ok ps, self1) ->
  collect W self ctx (pre ++ rest)
  = match collect W self1 ctx rest with
    | (Ok qs, self2) => (Ok (ps ++ qs), self2)
    | r => r
    end.
Proof.
  induction pre as [|[b level] pre IH]; intros self ps self1 rest;
    rewrite <- ?app_comm_cons; cbn [collect].
  - intros [= <- <-]. cbn [app].
    destruct (collect W self ctx rest) as [[qs|e|] self2]; reflexivity.
  - destruct (candidate W self ctx b level) as [[cs|e|] s1]; try discriminate.
    destruct (collect W s1 ctx pre) as [[qs|e|] s2] eqn:Hc; try discriminate.
    intros [= <- <-].
    rewrite (IH _ _ _ rest Hc).
    destruct (collect W s2 ctx rest) as [[rs|e|] s3]; [|reflexivity..].
    now rewrite app_assoc.
Qed.

(** An exception raised for one candidate ends the collection: the
    candidates after it are not examined. *)
Lemma collect_raise W ctx pre b level post self ps self1 e self2 :
  collect W self ctx pre = (Ok ps, self1) ->
  candidate W self1 ctx b level = (Raise e, self2) ->
  collect W self ctx (pre ++ (b, level) :: post) = (Raise e, self2).
Proof.
  intros Hpre Hc. rewrite (collect_app _ _ _ _ _ _ _ Hpre).
  cbn [collect]. rewrite Hc. reflexivity.
Qed.

(** ** Loading a list of files *)

Lemma load_each_app W b l1 : forall self l2,
  load_each W self (l1 ++ l2) b
  = match load_each W self l1 b with
    | (Ok ps, self1) =>
        match load_each W self1 l2 b with
        | (Ok qs, self2) => (Ok (ps ++ qs), self2)
        | r => r
        end
    | r => r
    end.
Proof.
  induction l1 as [|p l1 IH]; intros self l2.
  - cbn [app load_each]. destruct (load_each W self l2 b) as [[qs| |] s2]; reflexivity.
  - rewrite <- app_comm_cons. cbn [load_each].
    destruct (load_file W self p b false) as [[p'| |] s1]; try reflexivity.
    rewrite IH.
    destruct (load_each W s1 l1 b) as [[ps| |] s2]; try reflexivity.
    destruct (load_each W s2 l2 b) as [[qs| |] s3]; reflexivity.
Qed.

Lemma load_files_each W b files : forall self root,
  load_files W self root files (Some b)
  = match load_each W self (map (path_join root) files) b with
    | (Ok ps, self1) => (Ok (ps, Some b), self1)
    | (Raise e, self1) => (Raise e, self1)
    | (OutOfFuel, self1) => (OutOfFuel, self1)
    end.
Proof.
  induction files as [|f files IH]; intros self root;
    cbn [load_files map load_each]; [reflexivity|].
  destruct (load_file W self (path_join root f) b false) as [[p'| |] s1];
    try reflexivity.
  rewrite IH.
  destruct (load_each W s1 (map (path_join root) files) b) as [[ps| |] s2];
    reflexivity.
Qed.

Lemma load_dirs_each W b dirs : forall self,
  load_dirs W self dirs (Some b)
  = load_each W self
      (flat_map (fun d => map (path_join (fst d)) (snd d)) dirs) b.
Proof.
  induction dirs as [|[root files] dirs IH]; intros self;
    cbn [load_dirs flat_map fst snd]; [reflexivity|].
  rewrite load_files_each, load_each_app.
  destruct (load_each W self (map (path_join root) files) b) as [[ps| |] s1];
    try reflexivity.
  rewrite IH. reflexivity.
Qed.

Lemma load_directory_each W self path b :
  load_directory W self path (Some b) = load_each W self (walk_paths W path) b.
Proof. apply load_dirs_each. Qed.

Lemma candidate_each W self ctx b level d d' p' :
  datadir b = VStr d ->
  py_format W ctx d = Ok d' ->
  py_format W ctx level = Ok p' ->
  candidate W self ctx b level
  = load_each W self
      (candidate_files W (path_join (path_join (base_path self) d') p') b) b.
Proof.
  intros Hd Hfd Hfl. unfold candidate, candidate_files.
  rewrite Hd, Hfd, Hfl. cbn [bind].
  destruct (os_path_isdir W _); [apply load_directory_each|].
  destruct (os_path_exists W _); [|reflexivity].
  cbn [load_each].
  destruct (load_file W self _ b false) as [[p| |] s1]; reflexivity.
Qed.

Lemma load_file_returns W self path b ic p self1 :
  load_file W self path b ic = (Ok p, self1) -> p = path.
Proof.
  unfold load_file. destruct (negb _ || ic); [|congruence].
  destruct (bind _ _); congruence.
Qed.

Lemma load_each_returns W b l : forall self ps self1,
  load_each W self l b = (Ok ps, self1) -> ps = l.
Proof.
  induction l as [|p l IH]; intros self ps self1; cbn [load_each].
  - congruence.
  - destruct (load_file W self p b false) as [[p'| |] s1] eqn:H1; try discriminate.
    apply load_file_returns in H1. subst p'.
    destruct (load_each W s1 l b) as [[qs| |] s2] eqn:H2; try discriminate.
    intros [= <- <-]. f_equal. eapply IH, H2.
Qed.

(** A document in the cache after a load was there before, or is what
    the backend made of the file. *)
Lemma load_file_sound W self path b x doc :
  cache (snd (load_file W self path b false)) !! x = Some doc ->
  cache self !! x = Some doc \/ (x = path /\ parse_file W b path = Ok doc).
Proof.
  unfold load_file, parse_file.
  destruct (negb _ || false); [|cbn; auto].
  destruct (bind _ _) as [doc'| |]; cbn [snd cache set_cache]; auto.
  destruct (decide (x = path)) as [->|Hne].
  - rewrite lookup_insert_eq. intros [= ->]. auto.
  - rewrite lookup_insert_ne by congruence. auto.
Qed.

Lemma load_each_sound W b l : forall self x doc,
  cache (snd (load_each W self l b)) !! x = Some doc ->
  cache self !! x = Some doc \/ (In x l /\ parse_file W b x = Ok doc).
Proof.
  induction l as [|p l IH]; intros self x doc; cbn [load_each].
  - cbn. auto.
  - pose proof (load_file_sound W self p b x doc) as H1.
    destruct (load_file W self p b false) as [r1 s1]. cbn [snd] in H1.
    assert (Hstep : cache s1 !! x = Some doc ->
                    cache self !! x = Some doc
                    \/ (In x (p :: l) /\ parse_file W b x = Ok doc)).
    { intros H. destruct (H1 H) as [H5|[-> H5]]; [now left|].
      right. split; [now left|exact H5]. }
    destruct r1 as [p'| |]; cbn [snd]; try exact Hstep.
    pose proof (IH s1 x doc) as H2.
    assert (Hall : cache (snd (load_each W s1 l b)) !! x = Some doc ->
                   cache self !! x = Some doc
                   \/ (In x (p :: l) /\ parse_file W b x = Ok doc)).
    { intros H. destruct (H2 H) as [H3|[H3 H4]]; [auto|].
      right. split; [now right|exact H4]. }
    destruct (load_each W s1 l b) as [[qs| |] s2]; exact Hall.
Qed.

Lemma load_file_stores W self path b doc :
  cache self !! path = None ->
  parse_file W b path = Ok doc ->
  load_file W self path b false
  = (Ok path,
     set_cache self (<[path := doc]> (cache self)) (reads self ++ [path])).
Proof.
  intros Hc Hp. unfold load_file. unfold parse_file in Hp.
  rewrite bool_decide_eq_false_2 by (rewrite Hc; intros [? ?]; discriminate).
  cbn [negb orb]. rewrite Hp. reflexivity.
Qed.

(** The first file that cannot be loaded ends the loading; it is not
    cached afterwards. *)
Lemma load_each_failure W b f e after before : forall self,
  Forall (fun q => is_Some (cache self !! q)
                   \/ exists doc, parse_file W b q = Ok doc) before ->
  cache self !! f = None ->
  ~ In f before ->
  parse_file W b f = Raise e ->
  fst (load_each W self (before ++ f :: after) b)
    = Raise (Exception_ (FailedToLoadFile f e))
  /\ cache (snd (load_each W self (before ++ f :: after) b)) !! f = None.
Proof.
  induction before as [|q before IH]; intros self HF Hc Hn He.
  - cbn [app load_each].
    rewrite (load_file_failure W self f b e Hc He). cbn. auto.
  - rewrite <- app_comm_cons. cbn [load_each].
    apply Forall_cons in HF as [Hq HF].
    assert (Hqf : q <> f) by (intros ->; apply Hn; now left).
    assert (exists s1, load_file W self q b false = (Ok q, s1)
                       /\ cache self ⊆ cache s1 /\ cache s1 !! f = None)
      as (s1 & -> & Hsub & Hc1).
    { destruct (cache self !! q) as [doc|] eqn:Hcq.
      - exists self. rewrite (load_file_cached W self q b doc Hcq). auto.
      - destruct Hq as [[? ?]|[doc Hdoc]]; [discriminate|].
        eexists. rewrite (load_file_stores W self q b doc Hcq Hdoc).
        split; [reflexivity|]. cbn [cache set_cache]. split.
        + now apply insert_subseteq.
        + rewrite lookup_insert_ne by exact Hqf. exact Hc. }
    destruct (IH s1) as [H1 H2]; trivial.
    + eapply Forall_impl; [exact HF|]. intros x [[doc Hx]|Hx]; [left|now right].
      exists doc. eapply lookup_weaken; eassumption.
    + intros Hin. apply Hn. now right.
    + destruct (load_each W s1 (before ++ f :: after) b) as [[qs| |] s2];
        cbn [fst snd] in *; try discriminate; auto.
Qed.

(** C7. [load_file] stores what it loads and does not load it again:
    a path that is not cached and that the backend reads and parses is
    returned with the document cached under it and one read recorded,
    and loading it again, with any backend, returns at once with the
    engine unchanged; so does every path that is cached.  When reading
    or parsing fails, [load_file] raises an [Exception] whose message
    carries the path and the failure of the backend, and the cache is
    as it was.  In [get], the first file of a candidate (the one file
    of a level, or a file of the walk of a directory) that fails makes
    [get] raise that exception whatever [default] and [throw] are; the
    files and the candidates after it are not examined, and the file is
    not cached. *)
Theorem load_failure_aborts (W : World) :
  (forall self path b doc,
     cache self !! path = None ->
     parse_file W b path = Ok doc ->
     let self1 :=
       set_cache self (<[path := doc]> (cache self)) (reads self ++ [path]) in
     load_file W self path b false = (Ok path, self1)
     /\ cache self1 !! path = Some doc
     /\ forall b', load_file W self1 path b' false = (Ok path, self1))
  /\ (forall self path b doc,
        cache self !! path = Some doc ->
        load_file W self path b false = (Ok path, self))
  /\ (forall self path b e,
        cache self !! path = None ->
        parse_file W b path = Raise e ->
        load_file W self path b false
        = (Raise (Exception_ (FailedToLoadFile path e)),
           set_cache self (cache self) (reads self ++ [path])))
  /\ (forall fuel hp self key default merge merge_deep throw ctx kwargs
             pre post backend level ps self1 d d' p' before f after e,
        let new_context := assemble_context hp self ctx kwargs in
        candidate_pairs self = pre ++ (backend, level) :: post ->
        collect W self new_context pre = (Ok ps, self1) ->
        datadir backend = VStr d ->
        py_format W new_context d = Ok d' ->
        py_format W new_context level = Ok p' ->
        candidate_files W (path_join (path_join (base_path self1) d') p')
          backend
        = before ++ f :: after ->
        Forall (fun q => is_Some (cache self1 !! q)
                         \/ exists doc, parse_file W backend q = Ok doc)
          before ->
        cache self1 !! f = None ->
        ~ In f before ->
        parse_file W backend f = Raise e ->
        let r := Hiera_get W fuel hp self key default merge merge_deep throw
                   ctx kwargs in
        fst r = Raise (Exception_ (FailedToLoadFile f e))
        /\ cache (snd r) !! f = None).
Proof.
  split; [|split; [|split]].
  - intros self path b doc Hc Hp self1. split; [|split].
    + apply load_file_stores; assumption.
    + subst self1. cbn [cache set_cache]. apply lookup_insert_eq.
    + intros b'. apply (load_file_cached W self1 path b' doc).
      subst self1. cbn [cache set_cache]. apply lookup_insert_eq.
  - intros self path b doc. apply load_file_cached.
  - intros self path b e. apply load_file_failure.
  - intros fuel hp self key default merge merge_deep throw ctx kwargs
      pre post backend level ps self1 d d' p' before f after e new_context
      Hpairs Hpre Hd Hfd Hfl Hfiles HF Hc Hn He r.
    destruct (load_each_failure W backend f e after before self1 HF Hc Hn He)
      as [H1 H2].
    pose proof (candidate_each W self1 new_context backend level d d' p'
                  Hd Hfd Hfl) as Hcand.
    rewrite Hfiles in Hcand.
    destruct (load_each W self1 (before ++ f :: after) backend) as [r2 s2] eqn:E.
    cbn [fst snd] in H1, H2. subst r2.
    subst r. unfold Hiera_get. fold new_context. rewrite Hpairs.
    rewrite (collect_raise W new_context pre backend level post self ps self1
               _ s2 Hpre Hcand).
    cbn [fst snd]. auto.
Qed.

Lemma load_failure_aborts_witness :
  (fst (Hiera_get site_world 3 ∅ nodes_engine (Some "role") (VStr "fallback")
          None false false ∅ ∅)
   = Raise (Exception_ (FailedToLoadFile "/site/nodes/broken.yaml"
                          (External "YAMLError")))
   /\ cache (snd (Hiera_get site_world 3 ∅ nodes_engine (Some "role")
                    (VStr "fallback") None false false ∅ ∅))
        !! "/site/nodes/broken.yaml" = None)
  /\ (fst (Hiera_get example_world 3 ∅ example_engine (Some "k")
             (VStr "fallback") None false false ∅ {["env" := VStr "broken"]})
      = Raise (Exception_ (FailedToLoadFile "/data/broken.yaml"
                             (External "YAMLError")))
      /\ cache (snd (Hiera_get example_world 3 ∅ example_engine (Some "k")
                       (VStr "fallback") None false false ∅
                       {["env" := VStr "broken"]}))
           !! "/data/broken.yaml" = None)
  /\ forall b',
       load_file site_world
         (set_cache nodes_engine
            (<["/site/nodes/web.yaml" := VDict [("role", VStr "web")]]>
               (cache nodes_engine))
            (reads nodes_engine ++ ["/site/nodes/web.yaml"]))
         "/site/nodes/web.yaml" b' false
       = (Ok "/site/nodes/web.yaml",
          set_cache nodes_engine
            (<["/site/nodes/web.yaml" := VDict [("role", VStr "web")]]>
               (cache nodes_engine))
            (reads nodes_engine ++ ["/site/nodes/web.yaml"])).
Proof.
  split; [|split].
  - eapply (proj2 (proj2 (proj2 (load_failure_aborts site_world)))
              3%nat ∅ nodes_engine (Some "role") (VStr "fallback") None false false
              ∅ ∅ [(site_yaml, "common")] [] site_yaml "nodes"
              ["/site/common.yaml"] _ "/site" "/site" "nodes"
              ["/site/nodes/web.yaml"] "/site/nodes/broken.yaml"
              ["/site/nodes/db.yaml"] (External "YAMLError")).
    + reflexivity.
    + vm_compute. reflexivity.
    + reflexivity.
    + vm_compute. reflexivity.
    + vm_compute. reflexivity.
    + vm_compute. reflexivity.
    + constructor; [right; eexists; vm_compute; reflexivity|constructor].
    + vm_compute. reflexivity.
    + intros [H|[]]. discriminate.
    + vm_compute. reflexivity.
  - eapply (proj2 (proj2 (proj2 (load_failure_aborts example_world)))
              3%nat ∅ example_engine (Some "k") (VStr "fallback") None false
              false ∅ {["env" := VStr "broken"]} []
              [(mkBackend YAMLBackend (VDict [("datadir", VStr "/data")])
                  (VStr "/data"), "common")]
              (mkBackend YAMLBackend (VDict [("datadir", VStr "/data")])
                 (VStr "/data"))
              "{env}" [] example_engine "/data" "/data" "broken"
              [] "/data/broken.yaml" [] (External "YAMLError")).
    + reflexivity.
    + reflexivity.
    + reflexivity.
    + vm_compute. reflexivity.
    + vm_compute. reflexivity.
    + vm_compute. reflexivity.
    + constructor.
    + vm_compute. reflexivity.
    + intros [].
    + vm_compute. reflexivity.
  - refine (proj2 (proj2 (proj1 (load_failure_aborts site_world) nodes_engine
                            "/site/nodes/web.yaml" site_yaml _ _ _))).
    + vm_compute. reflexivity.
    + vm_compute. reflexivity.
Defined.

(** ** Context dictionaries: views and constructors *)

Lemma update_lookup (d other : context_map) k :
  update d other !! k
  = match other !! k with
    | Some v => Some v
    | None => d !! k
    end.
Proof.
  unfold update. destruct (other !! k) as [v|] eqn:E.
  - now apply lookup_union_Some_l.
  - now rewrite lookup_union_r.
Qed.

Lemma heap_get_update hp l kwargs :
  heap_get (heap_update hp l kwargs) l = update (heap_get hp l) kwargs.
Proof. unfold heap_update, heap_get at 1. now rewrite lookup_insert_eq. Qed.

Lemma heap_get_update_ne hp l l' kwargs :
  l' <> l -> heap_get (heap_update hp l kwargs) l' = heap_get hp l'.
Proof.
  intros H. unfold heap_update, heap_get.
  rewrite lookup_insert_ne by congruence. reflexivity.
Qed.

(** The context [ScopedHiera.get] builds: the keyword arguments win over
    the argument [context], which wins over the context of the view. *)
Lemma ScopedHiera_get_context_lookup hp view ctx kwargs k :
  ScopedHiera_get_context hp view ctx kwargs !! k
  = match kwargs !! k with
    | Some v => Some v
    | None =>
        match ctx !! k with
        | Some v => Some v
        | None => heap_get hp (scoped_context view) !! k
        end
    end.
Proof.
  unfold ScopedHiera_get_context. rewrite !update_lookup, lookup_empty.
  destruct (kwargs !! k), (ctx !! k), (heap_get hp (scoped_context view) !! k);
    reflexivity.
Qed.

(** The keyword arguments [ScopedHiera.has] builds: the context of the
    view wins over the keyword arguments of the call. *)
Lemma ScopedHiera_has_kwargs_lookup hp view kwargs k :
  ScopedHiera_has_kwargs hp view kwargs !! k
  = match heap_get hp (scoped_context view) !! k with
    | Some v => Some v
    | None => kwargs !! k
    end.
Proof. unfold ScopedHiera_has_kwargs. apply update_lookup. Qed.

(** C8 at the failing input.  A view bound to [env = prod] is asked for
    a key that only the [dev] document holds, with the override
    [env = dev]: [get] lets the override win and finds the key, [has]
    lets the bound context win and answers that the key is absent. *)
Lemma scoped_has_bound_context_wins :
  let view := fst (Hiera_scoped ∅ (Some 9%positive) (<["env" := VStr "prod"]> ∅)) in
  let hp := snd (Hiera_scoped ∅ (Some 9%positive) (<["env" := VStr "prod"]> ∅)) in
  fst (ScopedHiera_get example_world 3 hp view example_engine
         (Some "only_dev") VNone None false true ∅
         (<["env" := VStr "dev"]> ∅))
  = Ok (VInt 1)
  /\ fst (ScopedHiera_has example_world 3 hp view example_engine
            (Some "only_dev") (<["env" := VStr "dev"]> ∅))
     = Ok false
  /\ ScopedHiera_has_kwargs hp view (<["env" := VStr "dev"]> ∅) !! "env"
     = Some (VStr "prod")
  /\ ScopedHiera_get_context hp view ∅ (<["env" := VStr "dev"]> ∅) !! "env"
     = Some (VStr "dev").
Proof. repeat split; vm_compute; reflexivity. Qed.

(** Loading documents changes the cache of the engine, never the
    reference it holds to its context dictionary. *)
Lemma load_file_context W self path b ic :
  context (snd (load_file W self path b ic)) = context self.
Proof.
  unfold load_file.
  destruct (negb _ || ic); [|reflexivity].
  destruct (bind _ _); reflexivity.
Qed.

Lemma load_files_context W files : forall self root b,
  context (snd (load_files W self root files b)) = context self.
Proof.
  induction files as [|f files IH]; intros self root b; cbn [load_files];
    [reflexivity|].
  destruct (match b with Some b0 => Some b0 | None => _ end) as [b'|]; [|apply IH].
  pose proof (load_file_context W self (path_join root f) b' false) as H.
  destruct (load_file W self (path_join root f) b' false) as [[p|e|] s1];
    cbn [snd] in *; try exact H.
  specialize (IH s1 root (Some b')).
  destruct (load_files W s1 root files (Some b')) as [[[ps b2]|e|] s2];
    cbn [snd] in *; congruence.
Qed.

Lemma load_dirs_context W dirs : forall self b,
  context (snd (load_dirs W self dirs b)) = context self.
Proof.
  induction dirs as [|[root files] dirs IH]; intros self b; cbn [load_dirs];
    [reflexivity|].
  pose proof (load_files_context W files self root b) as H.
  destruct (load_files W self root files b) as [[[ps b']|e|] s1];
    cbn [snd] in *; try exact H.
  specialize (IH s1 b').
  destruct (load_dirs W s1 dirs b') as [[qs|e|] s2]; cbn [snd] in *; congruence.
Qed.

Lemma candidate_context W self ctx b level :
  context (snd (candidate W self ctx b level)) = context self.
Proof.
  unfold candidate.
  destruct (match datadir b with VStr d => _ | _ => _ end) as [path|e|];
    [|destruct e; reflexivity|reflexivity].
  destruct (os_path_isdir W path); [apply load_dirs_context|].
  destruct (os_path_exists W _); [|reflexivity].
  pose proof (load_file_context W self (path +:+ "." +:+ NAME (cls b)) b false) as H.
  destruct (load_file W self _ b false) as [[p|e|] s1]; exact H.
Qed.

Lemma collect_context W ctx pairs : forall self,
  context (snd (collect W self ctx pairs)) = context self.
Proof.
  induction pairs as [|[b level] pairs IH]; intros self; cbn [collect];
    [reflexivity|].
  pose proof (candidate_context W self ctx b level) as H.
  destruct (candidate W self ctx b level) as [[ps|e|] s1];
    cbn [snd] in *; try exact H.
  specialize (IH s1).
  destruct (collect W s1 ctx pairs) as [[qs|e|] s2]; cbn [snd] in *; congruence.
Qed.

Lemma Hiera_get_context W fuel hp self key default merge deep throw ctx kwargs :
  context (snd (Hiera_get W fuel hp self key default merge deep throw ctx kwargs))
  = context self.
Proof.
  unfold Hiera_get.
  pose proof (collect_context W (assemble_context hp self ctx kwargs)
                (candidate_pairs self) self) as H.
  destruct (collect W self _ (candidate_pairs self)) as [[ps|e|] s1]; exact H.
Qed.

Lemma Hiera_load_context W fuel hp config classes c self :
  Hiera_load W fuel hp config classes c = Ok self -> context self = c.
Proof.
  unfold Hiera_load.
  destruct (match config with BaseDict d => _ | _ => _ end) as [bb|e|];
    cbn [bind]; try discriminate.
  destruct (negb (truthy (fst bb))); [discriminate|].
  destruct (sym_lookup (fst bb) "backends" VNone); cbn [bind]; try discriminate.
  destruct (py_iter _); cbn [bind]; try discriminate.
  destruct (for_each (load_backend classes (fst bb)) _ _) as [bs|e|];
    cbn [bind]; try discriminate.
  destruct (Nat.eqb (length bs) 0); [discriminate|].
  destruct (sym_lookup (fst bb) "hierarchy" VNone) as [hier|e|];
    cbn [bind]; try discriminate.
  destruct (is_none hier); [discriminate|].
  destruct (py_iter hier); cbn [bind]; try discriminate.
  destruct (for_each _ _ _) as [levels|e|]; cbn [bind]; try discriminate.
  destruct (for_each _ _ _) as [bs'|e|]; cbn [bind]; try discriminate.
  match goal with
  | |- context [Hiera_get W fuel hp ?s ?k ?d ?m ?dp ?t ?cx ?kw] =>
      pose proof (Hiera_get_context W fuel hp s k d m dp t cx kw) as H;
      destruct (Hiera_get W fuel hp s k d m dp t cx kw) as [[v|e|] s1]
  end; try discriminate.
  intros [= <-]. exact H.
Qed.

(** C10. The constructor and [scoped] keep the dictionary object they
    are given (the engine and the view refer to it) and insert the
    keyword overrides into that object: afterwards it holds every
    override, whether or not the construction of the engine succeeds,
    and no other dictionary object has changed.  When [context] is
    omitted the object is the default of the parameter, one object per
    function, so an override given to one construction is seen by a
    later construction that omits [context] and does not override the
    same variable. *)
Theorem context_updated_in_place (W : World) (fuel : nat) (hp : heap)
    (config : base_config) (classes : option (list backend_class))
    (d : loc) (kwargs : context_map) (k : string) (v : pyval) :
  kwargs !! k = Some v ->
  (let r := Hiera_init W fuel hp config classes (Some d) kwargs in
   heap_get (snd r) d = update (heap_get hp d) kwargs
   /\ heap_get (snd r) d !! k = Some v
   /\ (forall self, fst r = Ok self -> context self = d)
   /\ (forall l, l <> d -> heap_get (snd r) l = heap_get hp l))
  /\ (let s := Hiera_scoped hp (Some d) kwargs in
      heap_get (snd s) d = update (heap_get hp d) kwargs
      /\ heap_get (snd s) d !! k = Some v
      /\ scoped_context (fst s) = d
      /\ (forall l, l <> d -> heap_get (snd s) l = heap_get hp l))
  /\ (forall fuel2 config2 classes2 kwargs2,
        let r1 := Hiera_init W fuel hp config classes None kwargs in
        let r2 := Hiera_init W fuel2 (snd r1) config2 classes2 None kwargs2 in
        kwargs2 !! k = None ->
        heap_get (snd r2) Hiera_init_default_context !! k = Some v
        /\ (forall self1 self2, fst r1 = Ok self1 -> fst r2 = Ok self2 ->
                                context self1 = context self2))
  /\ (forall kwargs2,
        let s1 := Hiera_scoped hp None kwargs in
        let s2 := Hiera_scoped (snd s1) None kwargs2 in
        kwargs2 !! k = None ->
        heap_get (snd s2) Hiera_scoped_default_context !! k = Some v
        /\ scoped_context (fst s1) = scoped_context (fst s2)).
Proof.
  intros Hk. split; [|split; [|split]].
  - cbn [Hiera_init fst snd]. split; [apply heap_get_update|].
    split; [now rewrite heap_get_update, update_lookup, Hk|].
    split; [intros self; apply Hiera_load_context|].
    intros l Hl. now apply heap_get_update_ne.
  - cbn [Hiera_scoped fst snd scoped_context].
    split; [apply heap_get_update|].
    split; [now rewrite heap_get_update, update_lookup, Hk|].
    split; [reflexivity|].
    intros l Hl. now apply heap_get_update_ne.
  - intros fuel2 config2 classes2 kwargs2. cbn [Hiera_init fst snd].
    intros Hk2. split.
    + now rewrite !heap_get_update, !update_lookup, Hk2, Hk.
    + intros self1 self2 H1 H2.
      rewrite (Hiera_load_context _ _ _ _ _ _ _ H1),
              (Hiera_load_context _ _ _ _ _ _ _ H2).
      reflexivity.
  - intros kwargs2. cbn [Hiera_scoped fst snd scoped_context].
    intros Hk2. split; [|reflexivity].
    now rewrite !heap_get_update, !update_lookup, Hk2, Hk.
Qed.

Lemma context_updated_in_place_witness :
  heap_get
    (snd (Hiera_init example_world 3 (<[7%positive := <["region" := VStr "eu"]> ∅]> ∅)
            example_config None (Some 7%positive) (<["env" := VStr "prod"]> ∅)))
    7%positive
  = <["env" := VStr "prod"]> (<["region" := VStr "eu"]> ∅).
Proof.
  rewrite (fun h =>
             proj1 (proj1 (context_updated_in_place example_world 3
                      (<[7%positive := <["region" := VStr "eu"]> ∅]> ∅)
                      example_config None 7%positive
                      (<["env" := VStr "prod"]> ∅) "env" (VStr "prod") h)));
    vm_compute; reflexivity.
Defined.

(** The engine of the examples is the one the constructor builds, up to
    the document it loads at once. *)
Example example_engine_built :
  fst (Hiera_init example_world 3 ∅ example_config None None ∅)
  = Ok (set_cache example_engine
          (<["/data/common.yaml" :=
               VDict [("k", VStr "common"); ("c", VInt 3)]]> ∅)
          ["/data/common.yaml"]).
Proof. vm_compute. reflexivity. Qed.

(** ** More fuel does not change an outcome *)

Lemma refines_refl {A} (r : result A) : refines r r.
Proof. now right. Qed.

Lemma refines_trans {A} (r1 r2 r3 : result A) :
  refines r1 r2 -> refines r2 r3 -> refines r1 r3.
Proof. intros [->| ->] H; [now left|exact H]. Qed.

Lemma bind_refines {A B} (m m' : result A) (k k' : A -> result B) :
  refines m m' -> (forall a, refines (k a) (k' a)) ->
  refines (bind m k) (bind m' k').
Proof.
  intros [->| ->] Hk; [now left|].
  destruct m' as [a| |]; cbn; [apply Hk|now right|now right].
Qed.

Lemma for_each_refines {A S} (f f' : S -> A -> result S) l :
  (forall s x, refines (f s x) (f' s x)) ->
  forall s, refines (for_each f l s) (for_each f' l s).
Proof.
  intros Hf. induction l as [|x l IH]; intros s; cbn [for_each].
  - apply refines_refl.
  - apply bind_refines; [apply Hf|exact IH].
Qed.

Section Monotone.
Variable W : World.
Variable c : gmap string pyval.
Variable ctx : context_map.
Variables G G' : option string -> option Merge -> result pyval.
Variables R R' : pyval -> option Merge -> result pyval.
Hypothesis HG : forall k m, refines (G k m) (G' k m).
Hypothesis HR : forall s m, refines (R s m) (R' s m).

Lemma resolve_call_refines merge s call :
  refines (resolve_call W ctx G merge s call) (resolve_call W ctx G' merge s call).
Proof.
  unfold resolve_call. destruct call as [f arg].
  apply bind_refines; [|intros a; apply refines_refl].
  destruct f; try apply refines_refl; apply HG.
Qed.

Lemma resolve_function_refines s merge :
  refines (resolve_function W ctx G s merge) (resolve_function W ctx G' s merge).
Proof.
  unfold resolve_function.
  destruct (function_findall s) as [|[f k] calls].
  - apply refines_refl.
  - assert (Hloop : refines
              (for_each (resolve_call W ctx G merge) ((f, k) :: calls) (VStr s))
              (for_each (resolve_call W ctx G' merge) ((f, k) :: calls) (VStr s)))
      by (apply for_each_refines; intros; apply resolve_call_refines).
    destruct f; try exact Hloop.
    destruct calls; [|exact Hloop].
    destruct (negb _); [apply refines_refl|].
    destruct (HG (Some k) merge) as [->| ->]; [now left|apply refines_refl].
Qed.

Lemma resolve_dict_refines items : forall new_obj merge,
  refines (resolve_dict R items new_obj merge) (resolve_dict R' items new_obj merge).
Proof.
  induction items as [|[k v] items IH]; intros new_obj merge; cbn [resolve_dict].
  - apply refines_refl.
  - apply bind_refines; [apply HR|]. intros a. apply IH.
Qed.

Lemma resolve_list_refines l merge :
  refines (resolve_list R l merge) (resolve_list R' l merge).
Proof.
  induction l as [|x l IH]; cbn [resolve_list].
  - apply refines_refl.
  - apply bind_refines; [apply HR|]. intros a.
    apply bind_refines; [exact IH|]. intros b. apply refines_refl.
Qed.

Lemma resolve_body_refines s merge :
  refines (resolve_body W ctx G R s merge) (resolve_body W ctx G' R' s merge).
Proof.
  unfold resolve_body. destruct s; try apply refines_refl.
  - destruct (negb _); [apply refines_refl|].
    apply bind_refines; [apply resolve_function_refines|].
    intros a. apply refines_refl.
  - apply bind_refines; [apply resolve_list_refines|]. intros a. apply refines_refl.
  - apply bind_refines; [apply resolve_dict_refines|]. intros a. apply refines_refl.
Qed.

Lemma get_key_loop_refines key merge ps : forall merges,
  refines (get_key_loop c R key merge ps merges)
          (get_key_loop c R' key merge ps merges).
Proof.
  induction ps as [|p ps IH]; intros merges; cbn [get_key_loop].
  - apply refines_refl.
  - destruct (c !! p) as [doc|]; [|apply refines_refl].
    destruct key as [k|]; [|apply IH].
    destruct (negb (is_none doc)); [|apply IH].
    apply bind_refines; [apply refines_refl|]. intros found.
    destruct (negb (is_none found)); [|apply IH].
    apply bind_refines; [apply HR|]. intros v.
    destruct merge as [m|]; [|apply refines_refl].
    destruct merges as [acc|].
    + apply bind_refines; [apply refines_refl|]. intros acc'. apply IH.
    + apply bind_refines; [apply refines_refl|]. intros acc'. apply IH.
Qed.
End Monotone.

Lemma fuel_step W c paths ctx n :
  (forall k m, refines (get_key W n c k paths ctx m) (get_key W (S n) c k paths ctx m))
  /\ (forall s m, refines (resolve W n c s paths ctx m) (resolve W (S n) c s paths ctx m)).
Proof.
  induction n as [|n [IHg IHr]].
  - split; intros; now left.
  - split.
    + intros k m. rewrite !get_key_eq. unfold get_key_body.
      apply get_key_loop_refines. exact IHr.
    + intros s m. rewrite !resolve_eq.
      apply resolve_body_refines; assumption.
Qed.

(** An outcome reached with some fuel is the outcome with any larger
    fuel. *)
Lemma get_key_fuel W c paths ctx n m k mg r :
  (n <= m)%nat -> get_key W n c k paths ctx mg = r -> r <> OutOfFuel ->
  get_key W m c k paths ctx mg = r.
Proof.
  intros Hle Hr Hne. induction Hle as [|m Hle IH]; [exact Hr|].
  destruct (proj1 (fuel_step W c paths ctx m) k mg) as [H|H]; congruence.
Qed.

Lemma resolve_fuel W c paths ctx n m s mg r :
  (n <= m)%nat -> resolve W n c s paths ctx mg = r -> r <> OutOfFuel ->
  resolve W m c s paths ctx mg = r.
Proof.
  intros Hle Hr Hne. induction Hle as [|m Hle IH]; [exact Hr|].
  destruct (proj2 (fuel_step W c paths ctx m) s mg) as [H|H]; congruence.
Qed.

Lemma Hiera_get_fuel W n m hp self key default merge deep throw ctx kwargs r
    self1 :
  (n <= m)%nat ->
  Hiera_get W n hp self key default merge deep throw ctx kwargs = (r, self1) ->
  r <> OutOfFuel ->
  Hiera_get W m hp self key default merge deep throw ctx kwargs = (r, self1).
Proof.
  intros Hle. unfold Hiera_get.
  destruct (collect W self _ (candidate_pairs self)) as [[paths|e|] s1];
    [|intros H _; exact H..].
  intros [= <- <-] Hne. f_equal.
  match goal with
  | |- or_default _ _ (get_key W m ?c ?k ?ps ?cx ?mg) = _ =>
      rewrite (get_key_fuel W c ps cx n m k mg (get_key W n c k ps cx mg) Hle eq_refl)
  end; [reflexivity|].
  intros H. apply Hne. rewrite H. reflexivity.
Qed.

(** * Further properties of the code *)

(** ** Dotted keys compose *)

Lemma split_dot_nonempty s : split_dot s <> [].
Proof.
  destruct s as [|c s]; cbn [split_dot]; [discriminate|].
  destruct (Ascii.eqb c "."); [discriminate|].
  destruct (split_dot s); discriminate.
Qed.

Lemma split_dot_app a b :
  split_dot (a +:+ String "." b) = split_dot a ++ split_dot b.
Proof.
  induction a as [|c a IH].
  - reflexivity.
  - change (String c a +:+ String "." b) with (String c (a +:+ String "." b)).
    cbn [split_dot]. rewrite IH.
    destruct (Ascii.eqb c "."); [reflexivity|].
    pose proof (split_dot_nonempty a) as Hne.
    destruct (split_dot a) as [|h t]; [contradiction|reflexivity].
Qed.

Lemma for_each_app {A S} (f : S -> A -> result S) l1 l2 s :
  for_each f (l1 ++ l2) s = do s' <- for_each f l1 s; for_each f l2 s'.
Proof.
  revert s. induction l1 as [|x l1 IH]; intros s; cbn [for_each app bind].
  - reflexivity.
  - destruct (f s x) as [s'| |]; cbn [bind]; [apply IH|reflexivity..].
Qed.

(** X1. A dotted key is looked up segment by segment: the lookup of
    [a.b] is the lookup of [b] in what the lookup of [a] gives, and an
    error of the first part is the error of the whole. *)
Theorem lookup_dotted (doc : pyval) (a b : string) :
  lookup doc (a +:+ String "." b) = do v <- lookup doc a; lookup v b.
Proof.
  unfold lookup. rewrite split_dot_app. apply for_each_app.
Qed.

(** ** Deep merge, key by key *)

Lemma odict_mem_get {V} (d : list (string * V)) k :
  odict_mem d k = match odict_get d k with Some _ => true | None => false end.
Proof. reflexivity. Qed.

Lemma odict_set_keys {V} (d : list (string * V)) k v :
  List.map fst (odict_set d k v)
  = if odict_mem d k then List.map fst d else List.map fst d ++ [k].
Proof.
  unfold odict_mem. induction d as [|[k' v'] d IH]; cbn [odict_set odict_get List.map app].
  - reflexivity.
  - destruct (String.eqb k' k) eqn:E; cbn [List.map fst].
    + apply String.eqb_eq in E. now subst.
    + rewrite IH. destruct (odict_get d k); reflexivity.
Qed.

Lemma deep_merge_step_keys result k v :
  List.map fst (deep_merge_step result (k, v))
  = if odict_mem result k then List.map fst result else List.map fst result ++ [k].
Proof.
  unfold deep_merge_step.
  destruct (odict_get result k) as [[]|] eqn:E; try destruct v;
    apply odict_set_keys.
Qed.

Lemma odict_mem_step_other result k k' v :
  k' <> k ->
  odict_mem (deep_merge_step result (k', v)) k = odict_mem result k.
Proof.
  intros H. unfold odict_mem. now rewrite deep_merge_step_other.
Qed.

(** X2. [deep_merge] keeps the keys of [a] in their order and appends
    the keys that only [b] has, in the order of [b]. *)
Theorem deep_merge_key_order (a b : list (string * pyval)) :
  NoDup (List.map fst b) ->
  exists result,
    deep_merge a (VDict b) = VDict result
    /\ List.map fst result
       = List.map fst a
         ++ List.filter (fun k => negb (odict_mem a k)) (List.map fst b).
Proof.
  intros Hnd. rewrite deep_merge_fold. eexists; split; [reflexivity|].
  revert a. induction b as [|[k v] b IH]; intros a; cbn [fold_left List.map List.filter fst].
  - now rewrite app_nil_r.
  - cbn [List.map fst] in Hnd. apply NoDup_cons in Hnd as [Hk Hnd].
    rewrite (IH Hnd), deep_merge_step_keys.
    assert (Hf : List.filter (fun k0 => negb (odict_mem (deep_merge_step a (k, v)) k0))
                   (List.map fst b)
                 = List.filter (fun k0 => negb (odict_mem a k0)) (List.map fst b)).
    { apply filter_ext_in. intros k0 Hin. f_equal.
      apply odict_mem_step_other. intros ->. apply Hk.
      apply list_elem_of_In. exact Hin. }
    rewrite Hf. destruct (odict_mem a k); cbn [negb]; [reflexivity|].
    now rewrite <- app_assoc.
Qed.

Lemma deep_merge_key_order_witness :
  exists result,
    deep_merge [("a", VInt 1); ("l", VList [VInt 1])]
      (VDict [("z", VInt 3); ("l", VList [VInt 2]); ("a", VInt 0)])
    = VDict result
    /\ List.map fst result
       = List.map fst [("a", VInt 1); ("l", VList [VInt 1])]
         ++ List.filter
              (fun k => negb (odict_mem [("a", VInt 1); ("l", VList [VInt 1])] k))
              (List.map fst [("z", VInt 3); ("l", VList [VInt 2]); ("a", VInt 0)]).
Proof.
  apply (deep_merge_key_order [("a", VInt 1); ("l", VList [VInt 1])]
           [("z", VInt 3); ("l", VList [VInt 2]); ("a", VInt 0)]).
  apply (bool_decide_unpack _). vm_compute. exact I.
Defined.

(** X3. [deep_merge] key by key: a key that [b] lacks keeps its value
    in [a]; for a key of [b], a mapping in [a] is merged recursively, a
    list in [a] is extended (by the new items of a list, or by the value
    itself), and any other or no value in [a] is replaced by that of
    [b]. *)
Theorem deep_merge_lookup (a b : list (string * pyval)) (k : string) :
  NoDup (List.map fst b) ->
  exists result,
    deep_merge a (VDict b) = VDict result
    /\ odict_get result k
       = match odict_get b k with
         | None => odict_get a k
         | Some v =>
             Some (match odict_get a k with
                   | Some (VDict ra) => deep_merge ra v
                   | Some (VList la) =>
                       match v with
                       | VList lb =>
                           VList (la ++ List.filter (fun x => negb (py_in x la)) lb)
                       | _ => VList (la ++ [v])
                       end
                   | _ => v
                   end)
         end.
Proof.
  intros Hnd. rewrite deep_merge_fold. eexists; split; [reflexivity|].
  revert a. induction b as [|[k' v'] b IH]; intros a; cbn [fold_left odict_get].
  - reflexivity.
  - cbn [List.map fst] in Hnd. apply NoDup_cons in Hnd as [Hk' Hnd].
    destruct (String.eqb k' k) eqn:E.
    + apply String.eqb_eq in E. subst k'.
      rewrite fold_deep_merge_step_other
        by (intros Hin; apply Hk'; apply list_elem_of_In; exact Hin).
      unfold deep_merge_step.
      destruct (odict_get a k) as [[]|]; try destruct v'; apply odict_get_set_eq.
    + rewrite (IH Hnd).
      rewrite deep_merge_step_other; [reflexivity|].
      intros ->. rewrite String.eqb_refl in E. discriminate.
Qed.

Lemma deep_merge_lookup_witness :
  exists result,
    deep_merge [("n", VDict [("p", VInt 1)]); ("l", VList [VInt 1])]
      (VDict [("n", VDict [("q", VInt 2)]); ("l", VInt 5)])
    = VDict result
    /\ odict_get result "n"
       = match odict_get [("n", VDict [("q", VInt 2)]); ("l", VInt 5)] "n" with
         | None => odict_get [("n", VDict [("p", VInt 1)]); ("l", VList [VInt 1])] "n"
         | Some v =>
             Some (match odict_get [("n", VDict [("p", VInt 1)]); ("l", VList [VInt 1])] "n" with
                   | Some (VDict ra) => deep_merge ra v
                   | Some (VList la) =>
                       match v with
                       | VList lb =>
                           VList (la ++ List.filter (fun x => negb (py_in x la)) lb)
                       | _ => VList (la ++ [v])
                       end
                   | _ => v
                   end)
         end.
Proof.
  apply (deep_merge_lookup [("n", VDict [("p", VInt 1)]); ("l", VList [VInt 1])]
           [("n", VDict [("q", VInt 2)]); ("l", VInt 5)] "n").
  apply (bool_decide_unpack _). vm_compute. exact I.
Defined.

(** ** [sym_lookup] on a mapping *)

Lemma sym_lookup_dict (d : list (string * pyval)) (key : string)
    (default : pyval) :
  sym_lookup (VDict d) key default
  = Ok (match odict_get d key with
        | Some v => v
        | None =>
            match odict_get d (String ":" key) with
            | Some v => v
            | None => default
            end
        end).
Proof.
  unfold sym_lookup, py_contains, py_getitem_str, odict_mem. cbn [bind].
  destruct (odict_get d key); [reflexivity|]. cbn [bind].
  destruct (odict_get d (String ":" key)); reflexivity.
Qed.

(** ** Values that need no resolution *)

Lemma odict_set_fresh {V} (d : list (string * V)) k v :
  odict_mem d k = false -> odict_set d k v = d ++ [(k, v)].
Proof.
  unfold odict_mem. induction d as [|[k' v'] d IH]; cbn [odict_set odict_get app];
    [reflexivity|].
  destruct (String.eqb k' k); [discriminate|]. intros H. now rewrite IH.
Qed.

Lemma odict_mem_app {V} (d1 d2 : list (string * V)) k :
  odict_mem (d1 ++ d2) k = odict_mem d1 k || odict_mem d2 k.
Proof.
  unfold odict_mem. induction d1 as [|[k' v'] d1 IH]; cbn [odict_get app].
  - reflexivity.
  - destruct (String.eqb k' k); [reflexivity|exact IH].
Qed.

Section Inert.
Variable R : pyval -> option Merge -> result pyval.

Lemma resolve_list_id l merge :
  (forall x, In x l -> R x merge = Ok x) -> resolve_list R l merge = Ok l.
Proof.
  induction l as [|x l IH]; intros H; cbn [resolve_list]; [reflexivity|].
  rewrite (H x (or_introl eq_refl)). cbn [bind].
  rewrite IH by (intros y Hy; apply H; now right). reflexivity.
Qed.

Lemma resolve_dict_id items merge : forall acc,
  (forall kv, In kv items -> R (snd kv) merge = Ok (snd kv)) ->
  nodup_keys items = true ->
  (forall kv, In kv items -> odict_mem acc (fst kv) = false) ->
  resolve_dict R items acc merge = Ok (acc ++ items).
Proof.
  induction items as [|[k v] items IH]; intros acc HR Hnd Hacc; cbn [resolve_dict].
  - now rewrite app_nil_r.
  - pose proof (HR (k, v) (or_introl eq_refl)) as Hv. cbn [snd] in Hv.
    rewrite Hv. cbn [bind].
    cbn [nodup_keys] in Hnd. apply andb_true_iff in Hnd as [Hk Hnd].
    apply negb_true_iff in Hk.
    rewrite (odict_set_fresh acc k v (Hacc (k, v) (or_introl eq_refl))).
    rewrite IH.
    + now rewrite <- app_assoc.
    + intros kv Hin. apply HR. now right.
    + exact Hnd.
    + intros [k' v'] Hin. cbn [fst]. rewrite odict_mem_app.
      pose proof (Hacc (k', v') (or_intror Hin)) as Ha. cbn [fst] in Ha.
      rewrite Ha. cbn [orb].
      unfold odict_mem. cbn [odict_get].
      destruct (String.eqb k k') eqn:E; [|reflexivity].
      apply String.eqb_eq in E. subst k'. exfalso.
      clear -Hk Hin. unfold odict_mem in Hk.
      induction items as [|[k2 v2] items IH]; [contradiction|].
      cbn [odict_get] in Hk. destruct (String.eqb k2 k) eqn:E; [discriminate|].
      destruct Hin as [[= -> ->]|Hin]; [rewrite String.eqb_refl in E; discriminate|].
      auto.
Qed.
End Inert.

Lemma resolve_inert (W : World) (n : nat) (c : gmap string pyval)
    (paths : list string) (ctx : context_map) (v : pyval) (merge : option Merge) :
  inert n v = true -> resolve W n c v paths ctx merge = Ok v.
Proof.
  revert v merge. induction n as [|n IH]; intros v merge; [discriminate|].
  cbn [inert]. rewrite resolve_eq. unfold resolve_body.
  destruct v; try reflexivity.
  - intros H. rewrite H. reflexivity.
  - intros H. rewrite resolve_list_id; [reflexivity|].
    intros x Hx. apply IH. rewrite forallb_forall in H. apply H, Hx.
  - intros H. apply andb_true_iff in H as [Hnd H].
    rewrite (resolve_dict_id _ d merge []); [reflexivity| |exact Hnd|reflexivity].
    intros kv Hin. apply IH. rewrite forallb_forall in H. apply H, Hin.
Qed.

Lemma inert_mono n : forall v, inert n v = true -> inert (S n) v = true.
Proof.
  induction n as [|n IH]; intros v; [discriminate|].
  change (inert (S (S n)) v)
    with (match v with
          | VStr _ => negb (can_resolve v)
          | VList l => forallb (inert (S n)) l
          | VDict d => nodup_keys d && forallb (fun kv => inert (S n) (snd kv)) d
          | _ => true
          end).
  cbn [inert]. destruct v; try (intros H; exact H).
  - intros H. apply forallb_forall. intros x Hx. apply IH.
    rewrite forallb_forall in H. apply H, Hx.
  - intros H. apply andb_true_iff in H as [Hk H]. rewrite Hk. cbn [andb].
    apply forallb_forall. intros x Hx. apply IH.
    rewrite forallb_forall in H. apply H, Hx.
Qed.

Lemma inert_le n m v : (n <= m)%nat -> inert n v = true -> inert m v = true.
Proof.
  induction 1 as [|m _ IH]; [trivial|]. intros H. apply inert_mono, IH, H.
Qed.

(** X4. [resolve] returns unchanged a value in which no string holds a
    function call or an interpolation: scalars, such strings, and lists
    and mappings of such values at any depth the fuel covers. *)
Theorem resolve_fixes_inert (W : World) (n m : nat) (c : gmap string pyval)
    (paths : list string) (ctx : context_map) (v : pyval)
    (merge : option Merge) :
  inert n v = true -> (n <= m)%nat ->
  resolve W m c v paths ctx merge = Ok v.
Proof.
  intros H Hle. apply resolve_inert. exact (inert_le n m v Hle H).
Qed.

Lemma resolve_fixes_inert_witness :
  resolve example_world 5 example_layers
    (VDict [("a", VList [VStr "x"; VInt 1]); ("b", VStr "50%")])
    example_layer_paths ∅ None
  = Ok (VDict [("a", VList [VStr "x"; VInt 1]); ("b", VStr "50%")]).
Proof.
  apply (resolve_fixes_inert example_world 3 5); [vm_compute; reflexivity|lia].
Defined.

(** ** The scan with a merge strategy *)

Lemma merge_value_not_none acc v acc' :
  merge_value acc v = Ok acc' -> is_none v = false -> is_none (value acc') = false.
Proof.
  unfold merge_value.
  destruct (value acc) as [| | |s|l|d|l|] eqn:E; try discriminate.
  - intros [= <-] Hv. exact Hv.
  - destruct (py_iter v); cbn [bind]; try discriminate. now intros [= <-].
  - destruct (deep acc).
    + intros [= <-] Hv. cbn [value].
      destruct v; try reflexivity; try discriminate.
    + destruct v; try discriminate. now intros [= <-].
  - destruct (py_set v); cbn [bind]; try discriminate. now intros [= <-].
Qed.

Lemma path_holds_not_none c key p v :
  path_holds c key p = Some v -> is_none v = false.
Proof.
  unfold path_holds. destruct (c !! p) as [[]|]; try discriminate.
  destruct (lookup _ key) as [w| |]; try discriminate.
  destruct (is_none w) eqn:E; [discriminate|]. now intros [= <-].
Qed.

Lemma for_each_merge_not_none vs : forall acc acc',
  is_none (value acc) = false ->
  Forall (fun v => is_none v = false) vs ->
  for_each merge_value vs acc = Ok acc' -> is_none (value acc') = false.
Proof.
  induction vs as [|v vs IH]; intros acc acc' Ha Hvs; cbn [for_each].
  - now intros [= <-].
  - apply Forall_cons in Hvs as [Hv Hvs].
    destruct (merge_value acc v) as [acc1| |] eqn:E; cbn [bind]; try discriminate.
    apply IH; [|exact Hvs]. eapply merge_value_not_none; eassumption.
Qed.

Lemma held_values_not_none c key ps :
  Forall (fun v => is_none v = false) (held_values c key ps).
Proof.
  induction ps as [|p ps IH]; cbn [held_values]; [constructor|].
  destruct (path_holds c key p) eqn:E; [|exact IH].
  constructor; [|exact IH]. eapply path_holds_not_none, E.
Qed.

Section MergeScan.
Variable c : gmap string pyval.
Variable R : pyval -> option Merge -> result pyval.
Variable key : string.
Variable m : Merge.

Lemma get_key_loop_merge_holds p ps v acc :
  path_holds c key p = Some v ->
  (forall mg, R v mg = Ok v) ->
  get_key_loop c R (Some key) (Some m) (p :: ps) (Some acc)
  = do acc' <- merge_value acc v;
    get_key_loop c R (Some key) (Some m) ps (Some acc').
Proof.
  intros Hp HR. pose proof (path_holds_not_none _ _ _ _ Hp) as Hn.
  unfold path_holds in Hp. cbn [get_key_loop].
  destruct (c !! p) as [doc|]; [|discriminate].
  destruct doc; try discriminate.
  cbn [is_none negb try_lookup].
  destruct (lookup (VDict d) key) as [w|e|]; try discriminate.
  destruct (is_none w) eqn:Hw; [discriminate|]. injection Hp as ->.
  assert (match v with VNone => Ok VNone | _ => Ok v end = Ok v :> result pyval)
    as Hm by (destruct v; reflexivity).
  destruct v; try discriminate; cbn [bind is_none negb]; rewrite HR; reflexivity.
Qed.

Lemma get_key_loop_merge_first p ps v :
  path_holds c key p = Some v ->
  (forall mg, R v mg = Ok v) ->
  get_key_loop c R (Some key) (Some m) (p :: ps) None
  = do acc' <- merge_value (Merge_init (typ m) (deep m)) v;
    get_key_loop c R (Some key) (Some m) ps (Some acc').
Proof.
  intros Hp HR. pose proof (path_holds_not_none _ _ _ _ Hp) as Hn.
  unfold path_holds in Hp. cbn [get_key_loop].
  destruct (c !! p) as [doc|]; [|discriminate].
  destruct doc; try discriminate.
  cbn [is_none negb try_lookup].
  destruct (lookup (VDict d) key) as [w|e|]; try discriminate.
  destruct (is_none w) eqn:Hw; [discriminate|]. injection Hp as ->.
  destruct v; try discriminate; cbn [bind is_none negb]; rewrite HR; reflexivity.
Qed.

Lemma get_key_loop_merge_some ps : forall acc,
  forallb (path_decided c key) ps = true ->
  (forall v mg, In v (held_values c key ps) -> R v mg = Ok v) ->
  is_none (value acc) = false ->
  get_key_loop c R (Some key) (Some m) ps (Some acc)
  = do acc' <- for_each merge_value (held_values c key ps) acc;
    Ok (value acc').
Proof.
  induction ps as [|p ps IH]; intros acc Hd HR Hacc.
  - cbn [get_key_loop held_values for_each bind]. now rewrite Hacc.
  - cbn [forallb] in Hd. apply andb_true_iff in Hd as [Hp Hd].
    cbn [held_values] in *.
    destruct (path_holds c key p) as [v|] eqn:Hh.
    + rewrite (get_key_loop_merge_holds p ps v acc Hh)
        by (intros mg; apply HR; now left).
      cbn [for_each].
      destruct (merge_value acc v) as [acc1| |] eqn:E; cbn [bind]; try reflexivity.
      apply IH; [exact Hd|intros; apply HR; now right|].
      eapply merge_value_not_none; [exact E|].
      eapply path_holds_not_none, Hh.
    + unfold path_decided in Hp. rewrite Hh, orb_false_r in Hp.
      rewrite get_key_loop_lacks by exact Hp. apply IH; assumption.
Qed.

Lemma get_key_loop_merge_none ps :
  forallb (path_decided c key) ps = true ->
  (forall v mg, In v (held_values c key ps) -> R v mg = Ok v) ->
  get_key_loop c R (Some key) (Some m) ps None
  = match held_values c key ps with
    | [] => Raise (KeyError (Some key))
    | vs =>
        do acc <- for_each merge_value vs (Merge_init (typ m) (deep m));
        Ok (value acc)
    end.
Proof.
  induction ps as [|p ps IH]; intros Hd HR; [reflexivity|].
  cbn [forallb] in Hd. apply andb_true_iff in Hd as [Hp Hd].
  cbn [held_values] in *.
  destruct (path_holds c key p) as [v|] eqn:Hh.
  - rewrite (get_key_loop_merge_first p ps v Hh) by (intros mg; apply HR; now left).
    cbn [for_each].
    destruct (merge_value _ v) as [acc1| |] eqn:E; cbn [bind]; try reflexivity.
    apply get_key_loop_merge_some; [exact Hd|intros; apply HR; now right|].
    eapply merge_value_not_none; [exact E|]. eapply path_holds_not_none, Hh.
  - unfold path_decided in Hp. rewrite Hh, orb_false_r in Hp.
    rewrite get_key_loop_lacks by exact Hp. apply IH; assumption.
Qed.
End MergeScan.

(** With a merge strategy every value held is resolved and handed to
    the accumulator, in the order of the paths. *)
Lemma get_key_merge_scan (W : World) (fuel : nat) (c : gmap string pyval)
    (key : string) (ps : list string) (ctx : context_map) (m : Merge) :
  forallb (path_decided c key) ps = true ->
  forallb (inert fuel) (held_values c key ps) = true ->
  get_key W (S fuel) c (Some key) ps ctx (Some m)
  = match held_values c key ps with
    | [] => Raise (KeyError (Some key))
    | vs =>
        do acc <- for_each merge_value vs (Merge_init (typ m) (deep m));
        Ok (value acc)
    end.
Proof.
  intros Hd Hi. rewrite get_key_eq.
  apply get_key_loop_merge_none; [exact Hd|].
  intros v mg Hin. apply resolve_inert.
  rewrite forallb_forall in Hi. apply Hi, Hin.
Qed.

(** ** The strategies *)

Lemma merge_lists ls : forall t dp l0,
  for_each merge_value (List.map VList ls) (mkMerge t dp (VList l0))
  = Ok (mkMerge t dp (VList (l0 ++ concat ls))).
Proof.
  induction ls as [|l ls IH]; intros t dp l0; cbn [List.map for_each concat].
  - now rewrite app_nil_r.
  - cbn [merge_value value py_iter bind typ deep]. rewrite IH.
    now rewrite app_assoc.
Qed.

Lemma shallow_fold_get items : forall acc k,
  odict_get (fold_left shallow_step items acc) k
  = match odict_get acc k with
    | Some v => Some v
    | None => odict_get items k
    end.
Proof.
  induction items as [|[k' v'] items IH]; intros acc k; cbn [fold_left odict_get].
  - destruct (odict_get acc k); reflexivity.
  - rewrite IH. unfold shallow_step, odict_mem. cbn [fst snd].
    destruct (odict_get acc k') eqn:E'.
    + destruct (odict_get acc k) eqn:E; [reflexivity|].
      destruct (String.eqb k' k) eqn:Ek; [|reflexivity].
      apply String.eqb_eq in Ek. congruence.
    + destruct (String.eqb k' k) eqn:Ek.
      * apply String.eqb_eq in Ek. subst k'. rewrite odict_get_set_eq, E'. reflexivity.
      * rewrite odict_get_set_ne
          by (intros ->; rewrite String.eqb_refl in Ek; discriminate).
        reflexivity.
Qed.

Lemma merge_shallow ds : forall t d0,
  exists result,
    for_each merge_value (List.map VDict ds) (mkMerge t false (VDict d0))
    = Ok (mkMerge t false (VDict result))
    /\ forall k, odict_get result k
                 = match odict_get d0 k with
                   | Some v => Some v
                   | None => first_binding ds k
                   end.
Proof.
  induction ds as [|d ds IH]; intros t d0; cbn [List.map for_each].
  - exists d0. split; [reflexivity|]. intros k. cbn. destruct (odict_get d0 k); reflexivity.
  - cbn [merge_value value deep typ bind].
    destruct (IH t (fold_left shallow_step d d0)) as [result [Hr Hk]].
    exists result. split; [exact Hr|].
    intros k. rewrite Hk. change (fold_left _ d d0) with (fold_left shallow_step d d0).
    rewrite shallow_fold_get. cbn [first_binding].
    destruct (odict_get d0 k); reflexivity.
Qed.

Lemma merge_strings vs : forall t dp s0 v,
  forallb is_str vs = true ->
  for_each merge_value (vs ++ [v]) (mkMerge t dp (VStr s0))
  = Ok (mkMerge t dp v).
Proof.
  induction vs as [|x vs IH]; intros t dp s0 v H; cbn [app for_each].
  - reflexivity.
  - cbn [forallb] in H. apply andb_true_iff in H as [Hx H].
    destruct x; try discriminate. cbn [merge_value value bind typ deep].
    apply IH, H.
Qed.

Lemma merge_deep ds : forall t d0,
  exists acc,
    for_each merge_value (List.map VDict ds) (mkMerge t true (VDict d0)) = Ok acc
    /\ value acc = deep_merge_all d0 ds.
Proof.
  induction ds as [|d ds IH]; intros t d0; cbn [List.map for_each deep_merge_all].
  - eexists; split; reflexivity.
  - cbn [merge_value value deep typ bind]. rewrite deep_merge_fold. apply IH.
Qed.

(** X5. With the list strategy, when every candidate path that holds
    the key holds a list of values that need no resolution, [get_key]
    returns the concatenation of these lists in the order of the paths,
    duplicates kept. *)
Theorem get_key_list_strategy (W : World) (fuel : nat) (c : gmap string pyval)
    (key : string) (ps : list string) (ctx : context_map) (dp : bool)
    (l : list pyval) (ls : list (list pyval)) :
  forallb (path_decided c key) ps = true ->
  held_values c key ps = List.map VList (l :: ls) ->
  forallb (inert fuel) (held_values c key ps) = true ->
  get_key W (S fuel) c (Some key) ps ctx (Some (Merge_init TList dp))
  = Ok (VList (concat (l :: ls))).
Proof.
  intros Hd Hh Hi. rewrite (get_key_merge_scan W fuel c key ps ctx _ Hd Hi), Hh.
  pose proof (merge_lists (l :: ls) TList dp []) as Hm.
  cbn [List.map] in *. unfold Merge_init. cbn [typ deep].
  rewrite Hm. reflexivity.
Qed.

Lemma get_key_list_strategy_witness :
  get_key example_world 3 example_layers (Some "l") example_layer_paths ∅
    (Some (Merge_init TList false))
  = Ok (VList (concat ([VInt 1; VInt 2] :: [[VInt 2; VInt 3]]))).
Proof.
  apply (get_key_list_strategy example_world 2 example_layers "l"
           example_layer_paths ∅ false); vm_compute; reflexivity.
Defined.

(** X6. With the mapping strategy without [deep], when the paths hold
    mappings, [get_key] returns a mapping in which every key has the
    value of the first path that has it. *)
Theorem get_key_shallow_strategy (W : World) (fuel : nat)
    (c : gmap string pyval) (key : string) (ps : list string)
    (ctx : context_map) (d : list (string * pyval))
    (ds : list (list (string * pyval))) :
  forallb (path_decided c key) ps = true ->
  held_values c key ps = List.map VDict (d :: ds) ->
  forallb (inert fuel) (held_values c key ps) = true ->
  exists result,
    get_key W (S fuel) c (Some key) ps ctx (Some (Merge_init TDict false))
    = Ok (VDict result)
    /\ forall k, odict_get result k = first_binding (d :: ds) k.
Proof.
  intros Hd Hh Hi. rewrite (get_key_merge_scan W fuel c key ps ctx _ Hd Hi), Hh.
  destruct (merge_shallow (d :: ds) TDict []) as [result [Hm Hk]].
  cbn [List.map] in *. unfold Merge_init. cbn [typ deep].
  rewrite Hm. exists result. split; [reflexivity|]. intros k. now rewrite Hk.
Qed.

Lemma get_key_shallow_strategy_witness :
  exists result,
    get_key example_world 4 example_layers (Some "d") example_layer_paths ∅
      (Some (Merge_init TDict false))
    = Ok (VDict result)
    /\ forall k,
         odict_get result k
         = first_binding
             ([("x", VInt 1); ("n", VDict [("p", VInt 1)])]
              :: [[("x", VInt 2); ("y", VInt 3); ("n", VDict [("q", VInt 2)])]]) k.
Proof.
  apply (get_key_shallow_strategy example_world 3 example_layers "d"
           example_layer_paths ∅); vm_compute; reflexivity.
Defined.

(** X7. With the mapping strategy and [deep], when the paths hold
    mappings, [get_key] returns the [deep_merge] of them, taken in the
    order of the paths from the empty mapping. *)
Theorem get_key_deep_strategy (W : World) (fuel : nat)
    (c : gmap string pyval) (key : string) (ps : list string)
    (ctx : context_map) (d : list (string * pyval))
    (ds : list (list (string * pyval))) :
  forallb (path_decided c key) ps = true ->
  held_values c key ps = List.map VDict (d :: ds) ->
  forallb (inert fuel) (held_values c key ps) = true ->
  get_key W (S fuel) c (Some key) ps ctx (Some (Merge_init TDict true))
  = Ok (deep_merge_all [] (d :: ds)).
Proof.
  intros Hd Hh Hi. rewrite (get_key_merge_scan W fuel c key ps ctx _ Hd Hi), Hh.
  destruct (merge_deep (d :: ds) TDict []) as [acc [Hm Hv]].
  cbn [List.map] in Hm |- *. unfold Merge_init. cbn [typ deep].
  rewrite Hm. cbn [bind]. now rewrite Hv.
Qed.

Lemma get_key_deep_strategy_witness :
  get_key example_world 4 example_layers (Some "d") example_layer_paths ∅
    (Some (Merge_init TDict true))
  = Ok (deep_merge_all []
          ([("x", VInt 1); ("n", VDict [("p", VInt 1)])]
           :: [[("x", VInt 2); ("y", VInt 3); ("n", VDict [("q", VInt 2)])]])).
Proof.
  apply (get_key_deep_strategy example_world 3 example_layers "d"
           example_layer_paths ∅); vm_compute; reflexivity.
Defined.

(** X8. With the string strategy the value of the last path that holds
    the key is returned, provided the values before it are strings. *)
Theorem get_key_string_strategy (W : World) (fuel : nat)
    (c : gmap string pyval) (key : string) (ps : list string)
    (ctx : context_map) (dp : bool) (vs : list pyval) (v : pyval) :
  forallb (path_decided c key) ps = true ->
  held_values c key ps = vs ++ [v] ->
  forallb is_str vs = true ->
  forallb (inert fuel) (held_values c key ps) = true ->
  get_key W (S fuel) c (Some key) ps ctx (Some (Merge_init TStr dp)) = Ok v.
Proof.
  intros Hd Hh Hs Hi. rewrite (get_key_merge_scan W fuel c key ps ctx _ Hd Hi), Hh.
  pose proof (merge_strings vs TStr dp EmptyString v Hs) as Hm.
  unfold Merge_init. cbn [typ deep].
  destruct (vs ++ [v]) eqn:E; [destruct vs; discriminate|].
  rewrite Hm. reflexivity.
Qed.

Lemma get_key_string_strategy_witness :
  get_key example_world 3 example_layers (Some "s") example_layer_paths ∅
    (Some (Merge_init TStr false))
  = Ok (VStr "c").
Proof.
  apply (get_key_string_strategy example_world 2 example_layers "s"
           example_layer_paths ∅ false [VStr "a"]); vm_compute; reflexivity.
Defined.

(** X9. With a merge type that is neither list, set, mapping nor
    string, a key that some path holds makes [get_key] raise
    [TypeError]; a key no path holds raises [KeyError]. *)
Theorem get_key_unsupported_strategy (W : World) (fuel : nat)
    (c : gmap string pyval) (key : string) (ps : list string)
    (ctx : context_map) (dp : bool) :
  forallb (path_decided c key) ps = true ->
  forallb (inert fuel) (held_values c key ps) = true ->
  get_key W (S fuel) c (Some key) ps ctx (Some (Merge_init TOther dp))
  = match held_values c key ps with
    | [] => Raise (KeyError (Some key))
    | _ => Raise TypeError
    end.
Proof.
  intros Hd Hi. rewrite (get_key_merge_scan W fuel c key ps ctx _ Hd Hi).
  destruct (held_values c key ps); reflexivity.
Qed.

Lemma get_key_unsupported_strategy_witness :
  get_key example_world 3 example_layers (Some "l") example_layer_paths ∅
    (Some (Merge_init TOther false))
  = match held_values example_layers "l" example_layer_paths with
    | [] => Raise (KeyError (Some "l"))
    | _ => Raise TypeError
    end.
Proof.
  apply (get_key_unsupported_strategy example_world 2 example_layers "l"
           example_layer_paths ∅ false); vm_compute; reflexivity.
Defined.

(** ** Function calls other than alias *)

Lemma resolve_calls W fuel c s paths ctx merge f x rest :
  function_findall s = (f, x) :: rest ->
  (f = Alias -> rest <> []) ->
  resolve W (S fuel) c (VStr s) paths ctx merge
  = do base <- for_each
                 (resolve_call W ctx (fun k m => get_key W fuel c k paths ctx m) merge)
                 ((f, x) :: rest) (VStr s);
    match base with
    | VStr b => do b' <- resolve_interpolates W b ctx; Ok (VStr b')
    | _ => Ok base
    end.
Proof.
  intros Hcalls Hf. rewrite resolve_eq. unfold resolve_body, can_resolve.
  rewrite Hcalls. cbn [length Nat.eqb negb orb].
  unfold resolve_function. rewrite Hcalls.
  destruct f; try reflexivity.
  destruct rest; [now contradiction Hf|reflexivity].
Qed.

(** X10. A value whose first function call is [scope] of a variable
    that is unset or falsy, or [literal] of the empty text, makes
    [resolve] raise the exception for a call that could not be
    resolved. *)
Theorem empty_call_raises (W : World) (fuel : nat) (c : gmap string pyval)
    (s : string) (paths : list string) (ctx : context_map)
    (merge : option Merge) (f : fname) (x : string)
    (rest : list (fname * string)) :
  function_findall s = (f, x) :: rest ->
  (f = Scope /\ truthy (context_get ctx x) = false)
  \/ (f = Literal /\ x = EmptyString) ->
  resolve W (S fuel) c (VStr s) paths ctx merge
  = Raise (Exception_ (CouldNotResolve (VStr s))).
Proof.
  intros Hcalls Hf.
  rewrite (resolve_calls W fuel c s paths ctx merge f x rest Hcalls)
    by (intros ->; destruct Hf as [[? _]|[? _]]; discriminate).
  cbn [for_each]. unfold resolve_call at 1.
  destruct Hf as [[-> Hv]|[-> ->]]; cbn [bind]; [rewrite Hv|]; reflexivity.
Qed.

Lemma empty_call_raises_witness :
  resolve example_world 2 example_layers (VStr "in %{scope('zone')}")
    example_layer_paths {["zone" := VStr EmptyString]} None
  = Raise (Exception_ (CouldNotResolve (VStr "in %{scope('zone')}"))).
Proof.
  apply (empty_call_raises example_world 1 example_layers "in %{scope('zone')}"
           example_layer_paths {["zone" := VStr EmptyString]} None Scope "zone" []).
  - vm_compute. reflexivity.
  - left. split; [reflexivity|vm_compute; reflexivity].
Defined.

(** X11. When the only function call of a string is [scope] of a
    variable whose value is truthy and not a string, [resolve] returns
    that value itself; the text around the call is dropped. *)
Theorem scope_call_replaces_value (W : World) (fuel : nat)
    (c : gmap string pyval) (s : string) (paths : list string)
    (ctx : context_map) (merge : option Merge) (x : string) :
  function_findall s = [(Scope, x)] ->
  truthy (context_get ctx x) = true ->
  is_str (context_get ctx x) = false ->
  resolve W (S fuel) c (VStr s) paths ctx merge = Ok (context_get ctx x).
Proof.
  intros Hcalls Ht Hs.
  rewrite (resolve_calls W fuel c s paths ctx merge Scope x [] Hcalls)
    by discriminate.
  cbn [for_each]. unfold resolve_call. cbn [bind]. rewrite Ht, Hs. cbn [negb bind].
  destruct (context_get ctx x); try reflexivity; discriminate.
Qed.

Lemma scope_call_replaces_value_witness :
  resolve example_world 2 example_layers (VStr "ports: %{scope('ports')}")
    example_layer_paths {["ports" := VList [VInt 80; VInt 443]]} None
  = Ok (context_get {["ports" := VList [VInt 80; VInt 443]]} "ports").
Proof.
  apply (scope_call_replaces_value example_world 1 example_layers
           "ports: %{scope('ports')}" example_layer_paths
           {["ports" := VList [VInt 80; VInt 443]]} None "ports");
    vm_compute; reflexivity.
Defined.

Lemma re_findall_head {G} (mh : string -> option (G * string)) s g rest :
  re_findall mh s = g :: rest ->
  exists pre post, re_search mh s = Some (pre, g, post).
Proof.
  unfold re_findall. destruct (String.length s); cbn [re_findall_upto];
    [discriminate|].
  destruct (re_search mh s) as [[[pre g'] post]|]; [|discriminate].
  intros [= -> _]. eauto.
Qed.

(** X12. When the only function call of a string is [literal] of a
    text without backslash, the call is replaced by the text, and the
    result then goes through the interpolation of bare variables. *)
Theorem literal_call_inserts_text (W : World) (fuel : nat)
    (c : gmap string pyval) (s : string) (paths : list string)
    (ctx : context_map) (merge : option Merge) (t : string) :
  function_findall s = [(Literal, t)] ->
  t <> EmptyString ->
  has_backslash t = false ->
  exists pre post,
    re_search match_function s = Some (pre, (Literal, t), post)
    /\ resolve W (S fuel) c (VStr s) paths ctx merge
       = do b <- resolve_interpolates W (pre +:+ t +:+ post) ctx; Ok (VStr b).
Proof.
  intros Hcalls Ht Hb.
  destruct (re_findall_head match_function s _ _ Hcalls) as [pre [post Hs]].
  exists pre, post. split; [exact Hs|].
  rewrite (resolve_calls W fuel c s paths ctx merge Literal t [] Hcalls)
    by discriminate.
  cbn [for_each]. unfold resolve_call. cbn [bind truthy is_str].
  assert (String.eqb t EmptyString = false) as ->
    by (apply String.eqb_neq; exact Ht).
  cbn [negb]. unfold function_sub1, re_sub1. rewrite Hs, Hb. reflexivity.
Qed.

Lemma literal_call_inserts_text_witness :
  exists pre post,
    re_search match_function "%{literal('%')}{env}"
    = Some (pre, (Literal, "%"), post)
    /\ resolve example_world 2 example_layers (VStr "%{literal('%')}{env}")
         example_layer_paths {["env" := VStr "prod"]} None
       = do b <- resolve_interpolates example_world (pre +:+ "%" +:+ post)
                   {["env" := VStr "prod"]};
         Ok (VStr b).
Proof.
  apply (literal_call_inserts_text example_world 1 example_layers
           "%{literal('%')}{env}" example_layer_paths
           {["env" := VStr "prod"]} None "%").
  - vm_compute. reflexivity.
  - discriminate.
  - vm_compute. reflexivity.
Defined.

(** X13. When the lookup of the first [hiera] or [lookup] call of a
    string raises, [resolve] raises the same exception: a missing key
    surfaces as [KeyError]. *)
Theorem hiera_call_propagates (W : World) (fuel : nat)
    (c : gmap string pyval) (s : string) (paths : list string)
    (ctx : context_map) (merge : option Merge) (f : fname) (k : string)
    (rest : list (fname * string)) (e : exn) :
  function_findall s = (f, k) :: rest ->
  f = HieraF \/ f = LookupF ->
  get_key W fuel c (Some k) paths ctx merge = Raise e ->
  resolve W (S fuel) c (VStr s) paths ctx merge = Raise e.
Proof.
  intros Hcalls Hf He.
  rewrite (resolve_calls W fuel c s paths ctx merge f k rest Hcalls)
    by (intros ->; destruct Hf; discriminate).
  cbn [for_each]. unfold resolve_call at 1.
  destruct Hf as [-> | ->]; rewrite He; reflexivity.
Qed.

Lemma hiera_call_propagates_witness :
  resolve example_world 3 example_layers (VStr "%{hiera('nope')}")
    example_layer_paths ∅ None
  = Raise (KeyError (Some "nope")).
Proof.
  apply (hiera_call_propagates example_world 2 example_layers
           "%{hiera('nope')}" example_layer_paths ∅ None HieraF "nope" []).
  - vm_compute. reflexivity.
  - left. reflexivity.
  - vm_compute. reflexivity.
Defined.

(** ** The context of a lookup *)

Lemma drop_falsy_lookup (d : context_map) k :
  drop_falsy d !! k
  = match d !! k with
    | Some v => if truthy v then Some v else None
    | None => None
    end.
Proof.
  unfold drop_falsy. destruct (d !! k) as [v|] eqn:E.
  - destruct (truthy v) eqn:Ht.
    + apply map_lookup_filter_Some. split; [exact E|exact Ht].
    + apply map_lookup_filter_None. right. intros v' Hv'. cbn.
      rewrite E in Hv'. injection Hv' as <-. rewrite Ht. discriminate.
  - apply map_lookup_filter_None. now left.
Qed.

(** X14. The context of a call of [get], variable by variable: the
    keyword arguments win over the argument [context], which wins over
    the defaults of the engine; the variable is then dropped when the
    value that won is falsy. *)
Theorem context_precedence (hp : heap) (self : Hiera) (ctx kwargs : context_map)
    (k : string) :
  assemble_context hp self ctx kwargs !! k
  = match
      match kwargs !! k with
      | Some v => Some v
      | None =>
          match ctx !! k with
          | Some v => Some v
          | None => heap_get hp (context self) !! k
          end
      end
    with
    | Some v => if truthy v then Some v else None
    | None => None
    end.
Proof.
  unfold assemble_context. rewrite drop_falsy_lookup, !update_lookup, lookup_empty.
  destruct (kwargs !! k), (ctx !! k), (heap_get hp (context self) !! k); reflexivity.
Qed.

(** X15. The context of a call of [get] on a scoped view: keyword
    arguments, then the argument [context], then the context bound to
    the view, then the defaults of the parent engine; a falsy winner is
    dropped. *)
Theorem scoped_context_precedence (hp : heap) (view : ScopedHiera)
    (parent : Hiera) (ctx kwargs : context_map) (k : string) :
  assemble_context hp parent (ScopedHiera_get_context hp view ctx kwargs) ∅ !! k
  = match
      match kwargs !! k with
      | Some v => Some v
      | None =>
          match ctx !! k with
          | Some v => Some v
          | None =>
              match heap_get hp (scoped_context view) !! k with
              | Some v => Some v
              | None => heap_get hp (context parent) !! k
              end
          end
      end
    with
    | Some v => if truthy v then Some v else None
    | None => None
    end.
Proof.
  unfold assemble_context. 
  rewrite drop_falsy_lookup, !update_lookup, lookup_empty,
    ScopedHiera_get_context_lookup.
  destruct (kwargs !! k), (ctx !! k), (heap_get hp (scoped_context view) !! k),
    (heap_get hp (context parent) !! k); reflexivity.
Qed.

(** ** What loading keeps *)

Lemma load_keeps_trans s0 s1 s2 ps qs :
  load_keeps s0 s1 (Some ps) -> load_keeps s1 s2 (Some qs) ->
  load_keeps s0 s2 (Some (ps ++ qs)).
Proof.
  intros (C1 & M1 & P1) (C2 & M2 & P2). split; [congruence|].
  split; [etrans; eassumption|].
  apply Forall_app. split; [|exact P2].
  eapply Forall_impl; [exact P1|]. intros p [d Hd]. exists d.
  eapply lookup_weaken; eassumption.
Qed.

Lemma load_keeps_weaken s0 s1 s2 o :
  load_keeps s0 s1 o -> load_keeps s1 s2 None -> load_keeps s0 s2 None.
Proof.
  intros (C1 & M1 & _) (C2 & M2 & _). split; [congruence|].
  split; [etrans; eassumption|exact I].
Qed.

Lemma load_file_keeps W self path b :
  load_keeps self (snd (load_file W self path b false))
    (paths_of (fst (load_file W self path b false)) (fun p => [p])).
Proof.
  unfold load_file.
  destruct (cache self !! path) as [doc|] eqn:Hc.
  - rewrite bool_decide_eq_true_2 by eauto. cbn.
    split; [reflexivity|]. split; [reflexivity|].
    constructor; [rewrite Hc; eauto|constructor].
  - rewrite bool_decide_eq_false_2 by (intros [? ?]; congruence). cbn [negb orb].
    destruct (bind _ _) as [doc| |]; cbn.
    + split; [reflexivity|]. split; [now apply insert_subseteq|].
      constructor; [cbn [cache set_cache]; rewrite lookup_insert_eq; eauto|constructor].
    + split; [reflexivity|]. split; [reflexivity|exact I].
    + split; [reflexivity|]. split; [reflexivity|exact I].
Qed.

Lemma load_files_keeps W files : forall self root b,
  load_keeps self (snd (load_files W self root files b))
    (paths_of (fst (load_files W self root files b)) fst).
Proof.
  induction files as [|f files IH]; intros self root b; cbn [load_files].
  - cbn. split; [reflexivity|]. split; [reflexivity|constructor].
  - destruct (match b with Some b0 => Some b0 | None => _ end) as [b'|]; [|apply IH].
    pose proof (load_file_keeps W self (path_join root f) b') as H1.
    destruct (load_file W self (path_join root f) b' false) as [[p| |] s1];
      cbn [fst snd paths_of] in *; try exact H1.
    pose proof (IH s1 root (Some b')) as H2.
    destruct (load_files W s1 root files (Some b')) as [[[ps b2]| |] s2];
      cbn [fst snd paths_of] in *.
    + exact (load_keeps_trans _ _ _ [p] ps H1 H2).
    + exact (load_keeps_weaken _ _ _ _ H1 H2).
    + exact (load_keeps_weaken _ _ _ _ H1 H2).
Qed.

Lemma load_dirs_keeps W dirs : forall self b,
  load_keeps self (snd (load_dirs W self dirs b))
    (paths_of (fst (load_dirs W self dirs b)) id).
Proof.
  induction dirs as [|[root files] dirs IH]; intros self b; cbn [load_dirs].
  - cbn. split; [reflexivity|]. split; [reflexivity|constructor].
  - pose proof (load_files_keeps W files self root b) as H1.
    destruct (load_files W self root files b) as [[[ps b']| |] s1];
      cbn [fst snd paths_of] in *; try exact H1.
    pose proof (IH s1 b') as H2.
    destruct (load_dirs W s1 dirs b') as [[qs| |] s2]; cbn [fst snd paths_of id] in *.
    + exact (load_keeps_trans _ _ _ ps qs H1 H2).
    + exact (load_keeps_weaken _ _ _ _ H1 H2).
    + exact (load_keeps_weaken _ _ _ _ H1 H2).
Qed.

Lemma load_keeps_refl self : load_keeps self self (Some []).
Proof. split; [reflexivity|]. split; [reflexivity|constructor]. Qed.

Lemma load_keeps_refl_none self : load_keeps self self None.
Proof. split; [reflexivity|]. split; [reflexivity|exact I]. Qed.

Lemma candidate_keeps W self ctx b level :
  load_keeps self (snd (candidate W self ctx b level))
    (paths_of (fst (candidate W self ctx b level)) id).
Proof.
  unfold candidate.
  destruct (match datadir b with VStr d => _ | _ => _ end) as [path|e|].
  - destruct (os_path_isdir W path); [apply load_dirs_keeps|].
    destruct (os_path_exists W _); [|apply load_keeps_refl].
    pose proof (load_file_keeps W self (path +:+ "." +:+ NAME (cls b)) b) as H.
    destruct (load_file W self _ b false) as [[p| |] s1]; exact H.
  - destruct e; first [apply load_keeps_refl | apply load_keeps_refl_none].
  - apply load_keeps_refl_none.
Qed.

Lemma collect_keeps W ctx pairs : forall self,
  load_keeps self (snd (collect W self ctx pairs))
    (paths_of (fst (collect W self ctx pairs)) id).
Proof.
  induction pairs as [|[b level] pairs IH]; intros self; cbn [collect].
  - apply load_keeps_refl.
  - pose proof (candidate_keeps W self ctx b level) as H1.
    destruct (candidate W self ctx b level) as [[ps| |] s1];
      cbn [fst snd paths_of id] in *; try exact H1.
    pose proof (IH s1) as H2.
    destruct (collect W s1 ctx pairs) as [[qs| |] s2]; cbn [fst snd paths_of id] in *.
    + exact (load_keeps_trans _ _ _ ps qs H1 H2).
    + exact (load_keeps_weaken _ _ _ _ H1 H2).
    + exact (load_keeps_weaken _ _ _ _ H1 H2).
Qed.

Lemma config_fields s1 s :
  config s1 = config s ->
  base s1 = base s /\ base_path s1 = base_path s /\ backends s1 = backends s
  /\ hierarchy s1 = hierarchy s /\ context s1 = context s.
Proof. unfold config. intros [= -> -> -> -> ->]. repeat split. Qed.











Lemma get_key_loop_none c R merge ps :
  Forall (fun p => is_Some (c !! p)) ps ->
  get_key_loop c R None merge ps None = Raise (KeyError None).
Proof.
  induction 1 as [|p ps [doc Hd] _ IH]; cbn [get_key_loop].
  - destruct merge; reflexivity.
  - rewrite Hd. exact IH.
Qed.

(** X18. [get(None)], as [load] calls it, only loads the candidate
    files: when they load, the outcome is the default, or [KeyError]
    with [throw]. *)
Theorem get_none_only_loads (W : World) (fuel : nat) (hp : heap) (self self1 : Hiera)
    (default : pyval) (merge : option merge_typ) (merge_deep throw : bool)
    (ctx kwargs : context_map) (ps : list string) :
  collect W self (assemble_context hp self ctx kwargs) (candidate_pairs self)
    = (Ok ps, self1) ->
  Hiera_get W (S fuel) hp self None default merge merge_deep throw ctx kwargs
  = (if throw then Raise (KeyError None) else Ok default, self1).
Proof.
  intros Hc. unfold Hiera_get. rewrite Hc.
  pose proof (collect_keeps W (assemble_context hp self ctx kwargs)
                (candidate_pairs self) self) as (_ & _ & HP).
  rewrite Hc in HP. cbn [fst snd paths_of id] in HP.
  rewrite get_key_eq. unfold get_key_body.
  rewrite (get_key_loop_none _ _ _ _ HP).
  reflexivity.
Qed.

Lemma get_none_only_loads_witness :
  Hiera_get example_world 1 ∅ example_engine None (VInt 7) None false false ∅ ∅
  = (Ok (VInt 7),
     snd (collect example_world example_engine
            (assemble_context ∅ example_engine ∅ ∅)
            (candidate_pairs example_engine))).
Proof.
  apply (get_none_only_loads example_world 0 ∅ example_engine _ (VInt 7) None
           false false ∅ ∅ ["/data/common.yaml"]).
  vm_compute. reflexivity.
Defined.

Lemma load_file_ok W self path b doc :
  (do raw <- read_file W (cls b) path; Backend_load W (cls b) raw) = Ok doc ->
  fst (load_file W self path b false) = Ok path.
Proof.
  intros H. unfold load_file. rewrite H.
  destruct (negb _ || false); reflexivity.
Qed.

Lemma load_files_all W b files : forall self root,
  Forall (fun p => exists doc,
            (do raw <- read_file W (cls b) p; Backend_load W (cls b) raw)
            = Ok doc) (map (path_join root) files) ->
  fst (load_files W self root files (Some b))
  = Ok (map (path_join root) files, Some b).
Proof.
  induction files as [|f files IH]; intros self root HF; cbn [load_files map].
  - reflexivity.
  - inversion HF as [|? ? [doc Hd] HF']; subst.
    pose proof (load_file_ok W self _ _ _ Hd) as H1.
    destruct (load_file W self (path_join root f) b false) as [r s1].
    cbn [fst] in H1. subst r.
    specialize (IH s1 root HF').
    destruct (load_files W s1 root files (Some b)) as [r s2].
    cbn [fst] in IH. subst r. reflexivity.
Qed.

(** X19. [load_directory] with a backend loads every file that
    [os.walk] lists, whatever its extension, in the order of the walk,
    when each of them can be read and parsed by that backend: it hands
    back their paths, and afterwards each of them is cached, with the
    document it had in the cache before or with what the backend makes
    of the file. *)
Theorem load_directory_all_files (W : World) (self : Hiera) (path : string)
    (b : Backend) :
  Forall (fun p => exists doc, parse_file W b p = Ok doc) (walk_paths W path) ->
  let r := load_directory W self path (Some b) in
  fst r = Ok (walk_paths W path)
  /\ Forall (fun p => exists doc,
               cache (snd r) !! p = Some doc
               /\ (cache self !! p = Some doc \/ parse_file W b p = Ok doc))
       (walk_paths W path).
Proof.
  intros HF r. subst r.
  pose proof (load_dirs_keeps W (os_walk W path) self (Some b)) as (_ & _ & HK).
  fold (load_directory W self path (Some b)) in HK.
  assert (H1 : fst (load_directory W self path (Some b)) = Ok (walk_paths W path)).
  { rewrite load_directory_each. clear HK.
    generalize (walk_paths W path) HF self. clear. intros l HF.
    induction HF as [|p l [doc Hp] _ IH]; intros self; cbn [load_each];
      [reflexivity|].
    assert (exists s1, load_file W self p b false = (Ok p, s1)) as [s1 ->].
    { destruct (cache self !! p) as [doc'|] eqn:Hc.
      - eexists. apply (load_file_cached W self p b doc' Hc).
      - eexists. apply (load_file_stores W self p b doc Hc Hp). }
    specialize (IH s1). destruct (load_each W s1 l b) as [r s2].
    cbn [fst] in IH. subst r. reflexivity. }
  split; [exact H1|].
  rewrite H1 in HK. cbn [paths_of id] in HK.
  eapply Forall_impl; [exact HK|]. intros p [doc Hdoc].
  exists doc. split; [exact Hdoc|].
  rewrite load_directory_each in Hdoc.
  destruct (load_each_sound W b _ _ _ _ Hdoc) as [H|[_ H]]; auto.
Qed.

Lemma load_directory_all_files_witness :
  fst (load_directory example_tree_world example_engine "/data/nodes"
         (Some (mkBackend YAMLBackend (VDict []) (VStr "/data"))))
  = Ok (walk_paths example_tree_world "/data/nodes")
  /\ Forall (fun p => exists doc,
               cache (snd (load_directory example_tree_world example_engine
                             "/data/nodes"
                             (Some (mkBackend YAMLBackend (VDict [])
                                      (VStr "/data")))))
                 !! p = Some doc
               /\ (cache example_engine !! p = Some doc
                   \/ parse_file example_tree_world
                        (mkBackend YAMLBackend (VDict []) (VStr "/data")) p
                      = Ok doc))
       (walk_paths example_tree_world "/data/nodes").
Proof.
  apply (load_directory_all_files example_tree_world example_engine "/data/nodes"
           (mkBackend YAMLBackend (VDict []) (VStr "/data"))).
  repeat constructor; eexists; vm_compute; reflexivity.
Defined.

Lemma load_files_no_backend W files : forall self root,
  (forall ext, odict_get (backends self) (String ":" ext) = None) ->
  load_files W self root files None = (Ok ([], None), self).
Proof.
  induction files as [|f files IH]; intros self root H; cbn [load_files].
  - reflexivity.
  - rewrite H. now apply IH.
Qed.

(** X20. [load_directory] without a backend looks the backend up
    under a colon followed by the extension of the file: when no name of
    a backend starts with a colon, no file is loaded. *)
Theorem load_directory_needs_backend (W : World) (self : Hiera) (path : string) :
  Forall (fun kv => forall ext, fst kv <> String ":" ext) (backends self) ->
  load_directory W self path None = (Ok [], self).
Proof.
  intros H.
  assert (Hg : forall ext, odict_get (backends self) (String ":" ext) = None).
  { intros ext. induction H as [|[k b] l Hk _ IH]; [reflexivity|].
    cbn [odict_get]. cbn [fst] in Hk.
    destruct (String.eqb_spec k (String ":" ext)) as [E|_]; [now apply Hk in E|].
    exact IH. }
  unfold load_directory. generalize (os_walk W path) as dirs.
  induction dirs as [|[root files] dirs IH]; cbn [load_dirs]; [reflexivity|].
  rewrite (load_files_no_backend _ _ _ _ Hg), IH. reflexivity.
Qed.

Lemma load_directory_needs_backend_witness :
  load_directory example_tree_world example_engine "/data/nodes" None
  = (Ok [], example_engine).
Proof.
  apply (load_directory_needs_backend example_tree_world example_engine
           "/data/nodes").
  repeat constructor. intros ext. discriminate.
Defined.

(** ** [has] and [get] *)

Lemma load_file_not_key_error W self path b ic :
  not_key_error (fst (load_file W self path b ic)).
Proof.
  unfold load_file. destruct (negb _ || ic); [|exact I].
  destruct (bind _ _); exact I.
Qed.

Lemma load_files_not_key_error W files : forall self root b,
  not_key_error (fst (load_files W self root files b)).
Proof.
  induction files as [|f files IH]; intros self root b; cbn [load_files].
  - exact I.
  - destruct (match b with Some b0 => Some b0 | None => _ end) as [b'|]; [|apply IH].
    pose proof (load_file_not_key_error W self (path_join root f) b' false) as H1.
    destruct (load_file W self (path_join root f) b' false) as [[p| |] s1];
      cbn [fst] in *; try exact H1.
    pose proof (IH s1 root (Some b')) as H2.
    destruct (load_files W s1 root files (Some b')) as [[[ps b2]| |] s2];
      cbn [fst] in *; exact H2.
Qed.

Lemma load_dirs_not_key_error W dirs : forall self b,
  not_key_error (fst (load_dirs W self dirs b)).
Proof.
  induction dirs as [|[root files] dirs IH]; intros self b; cbn [load_dirs].
  - exact I.
  - pose proof (load_files_not_key_error W files self root b) as H1.
    destruct (load_files W self root files b) as [[[ps b']| |] s1];
      cbn [fst] in *; try exact H1.
    pose proof (IH s1 b') as H2.
    destruct (load_dirs W s1 dirs b') as [[qs| |] s2]; cbn [fst] in *;
      exact H2.
Qed.

Lemma candidate_not_key_error W self ctx b level :
  not_key_error (fst (candidate W self ctx b level)).
Proof.
  unfold candidate.
  destruct (match datadir b with VStr d => _ | _ => _ end) as [path|e|].
  - destruct (os_path_isdir W path); [apply load_dirs_not_key_error|].
    destruct (os_path_exists W _); [|exact I].
    pose proof (load_file_not_key_error W self
                  (path +:+ "." +:+ NAME (cls b)) b false) as H.
    destruct (load_file W self _ b false) as [[p| |] s1]; exact H.
  - destruct e; exact I.
  - exact I.
Qed.

Lemma collect_not_key_error W ctx pairs : forall self,
  not_key_error (fst (collect W self ctx pairs)).
Proof.
  induction pairs as [|[b level] pairs IH]; intros self; cbn [collect].
  - exact I.
  - pose proof (candidate_not_key_error W self ctx b level) as H1.
    destruct (candidate W self ctx b level) as [[ps| |] s1];
      cbn [fst] in *; try exact H1.
    pose proof (IH s1) as H2.
    destruct (collect W s1 ctx pairs) as [[qs| |] s2]; cbn [fst] in *;
      exact H2.
Qed.

(** When no keyword has the name of a parameter, [has] hands them all
    to [get] as context variables. *)
Lemma Hiera_has_plain W fuel hp self key kwargs :
  plain_keywords kwargs = true ->
  Hiera_has W fuel hp self key kwargs
  = match Hiera_get W fuel hp self key VNone None false true ∅ kwargs with
    | (Ok _, self1) => (Ok true, self1)
    | (Raise (KeyError _), self1) => (Ok false, self1)
    | (Raise e, self1) => (Raise e, self1)
    | (OutOfFuel, self1) => (OutOfFuel, self1)
    end.
Proof.
  unfold plain_keywords. cbn [forallb]. intros H.
  repeat match type of H with
         | (_ && _ = true) => apply andb_true_iff in H as [? H]
         end.
  repeat match goal with
         | E : negb (bool_decide (is_Some (kwargs !! ?n))) = true |- _ =>
             apply negb_true_iff, bool_decide_eq_false in E;
             apply eq_None_not_Some in E
         end.
  unfold Hiera_has, has_refuses, context_get.
  rewrite (delete_id kwargs "context"), (delete_id kwargs "merge_deep"),
    (delete_id kwargs "merge"), (delete_id kwargs "default") by assumption.
  repeat match goal with
         | E : kwargs !! _ = None |- _ => rewrite !E; clear E
         end.
  rewrite !bool_decide_eq_false_2 by (intros [? ?]; discriminate).
  cbn [orb truthy]. reflexivity.
Qed.

(** X21. [has] and [get] agree, for keyword arguments of which none has
    the name of a parameter of [has] or [get]: when [has] answers true,
    [get] with the same keyword arguments returns a value, the same for
    every default and with or without [throw]; when it answers false,
    [get] returns the default.  The engine afterwards is the same. *)
Theorem has_agrees_with_get (W : World) (fuel : nat) (hp : heap) (self : Hiera)
    (key : option string) (kwargs : context_map) (b : bool) :
  plain_keywords kwargs = true ->
  fst (Hiera_has W fuel hp self key kwargs) = Ok b ->
  if b then
    exists v, forall default throw,
      Hiera_get W fuel hp self key default None false throw ∅ kwargs
      = (Ok v, snd (Hiera_has W fuel hp self key kwargs))
  else
    forall default,
      Hiera_get W fuel hp self key default None false false ∅ kwargs
      = (Ok default, snd (Hiera_has W fuel hp self key kwargs)).
Proof.
  intros Hk. rewrite (Hiera_has_plain W fuel hp self key kwargs Hk).
  unfold Hiera_get.
  pose proof (collect_not_key_error W (assemble_context hp self ∅ kwargs)
                (candidate_pairs self) self) as HC.
  destruct (collect W self _ _) as [[ps|e|] s1]; cbn [fst snd] in *;
    [|destruct e; cbn [fst]; try discriminate; contradiction|discriminate].
  destruct (get_key W fuel (cache s1) key ps _ None) as [v|e|];
    [|destruct e|]; cbn [or_default fst snd]; try discriminate.
  - intros [= <-]. exists v. reflexivity.
  - intros [= <-]. reflexivity.
Qed.

Lemma has_agrees_with_get_witness :
  exists v, forall default throw,
    Hiera_get example_world 3 ∅ example_engine (Some "c") default None false
      throw ∅ {["env" := VStr "prod"]}
    = (Ok v,
       snd (Hiera_has example_world 3 ∅ example_engine (Some "c")
              {["env" := VStr "prod"]})).
Proof.
  apply (has_agrees_with_get example_world 3 ∅ example_engine (Some "c")
           {["env" := VStr "prod"]} true); vm_compute; reflexivity.
Defined.

Lemma collect_nothing W self ctx pairs :
  Forall (fun bl => candidate W self ctx (fst bl) (snd bl) = (Ok [], self)) pairs ->
  collect W self ctx pairs = (Ok [], self).
Proof.
  induction 1 as [|[b level] pairs Hc _ IH]; cbn [collect]; [reflexivity|].
  cbn [fst snd] in Hc. rewrite Hc, IH. reflexivity.
Qed.

Lemma candidate_unrendered W self ctx b level d y :
  datadir b = VStr d ->
  py_format W ctx d = Raise (KeyError y) ->
  candidate W self ctx b level = (Ok [], self).
Proof.
  intros Hd Hf. unfold candidate. rewrite Hd, Hf. reflexivity.
Qed.

Lemma default_datadir_unrendered W ctx :
  ctx !! "environment" = None ->
  py_format W ctx (rformat_sub default_datadir)
  = Raise (KeyError (Some "environment")).
Proof.
  intros H.
  assert (Ht : template_fields (rformat_sub default_datadir) = Some ["environment"])
    by (vm_compute; reflexivity).
  destruct (py_format_plain W ctx _ _ _ Ht) as [H1 _].
  apply H1. cbn [List.find]. unfold missing.
  rewrite H, bool_decide_eq_false_2 by (intros [? ?]; discriminate).
  reflexivity.
Qed.

(** X22. When the backends have the default data directory, whose
    path names the variable [environment], a lookup whose context has
    no truthy [environment] touches no file: it returns the default, or
    raises [KeyError] with [throw]. *)
Theorem default_datadir_needs_environment (W : World) (fuel : nat) (hp : heap)
    (self : Hiera) (key : string) (default : pyval) (merge : option merge_typ)
    (merge_deep throw : bool) (ctx kwargs : context_map) :
  Forall (fun kb => datadir (snd kb) = VStr (rformat_sub default_datadir))
    (backends self) ->
  assemble_context hp self ctx kwargs !! "environment" = None ->
  Hiera_get W (S fuel) hp self (Some key) default merge merge_deep throw ctx kwargs
  = (if throw then Raise (KeyError (Some key)) else Ok default, self).
Proof.
  intros HB He. unfold Hiera_get.
  rewrite collect_nothing.
  - rewrite get_key_eq. unfold get_key_body. cbn [get_key_loop].
    destruct merge; reflexivity.
  - unfold candidate_pairs. apply List.Forall_forall. intros [b level] Hin.
    apply in_flat_map in Hin as [[k b'] [Hin1 Hin2]].
    apply in_map_iff in Hin2 as [lv [[= <- <-] _]].
    rewrite List.Forall_forall in HB. specialize (HB _ Hin1). cbn [fst snd] in *.
    eapply candidate_unrendered; [exact HB|].
    apply default_datadir_unrendered, He.
Qed.

Lemma default_datadir_needs_environment_witness :
  Hiera_get example_world 1 ∅
    (mkHiera (VDict [("backends", VList [VStr "yaml"])]) "/"
       [("yaml", mkBackend YAMLBackend (VDict [])
                   (VStr (rformat_sub default_datadir)))]
       ["common"] Hiera_init_default_context ∅ [])
    (Some "k") (VInt 0) None false false ∅ {["env" := VStr "prod"]}
  = (Ok (VInt 0),
     mkHiera (VDict [("backends", VList [VStr "yaml"])]) "/"
       [("yaml", mkBackend YAMLBackend (VDict [])
                   (VStr (rformat_sub default_datadir)))]
       ["common"] Hiera_init_default_context ∅ []).
Proof.
  apply (default_datadir_needs_environment example_world 0 ∅
           (mkHiera (VDict [("backends", VList [VStr "yaml"])]) "/"
              [("yaml", mkBackend YAMLBackend (VDict [])
                          (VStr (rformat_sub default_datadir)))]
              ["common"] Hiera_init_default_context ∅ [])
           "k" (VInt 0) None false false ∅ {["env" := VStr "prod"]}).
  - repeat constructor.
  - vm_compute. reflexivity.
Defined.

(** ** The placeholders of the configuration *)

Section Shorter.
Context {G : Type}.
Variable match_here : string -> option (G * string).
Hypothesis match_shorter : forall s g rest,
  match_here s = Some (g, rest) -> (String.length rest < String.length s)%nat.

Lemma re_search_shorter s : forall pre g rest,
  re_search match_here s = Some (pre, g, rest) ->
  (String.length rest < String.length s)%nat.
Proof.
  induction s as [|c s IH]; intros pre g rest; cbn [re_search].
  - destruct (match_here EmptyString) as [[g' r']|] eqn:E; [|discriminate].
    intros [= _ <- <-]. eauto.
  - destruct (match_here (String c s)) as [[g' r']|] eqn:E.
    + intros [= _ <- <-]. eauto.
    + destruct (re_search match_here s) as [[[pre' g'] r']|]; [|discriminate].
      intros [= _ <- <-]. specialize (IH _ _ _ eq_refl). cbn. lia.
Qed.

Lemma re_sub_all_upto_enough repl n : forall m s,
  (String.length s <= n)%nat -> (String.length s <= m)%nat ->
  re_sub_all_upto match_here n repl s = re_sub_all_upto match_here m repl s.
Proof.
  induction n as [|n IH]; intros m s Hn Hm.
  - destruct s; [|cbn in Hn; lia].
    destruct m; cbn [re_sub_all_upto]; [reflexivity|].
    destruct (re_search match_here EmptyString) as [[[pre g] rest]|] eqn:E;
      [|reflexivity].
    apply re_search_shorter in E. cbn in E. lia.
  - destruct m as [|m].
    + destruct s; [|cbn in Hm; lia]. cbn [re_sub_all_upto].
      destruct (re_search match_here EmptyString) as [[[pre g] rest]|] eqn:E;
        [|reflexivity].
      apply re_search_shorter in E. cbn in E. lia.
    + cbn [re_sub_all_upto].
      destruct (re_search match_here s) as [[[pre g] rest]|] eqn:E; [|reflexivity].
      apply re_search_shorter in E. rewrite (IH m rest) by lia. reflexivity.
Qed.
End Shorter.

Lemma match_rformat_shorter s g rest :
  match_rformat s = Some (g, rest) -> (String.length rest < String.length s)%nat.
Proof.
  unfold match_rformat.
  destruct (strip_prefix "%{" s) as [s1|] eqn:E; [|discriminate].
  apply strip_prefix_app in E. subst s.
  pose proof (strip_colons_length s1) as Hc.
  pose proof (span_app rformat_class (strip_colons s1)) as Hs.
  destruct (span rformat_class (strip_colons s1)) as [body s2].
  cbn [fst snd] in Hs.
  destruct body as [|b body]; [discriminate|].
  destruct s2 as [|c r]; [discriminate|].
  destruct c as [[] [] [] [] [] [] [] []]; try discriminate.
  intros [= _ <-].
  rewrite Hs in Hc. rewrite strlen_app in *. cbn in *. lia.
Qed.

Lemma match_rformat_placeholder name rest :
  string_forallb rformat_class name = true -> name <> EmptyString ->
  match_rformat ("%{" +:+ name +:+ String "}" rest) = Some (name, rest).
Proof.
  intros Hc Hn. destruct name as [|c name]; [congruence|].
  unfold match_rformat.
  change (strip_prefix "%{" ("%{" +:+ String c name +:+ String "}" rest))
    with (Some (String c name +:+ String "}" rest)).
  assert (Hcolon : strip_colons (String c name +:+ String "}" rest)
                   = String c name +:+ String "}" rest).
  { unfold strip_colons.
    change (String c name +:+ String "}" rest)
      with (String c (name +:+ String "}" rest)).
    cbn [strip_prefix].
    destruct (Ascii.eqb_spec ":" c) as [<-|_]; [|reflexivity].
    cbn [string_forallb] in Hc. apply andb_true_iff in Hc as [Hc _].
    vm_compute in Hc. discriminate. }
  cbv beta iota.
  rewrite Hcolon, (span_all _ _ _ _ Hc) by reflexivity.
  reflexivity.
Qed.

Lemma match_rformat_text c t :
  Ascii.eqb c "%" = false -> match_rformat (String c t) = None.
Proof.
  intros H. unfold match_rformat. cbn [strip_prefix].
  rewrite Ascii.eqb_sym, H. reflexivity.
Qed.

Lemma text_only_head c t :
  text_only (String c t) = true ->
  Ascii.eqb c "%" = false /\ Ascii.eqb c "{" = false /\ Ascii.eqb c "}" = false
  /\ text_only t = true.
Proof.
  unfold text_only. cbn [string_forallb]. intros H.
  apply andb_true_iff in H as [Hc Ht]. apply negb_true_iff in Hc.
  apply orb_false_iff in Hc as [Hc H3]. apply orb_false_iff in Hc as [H1 H2].
  auto.
Qed.

Lemma re_search_rformat_text t :
  text_only t = true -> re_search match_rformat t = None.
Proof.
  induction t as [|c t IH]; intros H; cbn [re_search].
  - reflexivity.
  - apply text_only_head in H as (H1 & _ & _ & Ht).
    rewrite (match_rformat_text _ _ H1), (IH Ht). reflexivity.
Qed.

Lemma re_search_rformat_placeholder pre name rest :
  text_only pre = true ->
  string_forallb rformat_class name = true -> name <> EmptyString ->
  re_search match_rformat (pre +:+ "%{" +:+ name +:+ String "}" rest)
  = Some (pre, name, rest).
Proof.
  intros Hp Hc Hn. induction pre as [|c pre IH].
  - change (EmptyString +:+ "%{" +:+ name +:+ String "}" rest)
      with (String "%" (String "{" (name +:+ String "}" rest))).
    cbn [re_search].
    change (String "%" (String "{" (name +:+ String "}" rest)))
      with ("%{" +:+ name +:+ String "}" rest).
    rewrite (match_rformat_placeholder _ _ Hc Hn). reflexivity.
  - apply text_only_head in Hp as (H1 & _ & _ & Ht).
    change (String c pre +:+ "%{" +:+ name +:+ String "}" rest)
      with (String c (pre +:+ "%{" +:+ name +:+ String "}" rest)).
    cbn [re_search]. rewrite (match_rformat_text _ _ H1), (IH Ht). reflexivity.
Qed.

Lemma rformat_sub_text t : text_only t = true -> rformat_sub t = t.
Proof.
  intros H. unfold rformat_sub, re_sub_all.
  destruct (String.length t); cbn [re_sub_all_upto]; [reflexivity|].
  now rewrite (re_search_rformat_text _ H).
Qed.

Lemma rformat_sub_placeholder pre name rest :
  text_only pre = true ->
  string_forallb rformat_class name = true -> name <> EmptyString ->
  rformat_sub (pre +:+ "%{" +:+ name +:+ String "}" rest)
  = pre +:+ "{" +:+ name +:+ String "}" (rformat_sub rest).
Proof.
  intros Hp Hc Hn. unfold rformat_sub, re_sub_all.
  pose proof (re_search_rformat_placeholder pre name rest Hp Hc Hn) as Hs.
  pose proof (re_search_shorter _ match_rformat_shorter _ _ _ _ Hs) as Hl.
  destruct (String.length (pre +:+ "%{" +:+ name +:+ String "}" rest)) as [|n];
    [lia|].
  cbn [re_sub_all_upto]. rewrite Hs.
  rewrite (re_sub_all_upto_enough _ match_rformat_shorter _ n
             (String.length rest) rest) by lia.
  rewrite !strapp_assoc. reflexivity.
Qed.

Lemma parse_field_shorter s : forall st f rest,
  parse_field st s = Ok (f, rest) -> (String.length rest < String.length s)%nat.
Proof.
  induction s as [|c s IH]; intros st f rest; cbn [parse_field]; [discriminate|].
  cbn zeta.
  destruct st;
    repeat match goal with
           | |- context [if ?b then _ else _] => destruct b
           | |- context [match ?d with O => _ | S _ => _ end] => destruct d
           end;
    try discriminate;
    try (intros [= <- <-]; cbn; lia);
    match goal with
    | |- context [parse_field ?st' s] =>
        destruct (parse_field st' s) as [[f' r']| |] eqn:E; cbn [bind fst snd];
        try discriminate; intros [= <- <-]; apply IH in E; cbn; lia
    end.
Qed.

Section FormatFuel.
Variable W : World.
Variable kwargs : context_map.

Lemma py_format_upto_enough n : forall m s,
  (String.length s <= n)%nat -> (String.length s <= m)%nat ->
  py_format_upto W n kwargs s = py_format_upto W m kwargs s.
Proof.
  induction n as [|n IH]; intros m s Hn Hm.
  - destruct s; [|cbn in Hn; lia]. destruct m; reflexivity.
  - destruct m as [|m]; [destruct s; [reflexivity|cbn in Hm; lia]|].
    destruct s as [|c s]; [reflexivity|]. cbn in Hn, Hm.
    cbn [py_format_upto].
    destruct (Ascii.eqb c "{").
    + destruct s as [|c' s']; [reflexivity|]. cbn in Hn, Hm.
      destruct (Ascii.eqb c' "{").
      * rewrite (IH m s') by lia. reflexivity.
      * destruct (parse_field FName (String c' s')) as [[f rest]| |] eqn:E;
          cbn [bind fst snd]; try reflexivity.
        apply parse_field_shorter in E. cbn in E.
        rewrite (IH m rest) by lia. reflexivity.
    + destruct (Ascii.eqb c "}").
      * destruct s as [|c' s']; [reflexivity|]. cbn in Hn, Hm.
        destruct c' as [[] [] [] [] [] [] [] []]; try reflexivity.
        rewrite (IH m s') by lia. reflexivity.
      * rewrite (IH m s) by lia. reflexivity.
Qed.

Lemma py_format_text_app pre s :
  text_only pre = true ->
  py_format W kwargs (pre +:+ s)
  = do r <- py_format W kwargs s; Ok (pre +:+ r).
Proof.
  intros Hp. induction pre as [|c pre IH].
  - change (EmptyString +:+ s) with s.
    destruct (py_format W kwargs s); reflexivity.
  - apply text_only_head in Hp as (_ & H2 & H3 & Ht).
    change (String c pre +:+ s) with (String c (pre +:+ s)).
    unfold py_format at 1. cbn [String.length py_format_upto].
    rewrite H2, H3. fold (py_format W kwargs (pre +:+ s)). rewrite (IH Ht).
    destruct (py_format W kwargs s); reflexivity.
Qed.

Lemma py_format_text t : text_only t = true -> py_format W kwargs t = Ok t.
Proof.
  intros H. rewrite <- (strapp_nil_r t) at 1.
  rewrite (py_format_text_app _ _ H). cbn. now rewrite strapp_nil_r.
Qed.

Lemma py_format_upto_open n c s :
  Ascii.eqb c "{" = false ->
  py_format_upto W (S n) kwargs (String "{" (String c s))
  = do f <- parse_field FName (String c s);
    do out <- render_field W kwargs (fst f);
    do r <- py_format_upto W n kwargs (snd f);
    Ok (out +:+ r).
Proof.
  intros H. cbn [py_format_upto]. change (Ascii.eqb "{" "{") with true.
  rewrite H. reflexivity.
Qed.

Lemma py_format_field name rest :
  simple_name name = true ->
  py_format W kwargs ("{" +:+ name +:+ String "}" rest)
  = match kwargs !! name with
    | Some v => do r <- py_format W kwargs rest; Ok (py_str W v +:+ r)
    | None => Raise (KeyError (Some name))
    end.
Proof.
  intros Hn. pose proof Hn as Hn'. unfold simple_name in Hn'.
  apply andb_true_iff in Hn' as [Hd Hp].
  destruct name as [|c name]; [discriminate|].
  assert (Hc : Ascii.eqb c "{" = false).
  { cbn [string_forallb] in Hp. apply andb_true_iff in Hp as [Hp _].
    apply negb_true_iff in Hp.
    apply orb_false_iff in Hp as [Hp _]. apply orb_false_iff in Hp as [_ Hp].
    exact Hp. }
  change ("{" +:+ String c name +:+ String "}" rest)
    with (String "{" (String c (name +:+ String "}" rest))).
  unfold py_format at 1.
  change (String.length (String "{" (String c (name +:+ String "}" rest))))
    with (S (String.length (String c (name +:+ String "}" rest)))).
  rewrite (py_format_upto_open _ _ _ Hc).
  change (String c (name +:+ String "}" rest))
    with (String c name +:+ String "}" rest).
  rewrite (parse_field_plain _ _ Hp). cbn [bind fst snd].
  rewrite (render_field_plain W kwargs _ Hn).
  destruct (kwargs !! String c name); [|reflexivity]. cbn [bind].
  rewrite (py_format_upto_enough _ (String.length rest) rest);
    [reflexivity| |lia].
  rewrite strlen_app. cbn. lia.
Qed.
End FormatFuel.

(** X23. What [load] and [get] make of a level of the hierarchy: a
    text without percent sign and brace is kept as it is; a placeholder
    written percent, brace, name, brace is replaced by the value of the
    variable, and the rendering of the text after it follows; a variable
    the context lacks raises [KeyError]. *)
Theorem placeholder_round_trip (W : World) (ctx : context_map)
    (pre name rest : string) :
  text_only pre = true -> simple_name name = true ->
  string_forallb rformat_class name = true ->
  py_format W ctx (rformat_sub pre) = Ok pre
  /\ py_format W ctx (rformat_sub (pre +:+ "%{" +:+ name +:+ String "}" rest))
     = match ctx !! name with
       | Some v =>
           do r <- py_format W ctx (rformat_sub rest);
           Ok (pre +:+ py_str W v +:+ r)
       | None => Raise (KeyError (Some name))
       end.
Proof.
  intros Hp Hn Hc. split.
  - rewrite (rformat_sub_text _ Hp). apply py_format_text, Hp.
  - assert (Hne : name <> EmptyString) by (intros ->; discriminate).
    rewrite (rformat_sub_placeholder _ _ _ Hp Hc Hne).
    rewrite (py_format_text_app _ _ _ _ Hp), (py_format_field _ _ _ _ Hn).
    destruct (ctx !! name) as [v|]; [|reflexivity]. cbn [bind].
    destruct (py_format W ctx (rformat_sub rest)); reflexivity.
Qed.

Lemma placeholder_round_trip_witness :
  py_format example_world {["env" := VStr "prod"]} (rformat_sub "nodes/")
  = Ok "nodes/"
  /\ py_format example_world {["env" := VStr "prod"]}
       (rformat_sub ("nodes/" +:+ "%{" +:+ "env" +:+ String "}" "/%{::role}"))
     = match ({["env" := VStr "prod"]} : context_map) !! "env" with
       | Some v =>
           do r <- py_format example_world {["env" := VStr "prod"]}
                     (rformat_sub "/%{::role}");
           Ok ("nodes/" +:+ py_str example_world v +:+ r)
       | None => Raise (KeyError (Some "env"))
       end.
Proof.
  apply (placeholder_round_trip example_world {["env" := VStr "prod"]}
           "nodes/" "env" "/%{::role}"); vm_compute; reflexivity.
Defined.

(** ** Errors of [load] *)

(** X24. [load] on a non-empty configuration mapping that has neither
    the key [backends] nor [:backends] raises [TypeError]: the missing
    list is iterated before anything is checked. *)
Theorem load_without_backends (W : World) (fuel : nat) (hp : heap)
    (d : list (string * pyval)) (classes : list backend_class) (c : loc) :
  d <> [] ->
  odict_get d "backends" = None -> odict_get d ":backends" = None ->
  Hiera_load W fuel hp (BaseDict d) classes c = Raise TypeError.
Proof.
  intros Hd H1 H2. unfold Hiera_load. cbn [bind fst snd].
  destruct d as [|kv d']; [congruence|].
  change (truthy (VDict (kv :: d'))) with true. cbn [negb].
  rewrite sym_lookup_dict, H1, H2. reflexivity.
Qed.

Lemma load_without_backends_witness :
  Hiera_load example_world 3 ∅
    (BaseDict [("hierarchy", VList [VStr "common"])]) default_backends
    Hiera_init_default_context
  = Raise TypeError.
Proof.
  apply (load_without_backends example_world 3 ∅
           [("hierarchy", VList [VStr "common"])]);
    [discriminate|reflexivity|reflexivity].
Defined.

(** X25. [load] raises the exception for an invalid backend at the
    first name of the list that no backend class carries, once the
    names before it are set up. *)
Theorem load_rejects_unknown_backend (W : World) (fuel : nat) (hp : heap)
    (d : list (string * pyval)) (classes : list backend_class) (c : loc)
    (known : list pyval) (name : pyval) (others : list pyval)
    (bs : list (string * Backend)) :
  odict_get d "backends" = Some (VList (known ++ name :: others)) ->
  for_each (load_backend classes (VDict d)) known [] = Ok bs ->
  forallb (fun cl => negb (py_eq (VStr (NAME cl)) name)) classes = true ->
  Hiera_load W fuel hp (BaseDict d) classes c
  = Raise (Exception_ (InvalidBackend name)).
Proof.
  intros H1 H2 H3. unfold Hiera_load. cbn [bind fst snd].
  destruct d as [|kv d']; [discriminate|].
  change (truthy (VDict (kv :: d'))) with true. cbn [negb].
  rewrite sym_lookup_dict, H1. cbn [bind py_iter].
  rewrite for_each_app, H2. cbn [bind for_each].
  assert (Hf : List.filter (fun cl => py_eq (VStr (NAME cl)) name) classes = []).
  { clear -H3. induction classes as [|cl cls IH]; [reflexivity|].
    cbn [forallb List.filter] in *. apply andb_true_iff in H3 as [Hc Hr].
    apply negb_true_iff in Hc. rewrite Hc. auto. }
  unfold load_backend at 1. rewrite Hf. reflexivity.
Qed.

Lemma load_rejects_unknown_backend_witness :
  Hiera_load example_world 3 ∅
    (BaseDict [("backends", VList ([VStr "yaml"] ++ VStr "toml" :: [VStr "json"]));
               ("hierarchy", VList [VStr "common"])])
    default_backends Hiera_init_default_context
  = Raise (Exception_ (InvalidBackend (VStr "toml"))).
Proof.
  eapply (load_rejects_unknown_backend example_world 3 ∅
            [("backends", VList ([VStr "yaml"] ++ VStr "toml" :: [VStr "json"]));
             ("hierarchy", VList [VStr "common"])]
            default_backends Hiera_init_default_context
            [VStr "yaml"] (VStr "toml") [VStr "json"]);
    vm_compute; reflexivity.
Defined.

(** ** Two more merge strategies *)

Lemma merge_sets ls : forall t dp s0,
  for_each merge_value (List.map VList ls) (mkMerge t dp (VSet s0))
  = if forallb (forallb hashable) ls
    then Ok (mkMerge t dp (VSet (set_union_all s0 ls)))
    else Raise TypeError.
Proof.
  induction ls as [|l ls IH]; intros t dp s0;
    cbn [List.map for_each forallb]; [reflexivity|].
  cbn [merge_value value]. unfold py_set. cbn [py_iter bind].
  destruct (forallb hashable l); cbn [bind andb typ deep]; [|reflexivity].
  rewrite IH. reflexivity.
Qed.

(** ** Equality of scalars and sets of scalars *)

Lemma py_eq_scalar_sym x y :
  is_scalar x = true -> is_scalar y = true -> py_eq x y = py_eq y x.
Proof.
  destruct x, y; try discriminate; intros _ _; cbn [py_eq]; try reflexivity;
    try apply Z.eqb_sym; try apply String.eqb_sym.
  destruct b, b0; reflexivity.
Qed.

Lemma py_eq_scalar_trans x y z :
  is_scalar y = true -> is_scalar z = true ->
  py_eq x y = true -> py_eq y z = true -> py_eq x z = true.
Proof.
  destruct y; try discriminate; destruct z; try discriminate;
    destruct x; intros _ _; cbn [py_eq]; try discriminate; try reflexivity;
    rewrite ?Z.eqb_eq, ?String.eqb_eq, ?Bool.eqb_true_iff; try congruence;
    repeat match goal with b : bool |- _ => destruct b end; lia.
Qed.

Lemma py_in_app x l1 l2 : py_in x (l1 ++ l2) = py_in x l1 || py_in x l2.
Proof. apply existsb_app. Qed.

Lemma py_in_trans x y acc :
  is_scalar y = true -> forallb is_scalar acc = true ->
  py_eq x y = true -> py_in y acc = true -> py_in x acc = true.
Proof.
  intros Hy Hacc Hxy. unfold py_in. rewrite !existsb_exists.
  intros [z [Hz Hyz]]. exists z. split; [exact Hz|].
  rewrite forallb_forall in Hacc.
  eapply py_eq_scalar_trans; eauto.
Qed.

Lemma distinct_snoc acc x :
  forallb is_scalar acc = true -> is_scalar x = true ->
  distinct acc = true -> py_in x acc = false ->
  distinct (acc ++ [x]) = true.
Proof.
  induction acc as [|a acc IH]; intros Hs Hx Hd Hin; [reflexivity|].
  cbn [forallb distinct app] in *.
  apply andb_true_iff in Hs as [Ha Hs]. apply andb_true_iff in Hd as [Hna Hd].
  change (py_in x (a :: acc)) with (py_eq x a || py_in x acc) in Hin.
  apply orb_false_iff in Hin as [Hxa Hin].
  rewrite py_in_app.
  change (py_in a [x]) with (py_eq a x || false).
  rewrite (py_eq_scalar_sym a x Ha Hx), Hxa, !orb_false_r, Hna. cbn [andb].
  apply IH; assumption.
Qed.

Lemma set_add_all_spec l : forall acc,
  forallb is_scalar acc = true -> forallb is_scalar l = true ->
  distinct acc = true ->
  forallb is_scalar (set_add_all acc l) = true
  /\ distinct (set_add_all acc l) = true
  /\ forall x, py_in x (set_add_all acc l) = py_in x acc || py_in x l.
Proof.
  induction l as [|y l IH]; intros acc Hs Hl Hd; cbn [set_add_all].
  - split; [exact Hs|]. split; [exact Hd|]. intros x. cbn. now rewrite orb_false_r.
  - cbn [forallb] in Hl. apply andb_true_iff in Hl as [Hy Hl].
    destruct (py_in y acc) eqn:Hin.
    + destruct (IH acc Hs Hl Hd) as (H1 & H2 & H3).
      split; [exact H1|]. split; [exact H2|].
      intros x. rewrite H3. cbn [py_in existsb].
      destruct (py_eq x y) eqn:Hxy; [|reflexivity].
      fold (py_in x l). fold (py_in x acc).
      rewrite (py_in_trans x y acc Hy Hs Hxy Hin). reflexivity.
    + assert (Hs' : forallb is_scalar (acc ++ [y]) = true).
      { rewrite forallb_app, Hs. cbn. now rewrite Hy. }
      destruct (IH (acc ++ [y]) Hs' Hl (distinct_snoc acc y Hs Hy Hd Hin))
        as (H1 & H2 & H3).
      split; [exact H1|]. split; [exact H2|].
      intros x. rewrite H3, py_in_app. cbn [py_in existsb].
      now rewrite orb_false_r, orb_assoc.
Qed.

Lemma set_union_all_spec ls : forall acc,
  forallb is_scalar acc = true -> forallb (forallb is_scalar) ls = true ->
  distinct acc = true ->
  distinct (set_union_all acc ls) = true
  /\ forall x, py_in x (set_union_all acc ls) = py_in x acc || py_in x (concat ls).
Proof.
  unfold set_union_all.
  induction ls as [|l ls IH]; intros acc Hs Hl Hd; cbn [fold_left concat].
  - split; [exact Hd|]. intros x. cbn. now rewrite orb_false_r.
  - cbn [forallb] in Hl. apply andb_true_iff in Hl as [Hl Hls].
    destruct (set_add_all_spec l [] eq_refl Hl eq_refl) as (I1 & I2 & I3).
    destruct (set_add_all_spec (set_add_all [] l) acc Hs I1 Hd) as (O1 & O2 & O3).
    destruct (IH _ O1 Hls O2) as [H1 H2].
    split; [exact H1|].
    intros x. rewrite H2, O3, I3, py_in_app. cbn. now rewrite orb_assoc.
Qed.

Lemma scalar_hashable l :
  forallb is_scalar l = true -> forallb hashable l = true.
Proof.
  rewrite !forallb_forall. intros H x Hx. specialize (H x Hx).
  destruct x; try discriminate; reflexivity.
Qed.

(** X26. With the set strategy, when the paths hold lists of scalars
    (null, booleans, integers, strings) that need no resolution,
    [get_key] returns a set in which no two items are equal and to
    which an object belongs exactly when it belongs to one of the
    lists.  When an item of a list is a list or a set, it raises
    [TypeError]. *)
Theorem get_key_set_strategy (W : World) (fuel : nat) (c : gmap string pyval)
    (key : string) (ps : list string) (ctx : context_map) (dp : bool)
    (l : list pyval) (ls : list (list pyval)) :
  forallb (path_decided c key) ps = true ->
  held_values c key ps = List.map VList (l :: ls) ->
  forallb (inert fuel) (held_values c key ps) = true ->
  (forallb (forallb is_scalar) (l :: ls) = true ->
   exists result,
     get_key W (S fuel) c (Some key) ps ctx (Some (Merge_init TSet dp))
     = Ok (VSet result)
     /\ distinct result = true
     /\ forall x, py_in x result = py_in x (concat (l :: ls)))
  /\ (forallb (forallb hashable) (l :: ls) = false ->
      get_key W (S fuel) c (Some key) ps ctx (Some (Merge_init TSet dp))
      = Raise TypeError).
Proof.
  intros Hd Hh Hi. rewrite (get_key_merge_scan W fuel c key ps ctx _ Hd Hi), Hh.
  pose proof (merge_sets (l :: ls) TSet dp []) as Hm.
  cbn [List.map] in *. unfold Merge_init. cbn [typ deep]. rewrite Hm.
  split.
  - intros Hs.
    assert (Hhash : forallb (forallb hashable) (l :: ls) = true).
    { rewrite forallb_forall in Hs. apply forallb_forall. intros x Hx.
      apply scalar_hashable, Hs, Hx. }
    rewrite Hhash. cbn [bind value].
    destruct (set_union_all_spec (l :: ls) [] eq_refl Hs eq_refl) as [H1 H2].
    eexists. split; [reflexivity|]. split; [exact H1|exact H2].
  - intros ->. reflexivity.
Qed.

Lemma get_key_set_strategy_witness :
  (exists result,
     get_key example_world 3 example_layers (Some "l") example_layer_paths ∅
       (Some (Merge_init TSet false))
     = Ok (VSet result)
     /\ distinct result = true
     /\ forall x, py_in x result
                  = py_in x (concat ([VInt 1; VInt 2] :: [[VInt 2; VInt 3]])))
  /\ get_key example_world 3 example_layers (Some "l") example_layer_paths ∅
       (Some (Merge_init TSet false))
     = Ok (VSet [VInt 1; VInt 2; VInt 3]).
Proof.
  split.
  - apply (get_key_set_strategy example_world 2 example_layers "l"
             example_layer_paths ∅ false [VInt 1; VInt 2] [[VInt 2; VInt 3]]);
      vm_compute; reflexivity.
  - vm_compute. reflexivity.
Defined.

(** X27. With the list strategy a string held by the last path is
    merged character by character: the result is the lists of the
    paths before it followed by the characters of the string. *)
Theorem get_key_list_strategy_splits_strings (W : World) (fuel : nat)
    (c : gmap string pyval) (key : string) (ps : list string)
    (ctx : context_map) (dp : bool) (ls : list (list pyval)) (s : string) :
  forallb (path_decided c key) ps = true ->
  held_values c key ps = List.map VList ls ++ [VStr s] ->
  forallb (inert fuel) (held_values c key ps) = true ->
  get_key W (S fuel) c (Some key) ps ctx (Some (Merge_init TList dp))
  = Ok (VList (concat ls ++ chars s)).
Proof.
  intros Hd Hh Hi. rewrite (get_key_merge_scan W fuel c key ps ctx _ Hd Hi), Hh.
  unfold Merge_init. cbn [typ deep].
  destruct (List.map VList ls ++ [VStr s]) eqn:E; [destruct ls; discriminate|].
  rewrite <- E, for_each_app, merge_lists. reflexivity.
Qed.

Lemma get_key_list_strategy_splits_strings_witness :
  get_key example_world 3 example_mixed_layers (Some "m")
    ["/a.yaml"; "/b.yaml"; "/c.yaml"] ∅ (Some (Merge_init TList false))
  = Ok (VList (concat [[VInt 1; VInt 2]; [VStr "x"]] ++ chars "yz")).
Proof.
  apply (get_key_list_strategy_splits_strings example_world 2
           example_mixed_layers "m" ["/a.yaml"; "/b.yaml"; "/c.yaml"] ∅ false
           [[VInt 1; VInt 2]; [VStr "x"]] "yz"); vm_compute; reflexivity.
Defined.

(** ** First match, absence, and the lookup in a document *)

(** ** The order of the candidate paths *)

Lemma candidate_paths_of W self ctx b level ps self1 :
  candidate W self ctx b level = (Ok ps, self1) ->
  ps = candidate_paths W (base_path self) ctx b level.
Proof.
  unfold candidate_paths.
  destruct (datadir b) as [| | |d| | | |] eqn:Hd;
    try (unfold candidate; rewrite Hd; discriminate).
  destruct (py_format W ctx d) as [d'|e|] eqn:Hfd.
  - destruct (py_format W ctx level) as [p'|e|] eqn:Hfl.
    + rewrite (candidate_each W self ctx b level d d' p' Hd Hfd Hfl).
      apply load_each_returns.
    + unfold candidate. rewrite Hd, Hfd, Hfl. cbn [bind].
      destruct e; congruence.
    + unfold candidate. rewrite Hd, Hfd, Hfl. cbn [bind]. congruence.
  - unfold candidate. rewrite Hd, Hfd. cbn [bind]. destruct e; congruence.
  - unfold candidate. rewrite Hd, Hfd. cbn [bind]. congruence.
Qed.

Lemma collect_paths W ctx pairs : forall self ps self1,
  collect W self ctx pairs = (Ok ps, self1) ->
  ps = flat_map (fun bl => candidate_paths W (base_path self) ctx (fst bl) (snd bl))
         pairs.
Proof.
  induction pairs as [|[b level] pairs IH]; intros self ps self1;
    cbn [collect flat_map fst snd].
  - congruence.
  - pose proof (candidate_keeps W self ctx b level) as (C & _ & _).
    destruct (candidate W self ctx b level) as [[qs| |] s1] eqn:Hc;
      try discriminate.
    cbn [snd] in C. apply config_fields in C as (_ & Cp & _).
    destruct (collect W s1 ctx pairs) as [[rs| |] s2] eqn:Hr; try discriminate.
    intros [= <- <-].
    rewrite (candidate_paths_of _ _ _ _ _ _ _ Hc), (IH _ _ _ Hr), Cp.
    reflexivity.
Qed.

Lemma collect_backend_major W self ctx ps self1 :
  collect W self ctx (candidate_pairs self) = (Ok ps, self1) ->
  ps = backend_major_paths W self ctx.
Proof.
  intros H. rewrite (collect_paths _ _ _ _ _ _ H).
  unfold candidate_pairs, backend_major_paths.
  induction (backends self) as [|kb bs IH]; cbn [flat_map map concat];
    [reflexivity|].
  rewrite flat_map_app, IH. f_equal. clear IH.
  induction (hierarchy self) as [|level hs IHh]; cbn [flat_map map concat];
    [reflexivity|].
  cbn [fst snd]. now rewrite IHh.
Qed.

(** X28. Without a merge strategy, [get] returns the resolved value of
    the first candidate path that holds the key.  The candidate paths
    are those of the first backend for each level of the hierarchy in
    turn, then those of the next backend, and so on; the paths before
    the first hit lack the key (empty document, [KeyError], or null
    value), and the paths after it are not looked at for the key.  A
    [KeyError] raised while the value is resolved is handled by [get]
    like the absence of the key. *)
Theorem first_match_wins (W : World) (fuel : nat) (hp : heap) (self : Hiera)
    (key : string) (default : pyval) (merge_deep throw : bool)
    (ctx kwargs : context_map) (self1 : Hiera)
    (paths pre post : list string) (p : string) (v : pyval) :
  let new_context := assemble_context hp self ctx kwargs in
  collect W self new_context (candidate_pairs self) = (Ok paths, self1) ->
  backend_major_paths W self new_context = pre ++ p :: post ->
  forallb (path_lacks (cache self1) key) pre = true ->
  path_holds (cache self1) key p = Some v ->
  Hiera_get W (S fuel) hp self (Some key) default None merge_deep throw
    ctx kwargs
  = (or_default throw default
       (resolve W fuel (cache self1) v (pre ++ p :: post) new_context None),
     self1).
Proof.
  intros new_context Hc Hpaths Hpre Hp.
  pose proof (collect_backend_major W self new_context paths self1 Hc) as E.
  rewrite Hpaths in E. subst paths.
  unfold Hiera_get. fold new_context. rewrite Hc.
  rewrite get_key_eq, get_key_loop_skip by exact Hpre.
  rewrite (get_key_loop_holds _ _ _ _ _ _ Hp). reflexivity.
Qed.

Lemma first_match_wins_witness :
  fst (Hiera_get site_world 4 ∅ site_engine (Some "url") VNone None
         false false ∅ {["env" := VStr "prod"; "host" := VStr "h"]})
  = Ok (VStr "http://h/prod").
Proof.
  set (self1 := snd (collect site_world site_engine
                       (assemble_context ∅ site_engine ∅
                          {["env" := VStr "prod"; "host" := VStr "h"]})
                       (candidate_pairs site_engine))).
  rewrite (first_match_wins site_world 3 ∅ site_engine "url" VNone false
             false ∅ {["env" := VStr "prod"; "host" := VStr "h"]} self1
             ["/site/prod.yaml"; "/site/common.yaml"; "/site/prod.json";
              "/site/common.json"]
             ["/site/prod.yaml"] ["/site/prod.json"; "/site/common.json"]
             "/site/common.yaml" (VStr "http://%{scope('host')}/%{env}")).
  - vm_compute. reflexivity.
  - vm_compute. reflexivity.
  - vm_compute. reflexivity.
  - vm_compute. reflexivity.
  - vm_compute. reflexivity.
Defined.

(** X29. When the candidate files load and every candidate path lacks
    the key (empty document, [KeyError] of the lookup, or null value),
    [get] returns the default of the caller, or raises [KeyError] for
    the key with [throw], with or without a merge strategy.  [get]
    does the same when the first path that holds the key holds a value
    whose resolution raises [KeyError], as for a call of [hiera] on a
    key that no path holds: the [KeyError] then names that key. *)
Theorem not_found_default (W : World) (fuel : nat) (hp : heap) (self : Hiera)
    (key : string) (default : pyval) (merge_deep throw : bool)
    (ctx kwargs : context_map) (self1 : Hiera) (paths : list string) :
  let new_context := assemble_context hp self ctx kwargs in
  collect W self new_context (candidate_pairs self) = (Ok paths, self1) ->
  (forallb (path_lacks (cache self1) key) paths = true ->
   forall merge,
     Hiera_get W (S fuel) hp self (Some key) default merge merge_deep throw
       ctx kwargs
     = (if throw then Raise (KeyError (Some key)) else Ok default, self1))
  /\ (forall pre p post v k,
        paths = pre ++ p :: post ->
        forallb (path_lacks (cache self1) key) pre = true ->
        path_holds (cache self1) key p = Some v ->
        resolve W fuel (cache self1) v paths new_context None
        = Raise (KeyError k) ->
        Hiera_get W (S fuel) hp self (Some key) default None merge_deep throw
          ctx kwargs
        = (if throw then Raise (KeyError k) else Ok default, self1)).
Proof.
  intros new_context Hc. split.
  - intros Hall merge. unfold Hiera_get. fold new_context. rewrite Hc.
    rewrite get_key_eq, get_key_loop_all_lack by exact Hall.
    destruct throw; reflexivity.
  - intros pre p post v k -> Hpre Hp Hr.
    unfold Hiera_get. fold new_context. rewrite Hc.
    rewrite get_key_eq, get_key_loop_skip by exact Hpre.
    rewrite (get_key_loop_holds _ _ _ _ _ _ Hp), Hr.
    destruct throw; reflexivity.
Qed.

Lemma not_found_default_witness :
  Hiera_get site_world 4 ∅ site_engine (Some "missing.key") (VInt 42)
    (Some TList) false false ∅ {["env" := VStr "prod"]}
  = (Ok (VInt 42),
     snd (collect site_world site_engine
            (assemble_context ∅ site_engine ∅ {["env" := VStr "prod"]})
            (candidate_pairs site_engine)))
  /\ Hiera_get site_world 4 ∅ site_engine (Some "ref") (VInt 42)
       None false false ∅ {["env" := VStr "prod"]}
     = (Ok (VInt 42),
        snd (collect site_world site_engine
               (assemble_context ∅ site_engine ∅ {["env" := VStr "prod"]})
               (candidate_pairs site_engine))).
Proof.
  split.
  - refine (proj1 (not_found_default site_world 3 ∅ site_engine
                     "missing.key" (VInt 42) false false ∅
                     {["env" := VStr "prod"]} _
                     ["/site/prod.yaml"; "/site/common.yaml";
                      "/site/prod.json"; "/site/common.json"] _) _ (Some TList)).
    + vm_compute. reflexivity.
    + vm_compute. reflexivity.
  - refine (proj2 (not_found_default site_world 3 ∅ site_engine
                     "ref" (VInt 42) false false ∅
                     {["env" := VStr "prod"]} _
                     ["/site/prod.yaml"; "/site/common.yaml";
                      "/site/prod.json"; "/site/common.json"] _)
              ["/site/prod.yaml"] "/site/common.yaml"
              ["/site/prod.json"; "/site/common.json"]
              (VStr "see %{hiera('nowhere')}") (Some "nowhere") _ _ _ _).
    + vm_compute. reflexivity.
    + reflexivity.
    + vm_compute. reflexivity.
    + vm_compute. reflexivity.
    + vm_compute. reflexivity.
Defined.

(** X30. What [get_key] does with the document of a candidate path:
    an empty document (null) is skipped; a document that is no mapping
    has no lookup and raises [AttributeError]; in a mapping, each step
    of the lookup of a dotted key raises [KeyError] when a mapping lacks
    the segment, [ValueError] when a segment over a sequence is not a
    number, [IndexError] when the number is out of the range of the
    sequence, [TypeError] when the segment is applied to anything else.
    [get_key] treats [KeyError] as the absence of the key and goes on
    with the next path; the other exceptions are not caught and end
    [get_key]. *)
Theorem lookup_signals (W : World) (fuel : nat) (cache : gmap string pyval)
    (p : string) (ps : list string) (ctx : context_map)
    (merge : option Merge) (doc : pyval) (key : string) :
  cache !! p = Some doc ->
  match doc with
  | VNone =>
      get_key W (S fuel) cache (Some key) (p :: ps) ctx merge
      = get_key_loop cache
          (fun s m => resolve W fuel cache s (p :: ps) ctx m)
          (Some key) merge ps None
  | VDict d =>
      match lookup (VDict d) key with
      | Ok _ => True
      | Raise (KeyError seg) =>
          get_key W (S fuel) cache (Some key) (p :: ps) ctx merge
          = get_key_loop cache
              (fun s m => resolve W fuel cache s (p :: ps) ctx m)
              (Some key) merge ps None
      | Raise e =>
          (e = IndexError \/ e = ValueError \/ e = TypeError)
          /\ get_key W (S fuel) cache (Some key) (p :: ps) ctx merge = Raise e
      | OutOfFuel => False
      end
  | _ =>
      get_key W (S fuel) cache (Some key) (p :: ps) ctx merge
      = Raise AttributeError
  end
  /\ (forall o seg,
        lookup_step o seg
        = match o with
          | VDict d' =>
              match odict_get d' seg with
              | Some v => Ok v
              | None => Raise (KeyError (Some seg))
              end
          | VList l =>
              match py_int seg with
              | None => Raise ValueError
              | Some n =>
                  if (n <? - Z.of_nat (length l)) || (Z.of_nat (length l) <=? n)
                  then Raise IndexError
                  else list_index l n
              end
          | _ => Raise TypeError
          end).
Proof.
  intros Hp. split; [|apply lookup_step_cases].
  rewrite get_key_eq. cbn [get_key_loop]. rewrite Hp.
  destruct doc as [| | | | |d| |]; cbn [is_none negb try_lookup bind];
    try reflexivity.
  destruct (lookup_outcome (VDict d) key) as [[v ->]|[e [-> He]]]; [exact I|].
  destruct He as [[seg ->]|[ -> |[ -> | -> ]]]; cbn; auto.
Qed.

Lemma lookup_signals_witness :
  get_key example_world 1 {["f" := VDict [("a", VList [VInt 1; VInt 2])]]}
    (Some "a.5") ["f"] ∅ None
  = Raise IndexError
  /\ get_key example_world 1 {["g" := VList [VDict [("a", VInt 1)]]]}
       (Some "0.a") ["g"] ∅ None
     = Raise AttributeError.
Proof.
  split.
  - refine (proj2 (proj1 (lookup_signals example_world 0
                     {["f" := VDict [("a", VList [VInt 1; VInt 2])]]}
                     "f" [] ∅ None (VDict [("a", VList [VInt 1; VInt 2])])
                     "a.5" _))).
    reflexivity.
  - refine (proj1 (lookup_signals example_world 0
                     {["g" := VList [VDict [("a", VInt 1)]]]}
                     "g" [] ∅ None (VList [VDict [("a", VInt 1)]]) "0.a" _)).
    reflexivity.
Defined.
